(** * Branson: domain-decomposed particle-passing transport

    A shallow embedding of [branson_dd/src/transport_particle_pass.h]:
    the single-photon tracker [transport_photon_particle_pass] and the
    per-rank driver [transport_particle_pass] with its binary-tree
    completion protocol.

    Conventions.
    - [double] is kept abstract behind the interface [DoubleOps]; every
      theorem about the tracker holds for any interpretation of the
      arithmetic, IEEE-754 included.  A rational instance is used to run
      the code on concrete inputs.
    - [uint32_t] and [uint64_t] are [Z] with the wrap-around written out.
    - The message layer is an oracle indexed by the work-loop iteration
      and the request tested; every call of the message layer and every
      mutation of a buffer is appended to a ghost [trace]. *)

From Stdlib Require Import ZArith QArith Bool List Lia.
From stdpp Require Import base list.
Import ListNotations.

Local Open Scope Z_scope.

(** ** Machine integers *)

Definition wrap32 (x : Z) : Z := x mod 2 ^ 32.
Definition wrap64 (x : Z) : Z := x mod 2 ^ 64.
Definition incr32 (x : Z) : Z := wrap32 (x + 1).
Definition incr64 (x : Z) : Z := wrap64 (x + 1).
Definition add32 (x y : Z) : Z := wrap32 (x + y).
Definition add64 (x y : Z) : Z := wrap64 (x + y).

Arguments wrap32 : simpl never.
Arguments wrap64 : simpl never.
Arguments incr32 : simpl never.
Arguments incr64 : simpl never.
Arguments add32 : simpl never.
Arguments add64 : simpl never.

(** ** Doubles *)

(** The arithmetic of [double] used by the tracker, on a carrier [D].
    [dlit m e] is the
    literal [m * 10^e]; [dlt] and [deq] are the operators [<] and [==];
    [dexp] and [dlog] are libm's [exp] and [log]. *)
Class DoubleOps (D : Type) := {
  dadd : D -> D -> D;
  dsub : D -> D -> D;
  dmul : D -> D -> D;
  ddiv : D -> D -> D;
  dneg : D -> D;
  dlt : D -> D -> bool;
  deq : D -> D -> bool;
  dexp : D -> D;
  dlog : D -> D;
  dlit : Z -> Z -> D
}.

(** ** Constants *)

(** Modelled from the spec: [constants.h] is missing; the tracker's local
    events are KILL, EXIT, CENSUS and PASS, and the driver's switch also
    lists WAIT. *)
Inductive event_type := KILL | EXIT | PASS | CENSUS | WAIT.

(** Modelled from the spec: [constants.h] is missing; the per-face
    boundary-condition tag. *)
Inductive bc_type := REFLECT | VACUUM | ELEMENT | PROCESSOR.

Definition event_type_eqb (a b : event_type) : bool :=
  match a, b with
  | KILL, KILL | EXIT, EXIT | PASS, PASS | CENSUS, CENSUS | WAIT, WAIT => true
  | _, _ => false
  end.

(** ** Buffer<T> *)

(** Modelled from the spec: [buffer.h] is missing.  A buffer owns one
    payload and the flag of its message lifecycle.  [fill] stores the
    payload and leaves the flag; [reset] clears the payload and sets the
    flag to [EMPTY].  The operations are total: what the driver does to a
    buffer in which state is read off the trace. *)
Module Buffer.

Inductive buffer_status := EMPTY | AWAITING | SENT | RECEIVED.

Record t (T : Type) := mk { status : buffer_status; object : list T }.
Arguments mk {T} _ _.
Arguments status {T} _.
Arguments object {T} _.

Definition new {T} : t T := mk EMPTY [].
Definition fill {T} (b : t T) (payload : list T) : t T := mk (status b) payload.
Definition get_buffer {T} (b : t T) : list T := object b.
Definition set_awaiting {T} (b : t T) : t T := mk AWAITING (object b).
Definition set_sent {T} (b : t T) : t T := mk SENT (object b).
Definition set_received {T} (b : t T) : t T := mk RECEIVED (object b).
Definition reset {T} (b : t T) : t T := mk EMPTY [].

Definition is_empty {T} (b : t T) : bool :=
  match status b with EMPTY => true | _ => false end.
Definition awaiting {T} (b : t T) : bool :=
  match status b with AWAITING => true | _ => false end.
Definition sent {T} (b : t T) : bool :=
  match status b with SENT => true | _ => false end.
Definition received {T} (b : t T) : bool :=
  match status b with RECEIVED => true | _ => false end.

(** What the message layer does when a posted receive completes: the
    payload lands in the storage lent to it. *)
Definition deliver {T} (b : t T) (payload : list T) : t T :=
  mk (status b) payload.

End Buffer.

(** The buffers of the driver, which also name their requests. *)
Inductive buf_id :=
| C1_RECV | C2_RECV | P_RECV | C1_SEND | C2_SEND | P_SEND
| PHTN_RECV (i_b : Z) | PHTN_SEND (i_b : Z).

Definition buf_id_eqb (a b : buf_id) : bool :=
  match a, b with
  | C1_RECV, C1_RECV | C2_RECV, C2_RECV | P_RECV, P_RECV
  | C1_SEND, C1_SEND | C2_SEND, C2_SEND | P_SEND, P_SEND => true
  | PHTN_RECV i, PHTN_RECV j | PHTN_SEND i, PHTN_SEND j => Z.eqb i j
  | _, _ => false
  end.

(** Modelled from the spec: [constants.h] is missing; the two wire
    tags. *)
Inductive tag := photon_tag | count_tag.

(** [empty()] of a vector or a stack. *)
Definition is_nil {A} (l : list A) : bool :=
  match l with [] => true | _ => false end.

(** ** std::map<uint32_t, uint32_t> *)

(** The adjacency map is an association list in ascending key order,
    which is the order of iteration of [std::map]. *)
Fixpoint map_lookup (k : Z) (m : list (Z * Z)) : option Z :=
  match m with
  | [] => None
  | (k', v) :: m' => if Z.eqb k k' then Some v else map_lookup k m'
  end.

Fixpoint map_insert (k v : Z) (m : list (Z * Z)) : list (Z * Z) :=
  match m with
  | [] => [(k, v)]
  | (k', v') :: m' =>
      if Z.ltb k k' then (k, v) :: m
      else if Z.eqb k k' then (k, v) :: m'
      else (k', v') :: map_insert k v m'
  end.

(** [m[k]]: a missing key is inserted with the value 0. *)
Definition map_index (m : list (Z * Z)) (k : Z) : Z * list (Z * Z) :=
  match map_lookup k m with
  | Some v => (v, m)
  | None => (0, map_insert k 0 m)
  end.

Section Transport.

Context {D : Type} {HD : DoubleOps D}.

Definition vec3 : Type := D * D * D.

(** ** Photon *)

(** Modelled from the spec: [photon.h] is missing; the fields are those of
    the particle wire record. *)
Record Photon := mkPhoton {
  cell : Z;
  position : vec3;
  direction : vec3;
  E : D;
  E_initial : D;
  distance_remaining : D;
  census_flag : bool;
  alive : bool
}.

Definition get_cell (p : Photon) : Z := cell p.
Definition get_position (p : Photon) : vec3 := position p.
Definition get_angle (p : Photon) : vec3 := direction p.
Definition get_E (p : Photon) : D := E p.
Definition get_distance_remaining (p : Photon) : D := distance_remaining p.

Definition set_E (p : Photon) (e : D) : Photon :=
  mkPhoton (cell p) (position p) (direction p) e (E_initial p)
           (distance_remaining p) (census_flag p) (alive p).
Definition set_cell (p : Photon) (c : Z) : Photon :=
  mkPhoton c (position p) (direction p) (E p) (E_initial p)
           (distance_remaining p) (census_flag p) (alive p).
Definition set_angle (p : Photon) (a : vec3) : Photon :=
  mkPhoton (cell p) (position p) a (E p) (E_initial p)
           (distance_remaining p) (census_flag p) (alive p).
Definition set_dead (p : Photon) : Photon :=
  mkPhoton (cell p) (position p) (direction p) (E p) (E_initial p)
           (distance_remaining p) (census_flag p) false.
Definition set_census_flag (p : Photon) (b : bool) : Photon :=
  mkPhoton (cell p) (position p) (direction p) (E p) (E_initial p)
           (distance_remaining p) b (alive p).
Definition set_distance_to_census (p : Photon) (d : D) : Photon :=
  mkPhoton (cell p) (position p) (direction p) (E p) (E_initial p)
           d (census_flag p) (alive p).

(** Modelled from the spec: [Photon::move] is missing.  Advance the
    position by [d] along the direction and decrement the remaining
    distance by [d]. *)
Definition move (p : Photon) (d : D) : Photon :=
  let '(x, y, z) := position p in
  let '(u, v, w) := direction p in
  mkPhoton (cell p)
           (dadd x (dmul u d), dadd y (dmul v d), dadd z (dmul w d))
           (direction p) (E p) (E_initial p)
           (dsub (distance_remaining p) d) (census_flag p) (alive p).

(** Modelled from the spec: [Photon::below_cutoff] is missing.  The
    cutoff test is [E < cutoff_fraction * E_initial]. *)
Definition below_cutoff (p : Photon) (cutoff_fraction : D) : bool :=
  dlt (E p) (dmul cutoff_fraction (E_initial p)).

(** ** Random numbers *)

(** Modelled from the spec: [RNG.h] is missing.  A generator is the
    stream of its uniform draws and a read position. *)
Record RNG := mkRNG { rng_draws : nat -> D; rng_pos : nat }.

Definition generate_random_number (r : RNG) : D * RNG :=
  (rng_draws r (rng_pos r), mkRNG (rng_draws r) (S (rng_pos r))).

(** ** Cells and mesh *)

(** Modelled from the spec: [mesh.h] is missing.  What the tracker reads
    of a cell; [get_distance_to_boundary] takes the position, the
    direction and the face held by its reference argument, and returns
    the distance together with the face it leaves there. *)
Record Cell := mkCell {
  get_op_a : D;
  get_op_s : D;
  get_f : D;
  get_bc : Z -> bc_type;
  get_next_cell : Z -> Z;
  get_distance_to_boundary : vec3 -> vec3 -> Z -> D * Z
}.

(** Modelled from the spec: [mesh.h] is missing.  The mesh view consumed
    by the core. *)
Record Mesh := mkMesh {
  get_on_rank_cell : Z -> Cell;
  get_rank : Z -> Z;
  get_proc_adjacency_list : list (Z * Z)
}.

(** ** Collaborators *)

(** The code of the repository that the two functions call and that is
    not part of the sources at hand. *)
Class Collaborators (Source : Type) := {
  (** [Constants::c], the speed of light *)
  c : D;
  (** [Constants::proc_null] *)
  proc_null : Z;
  (** [get_uniform_angle(angle, rng)] of [sampling_functions.h] *)
  get_uniform_angle : RNG -> vec3 * RNG;
  (** the axis normal to a face, used by [Photon::reflect] *)
  face_axis : Z -> nat;
  (** [get_n_photon] and [get_photon(rng, dt)] of [Source] *)
  get_n_photon : Source -> Z;
  get_photon : Source -> RNG -> D -> Photon * Source * RNG;
  (** [std::sort] of the census with [Photon::operator<] *)
  sort_census : list Photon -> list Photon
}.

Context {Source : Type} {HC : Collaborators Source}.

(** Modelled from the spec: [Photon::reflect] is missing.  Mirror the
    direction component normal to the face. *)
Definition reflect (p : Photon) (surface_cross : Z) : Photon :=
  let '(u, v, w) := direction p in
  set_angle p match face_axis surface_cross with
              | O => (dneg u, v, w)
              | S O => (u, dneg v, w)
              | _ => (u, v, dneg w)
              end.

(** ** The tracker: [transport_photon_particle_pass] *)

(** [std::min] on doubles. *)
Definition dmin (a b : D) : D := if dlt b a then b else a.

(** The locals and reference arguments that live across the iterations
    of [while(active)]. *)
Record TrackState := mkTrack {
  t_phtn : Photon;
  t_rng : RNG;
  t_cell_id : Z;
  t_cell : Cell;
  t_surface_cross : Z;
  t_next_dt : D;
  t_exit_E : D;
  t_census_E : D;
  t_rank_abs_E : list D
}.

(** [rank_abs_E[cell_id] += e]; an index outside the vector is undefined
    behaviour in the source and leaves the list as it is here. *)
Definition abs_add (l : list D) (cell_id : Z) (e : D) : list D :=
  alter (fun v => dadd v e) (Z.to_nat cell_id) l.

Definition cutoff_fraction : D := dlit 1 (-2).
Definition one : D := dlit 1 0.

(** The three candidate distances and their minimum. *)
Record Distances := mkDist {
  dist_to_scatter : D;
  dist_to_boundary : D;
  dist_to_census : D;
  dist_to_event : D
}.

(** Lines 62-83: distances, absorption, move. *)
Definition advance (st : TrackState) : TrackState * Distances :=
  let cl := t_cell st in
  let sigma_a := get_op_a cl in
  let sigma_s := get_op_s cl in
  let f := get_f cl in
  let '(u, rng1) := generate_random_number (t_rng st) in
  let ds := ddiv (dneg (dlog u))
                 (dadd (dmul (dsub one f) sigma_a) sigma_s) in
  let '(db, sc) := get_distance_to_boundary cl (get_position (t_phtn st))
                                            (get_angle (t_phtn st))
                                            (t_surface_cross st) in
  let dc := get_distance_remaining (t_phtn st) in
  let d := dmin ds (dmin db dc) in
  let absorbed_E :=
    dmul (get_E (t_phtn st))
         (dsub one (dexp (dmul (dmul (dneg sigma_a) f) d))) in
  let p1 := set_E (t_phtn st) (dsub (get_E (t_phtn st)) absorbed_E) in
  let abs1 := abs_add (t_rank_abs_E st) (t_cell_id st) absorbed_E in
  let p2 := move p1 d in
  (mkTrack p2 rng1 (t_cell_id st) cl sc (t_next_dt st) (t_exit_E st)
           (t_census_E st) abs1,
   mkDist ds db dc d).

(** Lines 86-91: the cutoff branch. *)
Definition apply_cutoff (st : TrackState) : TrackState :=
  mkTrack (set_dead (t_phtn st)) (t_rng st) (t_cell_id st) (t_cell st)
          (t_surface_cross st) (t_next_dt st) (t_exit_E st) (t_census_E st)
          (abs_add (t_rank_abs_E st) (t_cell_id st) (get_E (t_phtn st))).

(** Lines 96-99. *)
Definition apply_scatter (st : TrackState) : TrackState :=
  let '(angle, rng1) := get_uniform_angle (t_rng st) in
  mkTrack (set_angle (t_phtn st) angle) rng1 (t_cell_id st) (t_cell st)
          (t_surface_cross st) (t_next_dt st) (t_exit_E st) (t_census_E st)
          (t_rank_abs_E st).

(** Lines 101-122; the second component is the event when the loop
    stops. *)
Definition apply_boundary (mesh : Mesh) (st : TrackState)
  : TrackState * option event_type :=
  let sc := t_surface_cross st in
  match get_bc (t_cell st) sc with
  | ELEMENT =>
      let next_cell := get_next_cell (t_cell st) sc in
      (mkTrack (set_cell (t_phtn st) next_cell) (t_rng st) next_cell
               (get_on_rank_cell mesh next_cell) sc (t_next_dt st)
               (t_exit_E st) (t_census_E st) (t_rank_abs_E st), None)
  | PROCESSOR =>
      let next_cell := get_next_cell (t_cell st) sc in
      (mkTrack (set_cell (t_phtn st) next_cell) (t_rng st) (t_cell_id st)
               (t_cell st) sc (t_next_dt st) (t_exit_E st) (t_census_E st)
               (t_rank_abs_E st), Some PASS)
  | VACUUM =>
      (mkTrack (t_phtn st) (t_rng st) (t_cell_id st) (t_cell st) sc
               (t_next_dt st) (dadd (t_exit_E st) (get_E (t_phtn st)))
               (t_census_E st) (t_rank_abs_E st), Some EXIT)
  | REFLECT =>
      (mkTrack (reflect (t_phtn st) sc) (t_rng st) (t_cell_id st)
               (t_cell st) sc (t_next_dt st) (t_exit_E st) (t_census_E st)
               (t_rank_abs_E st), None)
  end.

(** Lines 124-130. *)
Definition apply_census (st : TrackState) : TrackState :=
  let p1 := set_census_flag (t_phtn st) true in
  let p2 := set_distance_to_census p1 (dmul c (t_next_dt st)) in
  mkTrack p2 (t_rng st) (t_cell_id st) (t_cell st) (t_surface_cross st)
          (t_next_dt st) (t_exit_E st) (dadd (t_census_E st) (get_E p2))
          (t_rank_abs_E st).

(** The event kinds of the [if / else if] chain of lines 96-130. *)
Inductive segment_event := SCATTER | BOUNDARY | REACH_CENSUS.

(** The chain compares [dist_to_event] with [==] against the three
    candidates in the order scatter, boundary, census; none may match. *)
Definition select_event (ds : Distances) : option segment_event :=
  if deq (dist_to_event ds) (dist_to_scatter ds) then Some SCATTER
  else if deq (dist_to_event ds) (dist_to_boundary ds) then Some BOUNDARY
  else if deq (dist_to_event ds) (dist_to_census ds) then Some REACH_CENSUS
  else None.

Definition apply_event (mesh : Mesh) (ev : option segment_event)
  (st : TrackState) : TrackState * option event_type :=
  match ev with
  | Some SCATTER => (apply_scatter st, None)
  | Some BOUNDARY => apply_boundary mesh st
  | Some REACH_CENSUS => (apply_census st, Some CENSUS)
  | None => (st, None)
  end.

(** One iteration of [while(active)]: [Some ev] when [active] was
    cleared and [ev] assigned to [event]. *)
Definition segment (mesh : Mesh) (st : TrackState)
  : TrackState * option event_type :=
  let '(st1, ds) := advance st in
  if below_cutoff (t_phtn st1) cutoff_fraction
  then (apply_cutoff st1, Some KILL)
  else apply_event mesh (select_event ds) st1.

(** [while(active)] with a bound on the number of segments: [None] when
    the bound is reached before a terminal event. *)
Fixpoint track_loop (fuel : nat) (mesh : Mesh) (st : TrackState)
  : option (event_type * TrackState) :=
  match fuel with
  | O => None
  | S k =>
      match segment mesh st with
      | (st', Some ev) => Some (ev, st')
      | (st', None) => track_loop k mesh st'
      end
  end.

(** The state on entry, lines 53-58. *)
Definition track_init (phtn : Photon) (mesh : Mesh) (rng : RNG)
  (next_dt exit_E census_E : D) (rank_abs_E : list D) : TrackState :=
  let cell_id := get_cell phtn in
  mkTrack phtn rng cell_id (get_on_rank_cell mesh cell_id) 0
          next_dt exit_E census_E rank_abs_E.

Definition transport_photon_particle_pass (fuel : nat) (phtn : Photon)
  (mesh : Mesh) (rng : RNG) (next_dt exit_E census_E : D)
  (rank_abs_E : list D) : option (event_type * TrackState) :=
  track_loop fuel mesh
             (track_init phtn mesh rng next_dt exit_E census_E rank_abs_E).


(** ** The driver: [transport_particle_pass] *)

(** What a posted send carries. *)
Inductive payload := Counts (l : list Z) | Photons (l : list Photon).

(** The ghost trace: the calls of the message layer, the mutations of
    the buffers with the flag they found, and the particles tracked. *)
Inductive event :=
| EvIrecv (r : buf_id) (src : Z) (t : tag)
| EvIsend (r : buf_id) (dest : Z) (t : tag) (p : payload)
| EvTest (r : buf_id) (done : bool)
| EvWait (r : buf_id)
| EvBarrier
| EvFill (b : buf_id) (found : Buffer.buffer_status)
| EvReset (b : buf_id) (found : Buffer.buffer_status)
| EvTrack (from_receive_stack : bool) (ev : event_type).

(** The arguments of the call, and the message layer as an oracle:
    [test_done k r] is the answer of [test()] on request [r] in iteration
    [k] of the work loop; [recv_count] and [recv_photons] are the payloads
    found on completion. *)
Record Env := mkEnv {
  mesh : Mesh;
  source : Source;
  imc_next_dt : D;
  imc_rng : RNG;
  batch_size : Z;
  max_buffer_size : Z;
  rank_abs_E : list D;
  n_rank : Z;
  rank : Z;
  n_global : Z;
  track_fuel : nat;
  test_done : nat -> buf_id -> bool;
  recv_count : nat -> buf_id -> Z;
  recv_photons : nat -> Z -> list Photon
}.

(** The parallel event counters, all [uint32_t]. *)
Record Diag := mkDiag {
  n_photon_messages : Z;
  n_photons_sent : Z;
  n_sends_posted : Z;
  n_sends_completed : Z;
  n_receives_posted : Z;
  n_receives_completed : Z
}.

(** The completion counters, all [uint64_t]. *)
Record Tree := mkTree {
  tree_count : Z;
  parent_count : Z;
  c1_count : Z;
  c2_count : Z;
  n_complete : Z;
  n_local_sourced : Z
}.

Record CountBuffers := mkCB {
  c1_recv_buffer : Buffer.t Z;
  c2_recv_buffer : Buffer.t Z;
  p_recv_buffer : Buffer.t Z;
  c1_send_buffer : Buffer.t Z;
  c2_send_buffer : Buffer.t Z;
  p_send_buffer : Buffer.t Z
}.

Record Channels := mkChan {
  adjacent_procs : list (Z * Z);
  send_list : list (list Photon);
  phtn_recv_buffer : list (Buffer.t Photon);
  phtn_send_buffer : list (Buffer.t Photon)
}.

Record Work := mkWork {
  w_source : Source;
  w_rng : RNG;
  census_list : list Photon;
  phtn_recv_stack : list Photon;
  next_dt : D;
  exit_E : D;
  census_E : D;
  w_rank_abs_E : list D
}.

Record Driver := mkDriver {
  diag : Diag;
  tree : Tree;
  cbufs : CountBuffers;
  chans : Channels;
  work : Work;
  finished : bool;
  iter : nat;
  trace : list event
}.

(** *** Updates of the state *)

Definition with_diag (f : Diag -> Diag) (st : Driver) : Driver :=
  mkDriver (f (diag st)) (tree st) (cbufs st) (chans st) (work st)
           (finished st) (iter st) (trace st).
Definition with_tree (f : Tree -> Tree) (st : Driver) : Driver :=
  mkDriver (diag st) (f (tree st)) (cbufs st) (chans st) (work st)
           (finished st) (iter st) (trace st).
Definition with_cbufs (f : CountBuffers -> CountBuffers) (st : Driver) : Driver :=
  mkDriver (diag st) (tree st) (f (cbufs st)) (chans st) (work st)
           (finished st) (iter st) (trace st).
Definition with_chans (f : Channels -> Channels) (st : Driver) : Driver :=
  mkDriver (diag st) (tree st) (cbufs st) (f (chans st)) (work st)
           (finished st) (iter st) (trace st).
Definition with_work (f : Work -> Work) (st : Driver) : Driver :=
  mkDriver (diag st) (tree st) (cbufs st) (chans st) (f (work st))
           (finished st) (iter st) (trace st).
Definition set_finished (b : bool) (st : Driver) : Driver :=
  mkDriver (diag st) (tree st) (cbufs st) (chans st) (work st)
           b (iter st) (trace st).
Definition next_iter (st : Driver) : Driver :=
  mkDriver (diag st) (tree st) (cbufs st) (chans st) (work st)
           (finished st) (S (iter st)) (trace st).
Definition log (e : event) (st : Driver) : Driver :=
  mkDriver (diag st) (tree st) (cbufs st) (chans st) (work st)
           (finished st) (iter st) (e :: trace st).

Definition incr_photon_messages (d : Diag) : Diag :=
  mkDiag (incr32 (n_photon_messages d)) (n_photons_sent d) (n_sends_posted d)
         (n_sends_completed d) (n_receives_posted d) (n_receives_completed d).
Definition add_photons_sent (k : Z) (d : Diag) : Diag :=
  mkDiag (n_photon_messages d) (add32 (n_photons_sent d) k) (n_sends_posted d)
         (n_sends_completed d) (n_receives_posted d) (n_receives_completed d).
Definition incr_sends_posted (d : Diag) : Diag :=
  mkDiag (n_photon_messages d) (n_photons_sent d) (incr32 (n_sends_posted d))
         (n_sends_completed d) (n_receives_posted d) (n_receives_completed d).
Definition incr_sends_completed (d : Diag) : Diag :=
  mkDiag (n_photon_messages d) (n_photons_sent d) (n_sends_posted d)
         (incr32 (n_sends_completed d)) (n_receives_posted d)
         (n_receives_completed d).
Definition incr_receives_posted (d : Diag) : Diag :=
  mkDiag (n_photon_messages d) (n_photons_sent d) (n_sends_posted d)
         (n_sends_completed d) (incr32 (n_receives_posted d))
         (n_receives_completed d).
Definition incr_receives_completed (d : Diag) : Diag :=
  mkDiag (n_photon_messages d) (n_photons_sent d) (n_sends_posted d)
         (n_sends_completed d) (n_receives_posted d)
         (incr32 (n_receives_completed d)).

Definition set_tree_count (v : Z) (t : Tree) : Tree :=
  mkTree v (parent_count t) (c1_count t) (c2_count t) (n_complete t)
         (n_local_sourced t).
Definition set_parent_count (v : Z) (t : Tree) : Tree :=
  mkTree (tree_count t) v (c1_count t) (c2_count t) (n_complete t)
         (n_local_sourced t).
Definition set_c1_count (v : Z) (t : Tree) : Tree :=
  mkTree (tree_count t) (parent_count t) v (c2_count t) (n_complete t)
         (n_local_sourced t).
Definition set_c2_count (v : Z) (t : Tree) : Tree :=
  mkTree (tree_count t) (parent_count t) (c1_count t) v (n_complete t)
         (n_local_sourced t).
Definition set_n_complete (v : Z) (t : Tree) : Tree :=
  mkTree (tree_count t) (parent_count t) (c1_count t) (c2_count t) v
         (n_local_sourced t).
Definition set_n_local_sourced (v : Z) (t : Tree) : Tree :=
  mkTree (tree_count t) (parent_count t) (c1_count t) (c2_count t)
         (n_complete t) v.

(** The count buffers by name; a photon buffer name reads as a fresh
    buffer and writes nothing. *)
Definition get_cbuf (b : buf_id) (cb : CountBuffers) : Buffer.t Z :=
  match b with
  | C1_RECV => c1_recv_buffer cb
  | C2_RECV => c2_recv_buffer cb
  | P_RECV => p_recv_buffer cb
  | C1_SEND => c1_send_buffer cb
  | C2_SEND => c2_send_buffer cb
  | P_SEND => p_send_buffer cb
  | _ => Buffer.new
  end.

Definition upd_cbuf (b : buf_id) (f : Buffer.t Z -> Buffer.t Z)
  (cb : CountBuffers) : CountBuffers :=
  match b with
  | C1_RECV => mkCB (f (c1_recv_buffer cb)) (c2_recv_buffer cb) (p_recv_buffer cb)
                    (c1_send_buffer cb) (c2_send_buffer cb) (p_send_buffer cb)
  | C2_RECV => mkCB (c1_recv_buffer cb) (f (c2_recv_buffer cb)) (p_recv_buffer cb)
                    (c1_send_buffer cb) (c2_send_buffer cb) (p_send_buffer cb)
  | P_RECV => mkCB (c1_recv_buffer cb) (c2_recv_buffer cb) (f (p_recv_buffer cb))
                   (c1_send_buffer cb) (c2_send_buffer cb) (p_send_buffer cb)
  | C1_SEND => mkCB (c1_recv_buffer cb) (c2_recv_buffer cb) (p_recv_buffer cb)
                    (f (c1_send_buffer cb)) (c2_send_buffer cb) (p_send_buffer cb)
  | C2_SEND => mkCB (c1_recv_buffer cb) (c2_recv_buffer cb) (p_recv_buffer cb)
                    (c1_send_buffer cb) (f (c2_send_buffer cb)) (p_send_buffer cb)
  | P_SEND => mkCB (c1_recv_buffer cb) (c2_recv_buffer cb) (p_recv_buffer cb)
                   (c1_send_buffer cb) (c2_send_buffer cb) (f (p_send_buffer cb))
  | _ => cb
  end.

Definition set_adjacent_procs (m : list (Z * Z)) (ch : Channels) : Channels :=
  mkChan m (send_list ch) (phtn_recv_buffer ch) (phtn_send_buffer ch).
Definition set_send_list (l : list (list Photon)) (ch : Channels) : Channels :=
  mkChan (adjacent_procs ch) l (phtn_recv_buffer ch) (phtn_send_buffer ch).
Definition upd_recv_buffer (i_b : Z) (f : Buffer.t Photon -> Buffer.t Photon)
  (ch : Channels) : Channels :=
  mkChan (adjacent_procs ch) (send_list ch)
         (alter f (Z.to_nat i_b) (phtn_recv_buffer ch)) (phtn_send_buffer ch).
Definition upd_send_buffer (i_b : Z) (f : Buffer.t Photon -> Buffer.t Photon)
  (ch : Channels) : Channels :=
  mkChan (adjacent_procs ch) (send_list ch) (phtn_recv_buffer ch)
         (alter f (Z.to_nat i_b) (phtn_send_buffer ch)).

(** Reads of the vectors; an index outside a vector is undefined
    behaviour in the source and reads as an empty list or a fresh
    buffer here. *)
Definition send_list_at (i_b : Z) (st : Driver) : list Photon :=
  default [] (send_list (chans st) !! Z.to_nat i_b).
Definition send_buffer_at (i_b : Z) (st : Driver) : Buffer.t Photon :=
  default Buffer.new (phtn_send_buffer (chans st) !! Z.to_nat i_b).
Definition recv_buffer_at (i_b : Z) (st : Driver) : Buffer.t Photon :=
  default Buffer.new (phtn_recv_buffer (chans st) !! Z.to_nat i_b).

Definition set_census_list (l : list Photon) (w : Work) : Work :=
  mkWork (w_source w) (w_rng w) l (phtn_recv_stack w) (next_dt w) (exit_E w)
         (census_E w) (w_rank_abs_E w).
Definition set_recv_stack (l : list Photon) (w : Work) : Work :=
  mkWork (w_source w) (w_rng w) (census_list w) l (next_dt w) (exit_E w)
         (census_E w) (w_rank_abs_E w).
Definition set_source_rng (s : Source) (r : RNG) (w : Work) : Work :=
  mkWork s r (census_list w) (phtn_recv_stack w) (next_dt w) (exit_E w)
         (census_E w) (w_rank_abs_E w).
(** The reference arguments as the tracker leaves them. *)
Definition set_tracked (ts : TrackState) (w : Work) : Work :=
  mkWork (w_source w) (t_rng ts) (census_list w) (phtn_recv_stack w)
         (t_next_dt ts) (t_exit_E ts) (t_census_E ts) (t_rank_abs_E ts).

Section Step.

Variable env : Env.

(** *** Setup, lines 159-273 *)

Definition n_local : Z := get_n_photon (source env).

Definition n_adjacent : Z :=
  wrap32 (Z.of_nat (length (get_proc_adjacency_list (mesh env)))).

(** The binary tree of ranks, lines 186-205. *)
Definition last_node : Z := n_rank env - 1.

Definition parent : Z :=
  if rank env =? 0 then proc_null else Z.quot (rank env + 1) 2 - 1.

Definition child1 : Z :=
  let c1 := rank env * 2 + 1 in
  if c1 >? last_node then proc_null else c1.

Definition child2 : Z :=
  let c1 := rank env * 2 + 1 in
  if c1 >? last_node then proc_null
  else if c1 =? last_node then proc_null
  else c1 + 1.

Definition init_driver : Driver :=
  mkDriver (mkDiag 0 0 0 0 0 0) (mkTree 0 0 0 0 0 0)
           (mkCB Buffer.new Buffer.new Buffer.new
                 Buffer.new Buffer.new Buffer.new)
           (mkChan (get_proc_adjacency_list (mesh env)) []
                   (replicate (Z.to_nat n_adjacent) Buffer.new)
                   (replicate (Z.to_nat n_adjacent) Buffer.new))
           (mkWork (source env) (imc_rng env) [] [] (imc_next_dt env)
                   (dlit 0 0) (dlit 0 0) (rank_abs_E env))
           false O [].

(** [request.test()] and [request.wait()]. *)
Definition test (r : buf_id) (st : Driver) : bool * Driver :=
  let done := test_done env (iter st) r in
  (done, log (EvTest r done) st).

Definition wait (r : buf_id) (st : Driver) : Driver := log (EvWait r) st.

(** [irecv] into a count buffer, the counter, [set_awaiting]. *)
Definition post_count_recv (b : buf_id) (src : Z) (st : Driver) : Driver :=
  let st := log (EvIrecv b src count_tag) st in
  let st := with_diag incr_receives_posted st in
  with_cbufs (upd_cbuf b Buffer.set_awaiting) st.

(** Lines 241-255. *)
Definition post_tree_recvs (st : Driver) : Driver :=
  let st := if negb (child1 =? proc_null)
            then post_count_recv C1_RECV child1 st else st in
  let st := if negb (child2 =? proc_null)
            then post_count_recv C2_RECV child2 st else st in
  if negb (parent =? proc_null)
  then post_count_recv P_RECV parent st else st.

(** [irecv] into a photon buffer, the counter, [set_awaiting]. *)
Definition post_photon_recv (adj_rank i_b : Z) (st : Driver) : Driver :=
  let st := log (EvIrecv (PHTN_RECV i_b) adj_rank photon_tag) st in
  let st := with_diag incr_receives_posted st in
  with_chans (upd_recv_buffer i_b Buffer.set_awaiting) st.

(** The body of the loop of lines 261-272. *)
Definition setup_neighbor (st : Driver) (e : Z * Z) : Driver :=
  let '(adj_rank, i_b) := e in
  let st := with_chans (fun ch => set_send_list (send_list ch ++ [[]]) ch) st in
  post_photon_recv adj_rank i_b st.

Definition setup (st : Driver) : Driver :=
  let st := post_tree_recvs st in
  fold_left setup_neighbor (adjacent_procs (chans st)) st.

(** *** Tracking a batch, lines 302-344 *)

(** The condition of the inner [while], without the count [n]. *)
Definition has_work (st : Driver) : bool :=
  negb (is_nil (phtn_recv_stack (work st)))
  || (n_local_sourced (tree st) <? n_local).

(** Lines 310-318: the photon of this slot and [from_receive_stack]. *)
Definition take_photon (st : Driver) : Photon * bool * Driver :=
  match phtn_recv_stack (work st) with
  | p :: _ => (p, true, st)
  | [] =>
      let '(p, src, rng) :=
        get_photon (w_source (work st)) (w_rng (work st)) (imc_next_dt env) in
      let st := with_work (set_source_rng src rng) st in
      (p, false,
       with_tree (fun t => set_n_local_sourced (incr64 (n_local_sourced t)) t) st)
  end.

Definition incr_n_complete (st : Driver) : Driver :=
  with_tree (fun t => set_n_complete (incr64 (n_complete t)) t) st.

(** The [switch] of lines 322-341. *)
Definition handle_event (ev : event_type) (phtn : Photon) (st : Driver)
  : Driver :=
  match ev with
  | WAIT => st
  | KILL => incr_n_complete st
  | EXIT => incr_n_complete st
  | CENSUS =>
      let st := with_work (fun w => set_census_list (census_list w ++ [phtn]) w) st in
      incr_n_complete st
  | PASS =>
      let send_rank := get_rank (mesh env) (get_cell phtn) in
      let '(i_b, m) := map_index (adjacent_procs (chans st)) send_rank in
      let st := with_chans (set_adjacent_procs m) st in
      with_chans (fun ch =>
        set_send_list (alter (fun l => l ++ [phtn]) (Z.to_nat i_b) (send_list ch)) ch) st
  end.

Definition pop_recv_stack (st : Driver) : Driver :=
  with_work (fun w => set_recv_stack (tail (phtn_recv_stack w)) w) st.

(** One pass through the body of the inner [while]; [None] when the
    tracker does not come back within [track_fuel] segments. *)
Definition track_slot (st : Driver) : option Driver :=
  let '(phtn, from_receive_stack, st) := take_photon st in
  match transport_photon_particle_pass (track_fuel env) phtn (mesh env)
          (w_rng (work st)) (next_dt (work st)) (exit_E (work st))
          (census_E (work st)) (w_rank_abs_E (work st)) with
  | None => None
  | Some (ev, ts) =>
      let st := with_work (set_tracked ts) st in
      let st := log (EvTrack from_receive_stack ev) st in
      let st := handle_event ev (t_phtn ts) st in
      Some (if from_receive_stack then pop_recv_stack st else st)
  end.

(** [while (n && (...))] with [n] counting down. *)
Fixpoint track_batch (n : nat) (st : Driver) : option Driver :=
  match n with
  | O => Some st
  | S n' =>
      if has_work st then
        match track_slot st with
        | None => None
        | Some st' => track_batch n' st'
        end
      else Some st
  end.

(** *** Photon sends and receives, lines 349-399 *)

(** Lines 357-362. *)
Definition process_send_buffer (i_b : Z) (st : Driver) : Driver :=
  if Buffer.sent (send_buffer_at i_b st) then
    let '(done, st) := test (PHTN_SEND i_b) st in
    if done then
      let st := log (EvReset (PHTN_SEND i_b)
                             (Buffer.status (send_buffer_at i_b st))) st in
      let st := with_chans (upd_send_buffer i_b Buffer.reset) st in
      with_diag incr_sends_completed st
    else st
  else st.

(** The condition of line 364-365. *)
Definition send_policy (i_b : Z) (st : Driver) : bool :=
  (Buffer.is_empty (send_buffer_at i_b st)
   && negb (is_nil (send_list_at i_b st)))
  && ((max_buffer_size env <=? Z.of_nat (length (send_list_at i_b st)))
      || (n_local_sourced (tree st) =? n_local)).

Definition n_photons_to_send (i_b : Z) (st : Driver) : Z :=
  if Z.of_nat (length (send_list_at i_b st)) <? max_buffer_size env
  then Z.of_nat (length (send_list_at i_b st))
  else max_buffer_size env.

(** Lines 366-379. *)
Definition post_photon_send (adj_rank i_b : Z) (st : Driver) : Driver :=
  let n := n_photons_to_send i_b st in
  let send_now_list := take (Z.to_nat n) (send_list_at i_b st) in
  let st := with_chans (fun ch =>
    set_send_list (alter (drop (Z.to_nat n)) (Z.to_nat i_b) (send_list ch)) ch) st in
  let st := log (EvFill (PHTN_SEND i_b)
                        (Buffer.status (send_buffer_at i_b st))) st in
  let st := with_chans
    (upd_send_buffer i_b (fun b => Buffer.fill b send_now_list)) st in
  let st := with_diag (add_photons_sent n) st in
  let st := log (EvIsend (PHTN_SEND i_b) adj_rank photon_tag
                   (Photons (Buffer.get_buffer (send_buffer_at i_b st)))) st in
  let st := with_diag incr_sends_posted st in
  let st := with_chans (upd_send_buffer i_b Buffer.set_sent) st in
  with_diag incr_photon_messages st.

(** Lines 364-380. *)
Definition maybe_post_photon_send (adj_rank i_b : Z) (st : Driver) : Driver :=
  if send_policy i_b st then post_photon_send adj_rank i_b st else st.

(** Lines 383-397; the received particles are pushed in order, so the
    last of the message is on top. *)
Definition process_recv_buffer (adj_rank i_b : Z) (st : Driver) : Driver :=
  if Buffer.awaiting (recv_buffer_at i_b st) then
    let '(done, st) := test (PHTN_RECV i_b) st in
    if done then
      let st := with_chans (upd_recv_buffer i_b
        (fun b => Buffer.deliver b (recv_photons env (iter st) i_b))) st in
      let st := with_diag incr_receives_completed st in
      let receive_list := Buffer.get_buffer (recv_buffer_at i_b st) in
      let st := with_work (fun w =>
        set_recv_stack (rev receive_list ++ phtn_recv_stack w) w) st in
      let st := log (EvReset (PHTN_RECV i_b)
                             (Buffer.status (recv_buffer_at i_b st))) st in
      let st := with_chans (upd_recv_buffer i_b Buffer.reset) st in
      post_photon_recv adj_rank i_b st
    else st
  else st.

(** The body of the loop over the adjacent processors. *)
Definition progress_neighbor (st : Driver) (e : Z * Z) : Driver :=
  let '(adj_rank, i_b) := e in
  let st := process_send_buffer i_b st in
  let st := maybe_post_photon_send adj_rank i_b st in
  process_recv_buffer adj_rank i_b st.

Definition progress_channels (st : Driver) : Driver :=
  fold_left progress_neighbor (adjacent_procs (chans st)) st.

(** *** Binary tree completion communication, lines 410-475 *)

Definition fill_count (b : buf_id) (v : list Z) (st : Driver) : Driver :=
  let st := log (EvFill b (Buffer.status (get_cbuf b (cbufs st)))) st in
  with_cbufs (upd_cbuf b (fun x => Buffer.fill x v)) st.

Definition reset_count (b : buf_id) (st : Driver) : Driver :=
  let st := log (EvReset b (Buffer.status (get_cbuf b (cbufs st)))) st in
  with_cbufs (upd_cbuf b Buffer.reset) st.

Definition isend_count (b : buf_id) (dest : Z) (st : Driver) : Driver :=
  let st := log (EvIsend b dest count_tag
                   (Counts (Buffer.get_buffer (get_cbuf b (cbufs st))))) st in
  with_diag incr_sends_posted st.

(** Lines 410-423 and 424-437. *)
Definition process_child_recv (b : buf_id) (child : Z)
  (set_count : Z -> Tree -> Tree) (st : Driver) : Driver :=
  if Buffer.awaiting (get_cbuf b (cbufs st)) then
    let '(done, st) := test b st in
    if done then
      let st := with_cbufs (upd_cbuf b
        (fun x => Buffer.deliver x [wrap64 (recv_count env (iter st) b)])) st in
      let st := with_diag incr_receives_completed st in
      let st := with_cbufs (upd_cbuf b Buffer.set_received) st in
      let cnt := hd 0 (Buffer.get_buffer (get_cbuf b (cbufs st))) in
      let st := with_tree (set_count cnt) st in
      let st := with_tree
        (fun t => set_tree_count (add64 (tree_count t) cnt) t) st in
      let st := reset_count b st in
      post_count_recv b child st
    else st
  else st.

(** Lines 440-446. *)
Definition process_parent_recv (st : Driver) : Driver :=
  if Buffer.awaiting (p_recv_buffer (cbufs st)) then
    let '(done, st) := test P_RECV st in
    if done then
      let st := with_cbufs (upd_cbuf P_RECV
        (fun x => Buffer.deliver x [wrap64 (recv_count env (iter st) P_RECV)])) st in
      let st := with_diag incr_receives_completed st in
      let st := with_cbufs (upd_cbuf P_RECV Buffer.set_received) st in
      with_tree (set_parent_count
                   (hd 0 (Buffer.get_buffer (p_recv_buffer (cbufs st))))) st
    else st
  else st.

(** Lines 449-454. *)
Definition process_parent_send (st : Driver) : Driver :=
  if Buffer.sent (p_send_buffer (cbufs st)) then
    let '(done, st) := test P_SEND st in
    if done then
      let st := with_diag incr_sends_completed st in
      reset_count P_SEND st
    else st
  else st.

(** Lines 457-458. *)
Definition roll_up (st : Driver) : Driver :=
  let st := with_tree
    (fun t => set_tree_count (add64 (tree_count t) (n_complete t)) t) st in
  with_tree (set_n_complete 0) st.

(** The condition of line 464. *)
Definition upward_send_cond (st : Driver) : bool :=
  (negb (parent =? proc_null) && negb (tree_count (tree st) =? 0))
  && ((n_local =? n_local_sourced (tree st))
      && is_nil (phtn_recv_stack (work st))).

(** Lines 465-470. *)
Definition upward_send (st : Driver) : Driver :=
  let st := fill_count P_SEND [tree_count (tree st)] st in
  let st := isend_count P_SEND parent st in
  let st := with_cbufs (upd_cbuf P_SEND Buffer.set_sent) st in
  with_tree (set_tree_count 0) st.

Definition maybe_upward_send (st : Driver) : Driver :=
  if upward_send_cond st then upward_send st else st.

(** The test of line 474. *)
Definition exit_cond (st : Driver) : bool :=
  (tree_count (tree st) =? n_global env)
  || (parent_count (tree st) =? n_global env).

Definition exit_test (st : Driver) : Driver :=
  if exit_cond st then set_finished true st else st.

(** Lines 410-458: the tree phase up to line 464, where the upward send
    is decided. *)
Definition tree_before_send (st : Driver) : Driver :=
  let st := process_child_recv C1_RECV child1 set_c1_count st in
  let st := process_child_recv C2_RECV child2 set_c2_count st in
  let st := process_parent_recv st in
  let st := process_parent_send st in
  roll_up st.

Definition progress_tree (st : Driver) : Driver :=
  maybe_upward_send (tree_before_send st).

(** *** The work loop, lines 300-475 *)

(** The body of [while (!finished)]; the ghost iteration count moves at
    its end. *)
Definition work_iteration (st : Driver) : option Driver :=
  match track_batch (Z.to_nat (batch_size env)) st with
  | None => None
  | Some st =>
      let st := progress_channels st in
      let st := progress_tree st in
      Some (next_iter (exit_test st))
  end.

(** [while (!finished)] with a bound on the number of iterations. *)
Fixpoint work_loop (fuel : nat) (st : Driver) : option Driver :=
  if finished st then Some st
  else match fuel with
       | O => None
       | S k =>
           match work_iteration st with
           | None => None
           | Some st' => work_loop k st'
           end
       end.

(** *** Shutdown, lines 477-556 *)

(** Lines 478-488 and 489-499. *)
Definition send_down (b : buf_id) (child : Z) (st : Driver) : Driver :=
  if negb (child =? proc_null) then
    let st := if Buffer.sent (get_cbuf b (cbufs st))
              then with_diag incr_sends_completed (wait b st) else st in
    let st := fill_count b [n_global env] st in
    let st := isend_count b child st in
    let st := wait b st in
    with_diag incr_sends_completed st
  else st.

(** Lines 502-505. *)
Definition wait_parent_send (st : Driver) : Driver :=
  if Buffer.sent (p_send_buffer (cbufs st))
  then with_diag incr_sends_completed (wait P_SEND st) else st.

(** Lines 514-520. *)
Definition finish_parent (st : Driver) : Driver :=
  if negb (parent =? proc_null) then
    let st := fill_count P_SEND [1] st in
    let st := isend_count P_SEND parent st in
    let st := wait P_SEND st in
    with_diag incr_sends_completed st
  else st.

(** Lines 521-528. *)
Definition wait_child_recv (b : buf_id) (child : Z) (st : Driver) : Driver :=
  if negb (child =? proc_null)
  then with_diag incr_receives_completed (wait b st) else st.

(** The body of the loop of lines 536-547. *)
Definition finish_neighbor (st : Driver) (e : Z * Z) : Driver :=
  let '(adj_rank, i_b) := e in
  let st := if Buffer.sent (send_buffer_at i_b st)
            then wait (PHTN_SEND i_b) st else st in
  let st := log (EvIsend (PHTN_SEND i_b) adj_rank photon_tag (Photons [])) st in
  let st := with_diag incr_sends_posted st in
  let st := wait (PHTN_SEND i_b) st in
  with_diag incr_sends_completed st.

(** Lines 551-554. *)
Fixpoint wait_photon_recvs (k : nat) (i_b : Z) (st : Driver) : Driver :=
  match k with
  | O => st
  | S k' =>
      let st := wait (PHTN_RECV i_b) st in
      let st := with_diag incr_receives_completed st in
      wait_photon_recvs k' (i_b + 1) st
  end.

Definition shutdown (st : Driver) : Driver :=
  let st := send_down C1_SEND child1 st in
  let st := send_down C2_SEND child2 st in
  let st := wait_parent_send st in
  let st := log EvBarrier st in
  let st := finish_parent st in
  let st := wait_child_recv C1_RECV child1 st in
  let st := wait_child_recv C2_RECV child2 st in
  let st := fold_left finish_neighbor (adjacent_procs (chans st)) st in
  let st := wait_photon_recvs (Z.to_nat n_adjacent) 0 st in
  let st := log EvBarrier st in
  with_work (fun w => set_census_list (sort_census (census_list w)) w) st.

(** The state in which lines 564-573 publish the diagnostics, and the
    census returned. *)
Definition transport_particle_pass (fuel : nat) : option Driver :=
  match work_loop fuel (setup init_driver) with
  | None => None
  | Some st => Some (shutdown st)
  end.

End Step.

End Transport.

(** * Specifications *)

Section Specifications.

Context {D : Type} {HD : DoubleOps D} {Source : Type}
        {HC : @Collaborators D Source}.

Local Abbreviation Photon := (@Photon D).
Local Abbreviation RNG := (@RNG D).
Local Abbreviation Mesh := (@Mesh D).
Local Abbreviation Distances := (@Distances D).
Local Abbreviation TrackState := (@TrackState D).
Local Abbreviation event := (@event D).
Local Abbreviation Env := (@Env D Source).
Local Abbreviation Driver := (@Driver D Source).

(** ** Of the tracker *)

(** The accumulators across a segment or a whole call that ends with
    [r]: [next_dt] is kept; [exit_E] moves only on EXIT and [census_E]
    only on CENSUS, each by the energy the photon has left. *)
Definition segment_frame (st st' : TrackState) (r : option event_type) : Prop :=
  t_next_dt st' = t_next_dt st
  /\ match r with
     | Some EXIT =>
         t_exit_E st' = dadd (t_exit_E st) (get_E (t_phtn st'))
         /\ t_census_E st' = t_census_E st
     | Some CENSUS =>
         t_exit_E st' = t_exit_E st
         /\ t_census_E st' = dadd (t_census_E st) (get_E (t_phtn st'))
     | Some WAIT => False
     | _ => t_exit_E st' = t_exit_E st /\ t_census_E st' = t_census_E st
     end.

(** The values of [l] compare as numbers do: [==] holds when neither is
    less, [<] is asymmetric, and a value between two others is above the
    lower or below the upper one.  This is so for doubles none of which
    is a NaN. *)
Definition weak_order_on (l : list D) : Prop :=
  (forall x y, x ∈ l -> y ∈ l -> deq x y = negb (dlt x y) && negb (dlt y x))
  /\ (forall x y, x ∈ l -> y ∈ l -> dlt x y = true -> dlt y x = false)
  /\ (forall x y z, x ∈ l -> y ∈ l -> z ∈ l ->
        dlt x z = true -> dlt x y = true \/ dlt y z = true).

Definition dist_of (ds : Distances) (k : segment_event) : D :=
  match k with
  | SCATTER => dist_to_scatter ds
  | BOUNDARY => dist_to_boundary ds
  | REACH_CENSUS => dist_to_census ds
  end.

(** The priority of the dispatch: scatter, then boundary, then census. *)
Definition before (k k' : segment_event) : bool :=
  match k, k' with
  | SCATTER, BOUNDARY | SCATTER, REACH_CENSUS | BOUNDARY, REACH_CENSUS => true
  | _, _ => false
  end.

(** The photon but for the fields that an event of the tracker may
    write: the cell, the direction, the census flag and the remaining
    distance. *)
Definition same_particle (p p' : Photon) : Prop :=
  position p' = position p /\ E p' = E p /\ E_initial p' = E_initial p
  /\ alive p' = alive p.

(** What the branch of the event [k] does to the state [st1] that the
    move leaves, lines 96-130: [st'] is the state after the branch and
    [r] the event assigned when the loop stops.  A scatter draws a new
    direction; a boundary crossing acts by the tag of the face crossed;
    reaching the census flags the photon, gives it the distance of the
    next step and tallies its energy. *)
Definition dispatch_effect (mesh : Mesh) (k : segment_event)
  (st1 st' : TrackState) (r : option event_type) : Prop :=
  same_particle (t_phtn st1) (t_phtn st')
  /\ t_surface_cross st' = t_surface_cross st1
  /\ t_next_dt st' = t_next_dt st1
  /\ t_rank_abs_E st' = t_rank_abs_E st1
  /\ match k with
     | SCATTER =>
         r = None
         /\ direction (t_phtn st') = (get_uniform_angle (t_rng st1)).1
         /\ t_rng st' = (get_uniform_angle (t_rng st1)).2
         /\ cell (t_phtn st') = cell (t_phtn st1)
         /\ t_cell_id st' = t_cell_id st1 /\ t_cell st' = t_cell st1
         /\ census_flag (t_phtn st') = census_flag (t_phtn st1)
         /\ distance_remaining (t_phtn st')
            = distance_remaining (t_phtn st1)
         /\ t_exit_E st' = t_exit_E st1 /\ t_census_E st' = t_census_E st1
     | BOUNDARY =>
         let sc := t_surface_cross st1 in
         let next_cell := get_next_cell (t_cell st1) sc in
         t_rng st' = t_rng st1
         /\ census_flag (t_phtn st') = census_flag (t_phtn st1)
         /\ distance_remaining (t_phtn st')
            = distance_remaining (t_phtn st1)
         /\ t_census_E st' = t_census_E st1
         /\ match get_bc (t_cell st1) sc with
            | ELEMENT =>
                r = None
                /\ cell (t_phtn st') = next_cell
                /\ t_cell_id st' = next_cell
                /\ t_cell st' = get_on_rank_cell mesh next_cell
                /\ direction (t_phtn st') = direction (t_phtn st1)
                /\ t_exit_E st' = t_exit_E st1
            | PROCESSOR =>
                r = Some PASS
                /\ cell (t_phtn st') = next_cell
                /\ t_cell_id st' = t_cell_id st1 /\ t_cell st' = t_cell st1
                /\ direction (t_phtn st') = direction (t_phtn st1)
                /\ t_exit_E st' = t_exit_E st1
            | VACUUM =>
                r = Some EXIT
                /\ t_exit_E st' = dadd (t_exit_E st1) (E (t_phtn st1))
                /\ cell (t_phtn st') = cell (t_phtn st1)
                /\ t_cell_id st' = t_cell_id st1 /\ t_cell st' = t_cell st1
                /\ direction (t_phtn st') = direction (t_phtn st1)
            | REFLECT =>
                r = None
                /\ direction (t_phtn st')
                   = direction (reflect (t_phtn st1) sc)
                /\ cell (t_phtn st') = cell (t_phtn st1)
                /\ t_cell_id st' = t_cell_id st1 /\ t_cell st' = t_cell st1
                /\ t_exit_E st' = t_exit_E st1
            end
     | REACH_CENSUS =>
         r = Some CENSUS
         /\ census_flag (t_phtn st') = true
         /\ distance_remaining (t_phtn st') = dmul c (t_next_dt st1)
         /\ t_census_E st' = dadd (t_census_E st1) (E (t_phtn st1))
         /\ t_rng st' = t_rng st1
         /\ direction (t_phtn st') = direction (t_phtn st1)
         /\ cell (t_phtn st') = cell (t_phtn st1)
         /\ t_cell_id st' = t_cell_id st1 /\ t_cell st' = t_cell st1
         /\ t_exit_E st' = t_exit_E st1
     end.

(** [k] is the first of scatter, boundary, census whose distance
    compares equal to the event distance. *)
Definition first_equal (ds : Distances) (k : segment_event) : Prop :=
  deq (dist_to_event ds) (dist_of ds k) = true
  /\ forall k', before k' k = true ->
       deq (dist_to_event ds) (dist_of ds k') = false.

(** ** Of the driver *)

(** [k] iterations of the body of the work loop. *)
Fixpoint iterate_work (env : Env) (k : nat) (st : Driver) : option Driver :=
  match k with
  | O => Some st
  | S k' =>
      match work_iteration env st with
      | None => None
      | Some st1 => iterate_work env k' st1
      end
  end.

(** The state at line 464 of iteration [k], where the upward send is
    decided. *)
Definition at_upward_send (env : Env) (k : nat) : option Driver :=
  match iterate_work env k (setup env (init_driver env)) with
  | None => None
  | Some st =>
      match track_batch env (Z.to_nat (batch_size env)) st with
      | None => None
      | Some st1 =>
          Some (tree_before_send env (progress_channels env st1))
      end
  end.




(** ** Of the message layer *)

(** A request is posted by [isend] and [irecv] and completed by a [test]
    that answers true and by [wait]. *)
Definition posts (r : buf_id) (e : event) : bool :=
  match e with
  | EvIsend r' _ _ _ | EvIrecv r' _ _ => buf_id_eqb r r'
  | _ => false
  end.

Definition completes (r : buf_id) (e : event) : bool :=
  match e with
  | EvTest r' true | EvWait r' => buf_id_eqb r r'
  | _ => false
  end.

(** Whether the request of [r] is in flight after the events [tr], the
    latest first. *)
Fixpoint in_flight (r : buf_id) (tr : list event) : bool :=
  match tr with
  | [] => false
  | e :: tr' =>
      if posts r e then true
      else if completes r e then false
      else in_flight r tr'
  end.

(** The buffers filled or reset while the message layer held them, the
    latest first. *)
Fixpoint mutated_in_flight (tr : list event) : list buf_id :=
  match tr with
  | [] => []
  | e :: tr' =>
      match e with
      | EvFill b _ | EvReset b _ =>
          if in_flight b tr' then b :: mutated_in_flight tr'
          else mutated_in_flight tr'
      | _ => mutated_in_flight tr'
      end
  end.

(** The events that concern [r]. *)
Definition about (r : buf_id) (e : event) : bool :=
  match e with
  | EvIsend r' _ _ _ | EvIrecv r' _ _ | EvTest r' _ | EvWait r'
  | EvFill r' _ | EvReset r' _ => buf_id_eqb r r'
  | _ => false
  end.

(** The events that concern [r], in the order in which they happened. *)
Definition history (r : buf_id) (st : Driver) : list event :=
  List.filter (about r) (rev (trace st)).

End Specifications.

(** * IMC_State: time stepping, [src/imc_state.h] *)

Module IMC_State.

Section WithDoubles.

Context {D : Type} {HD : DoubleOps D}.

(** The members of the class; [m_RNG] is the generator it owns. *)
Record t := mk {
  m_dt : D;
  m_time : D;
  m_time_stop : D;
  m_step : Z;
  m_dt_mult : D;
  m_dt_max : D;
  pre_census_E : D;
  post_census_E : D;
  pre_mat_E : D;
  post_mat_E : D;
  emission_E : D;
  exit_E : D;
  absorbed_E : D;
  source_E : D;
  trans_particles : Z;
  census_size : Z;
  rank_transport_runtime : D;
  m_RNG : @RNG D
}.

Definition get_time (s : t) : D := m_time s.
Definition get_dt (s : t) : D := m_dt s.
Definition get_step (s : t) : Z := m_step s.
Definition get_census_size (s : t) : Z := census_size s.

(** [get_next_dt], lines 91-104; [a > b] is [b < a]. *)
Definition get_next_dt (s : t) : D :=
  let next_dt :=
    if dlt (dmul (m_dt s) (m_dt_mult s)) (m_dt_max s)
    then dmul (m_dt s) (m_dt_mult s)
    else m_dt_max s in
  if dlt (m_time_stop s) (dadd (m_time s) next_dt)
  then dsub (m_time_stop s) (m_time s)
  else next_dt.

(** [std::abs] on doubles, up to the sign of a zero, which no comparison
    sees. *)
Definition dabs (x : D) : D := if dlt x (dlit 0 0) then dneg x else x.

(** [finished], lines 107-113. *)
Definition finished (s : t) : bool :=
  if dlt (dabs (dsub (m_time s) (m_time_stop s))) (dlit 1 (-8))
  then true else false.

(** [next_time_step], lines 204-208: the time moves by the current step,
    then the next step is chosen at the new time. *)
Definition next_time_step (s : t) : t :=
  let s1 := mk (m_dt s) (dadd (m_time s) (m_dt s)) (m_time_stop s) (m_step s)
               (m_dt_mult s) (m_dt_max s) (pre_census_E s) (post_census_E s)
               (pre_mat_E s) (post_mat_E s) (emission_E s) (exit_E s)
               (absorbed_E s) (source_E s) (trans_particles s) (census_size s)
               (rank_transport_runtime s) (m_RNG s) in
  mk (get_next_dt s1) (m_time s1) (m_time_stop s1) (incr32 (m_step s1))
     (m_dt_mult s1) (m_dt_max s1) (pre_census_E s1) (post_census_E s1)
     (pre_mat_E s1) (post_mat_E s1) (emission_E s1) (exit_E s1)
     (absorbed_E s1) (source_E s1) (trans_particles s1) (census_size s1)
     (rank_transport_runtime s1) (m_RNG s1).

(** The setters that the transport step calls, lines 215-243. *)
Definition set_post_census_E (e : D) (s : t) : t :=
  mk (m_dt s) (m_time s) (m_time_stop s) (m_step s) (m_dt_mult s) (m_dt_max s)
     (pre_census_E s) e (pre_mat_E s) (post_mat_E s) (emission_E s) (exit_E s)
     (absorbed_E s) (source_E s) (trans_particles s) (census_size s)
     (rank_transport_runtime s) (m_RNG s).
Definition set_exit_E (e : D) (s : t) : t :=
  mk (m_dt s) (m_time s) (m_time_stop s) (m_step s) (m_dt_mult s) (m_dt_max s)
     (pre_census_E s) (post_census_E s) (pre_mat_E s) (post_mat_E s)
     (emission_E s) e (absorbed_E s) (source_E s) (trans_particles s)
     (census_size s) (rank_transport_runtime s) (m_RNG s).
Definition set_census_size (n : Z) (s : t) : t :=
  mk (m_dt s) (m_time s) (m_time_stop s) (m_step s) (m_dt_mult s) (m_dt_max s)
     (pre_census_E s) (post_census_E s) (pre_mat_E s) (post_mat_E s)
     (emission_E s) (exit_E s) (absorbed_E s) (source_E s) (trans_particles s)
     n (rank_transport_runtime s) (m_RNG s).

End WithDoubles.

End IMC_State.

(** * Further specifications *)

Definition b2z (b : bool) : Z := if b then 1 else 0.

(** Equality of [uint32_t] and of [uint64_t] counters, and their range. *)
Definition eq32 (a b : Z) : Prop := wrap32 a = wrap32 b.
Definition eq64 (a b : Z) : Prop := wrap64 a = wrap64 b.
Definition canonical32 (a : Z) : Prop := 0 <= a < 2 ^ 32.
Definition canonical64 (a : Z) : Prop := 0 <= a < 2 ^ 64.

Section Invariants.

Context {D : Type} {HD : DoubleOps D} {Source : Type}
        {HC : @Collaborators D Source}.

Local Abbreviation Photon := (@Photon D).
Local Abbreviation event := (@event D).
Local Abbreviation Env := (@Env D Source).
Local Abbreviation Driver := (@Driver D Source).

(** The adjacency map names every buffer index below its size, and its
    size is a [uint32_t]. *)
Definition neighbors_indexed (env : Env) : Prop :=
  let m := get_proc_adjacency_list (mesh env) in
  Z.of_nat (length m) < 2 ^ 32
  /\ forall i : nat, (i < length m)%nat ->
       exists k v, (k, v) ∈ m /\ Z.to_nat v = i.

(** What the receive counters depend on. *)
Definition recv_view (st : Driver) :=
  (n_receives_posted (diag st), n_receives_completed (diag st),
   c1_recv_buffer (cbufs st), c2_recv_buffer (cbufs st),
   p_recv_buffer (cbufs st), phtn_recv_buffer (chans st),
   parent_count (tree st)).

(** The receives during the work loop: the posted ones are the
    completed ones and one for each buffer that awaits; every photon
    receive buffer awaits; the buffers of the children await when the
    children exist; and the buffer of the parent awaits only while no
    count of the parent has been taken. *)
Definition recv_invariant (env : Env) (st : Driver) : Prop :=
  canonical32 (n_receives_posted (diag st))
  /\ canonical32 (n_receives_completed (diag st))
  /\ eq32 (n_receives_posted (diag st))
          (n_receives_completed (diag st)
           + b2z (Buffer.awaiting (c1_recv_buffer (cbufs st)))
           + b2z (Buffer.awaiting (c2_recv_buffer (cbufs st)))
           + b2z (Buffer.awaiting (p_recv_buffer (cbufs st)))
           + Z.of_nat (length (phtn_recv_buffer (chans st))))
  /\ length (phtn_recv_buffer (chans st)) = Z.to_nat (n_adjacent env)
  /\ Forall (fun b => Buffer.awaiting b = true) (phtn_recv_buffer (chans st))
  /\ Buffer.awaiting (c1_recv_buffer (cbufs st))
     = negb (child1 env =? proc_null)
  /\ Buffer.awaiting (c2_recv_buffer (cbufs st))
     = negb (child2 env =? proc_null)
  /\ (Buffer.awaiting (p_recv_buffer (cbufs st)) = true ->
      parent env <> proc_null /\ parent_count (tree st) = 0).

End Invariants.

Section Ledgers.

Context {D : Type} {HD : DoubleOps D} {Source : Type}
        {HC : @Collaborators D Source}.

Local Abbreviation Photon := (@Photon D).
Local Abbreviation event := (@event D).
Local Abbreviation Env := (@Env D Source).
Local Abbreviation Driver := (@Driver D Source).

(** The histories that the switch of lines 322-341 counts complete. *)
Definition ends (ev : event_type) : bool :=
  match ev with
  | KILL | EXIT | CENSUS => true
  | PASS | WAIT => false
  end.

(** The tracked histories of a trace that satisfy [f]. *)
Fixpoint count_tracks (f : bool -> event_type -> bool) (tr : list event) : Z :=
  match tr with
  | [] => 0
  | EvTrack from_receive_stack ev :: tr' =>
      b2z (f from_receive_stack ev) + count_tracks f tr'
  | _ :: tr' => count_tracks f tr'
  end.

Definition completions : list event -> Z := count_tracks (fun _ ev => ends ev).
Definition drawn : list event -> Z := count_tracks (fun from _ => negb from).
Definition census_events : list event -> Z :=
  count_tracks (fun _ ev => event_type_eqb ev CENSUS).
Definition passes : list event -> Z :=
  count_tracks (fun _ ev => event_type_eqb ev PASS).

(** The sum of the counts sent to the parent. *)
Fixpoint sent_up (tr : list event) : Z :=
  match tr with
  | [] => 0
  | EvIsend P_SEND _ _ (Counts (v :: _)) :: tr' => v + sent_up tr'
  | _ :: tr' => sent_up tr'
  end.

(** The count that the message layer delivers from a child in iteration
    [j], and the sum of these counts over the iterations below [n]. *)
Definition child_gain (env : Env) (j : nat) (b : buf_id) (child : Z) : Z :=
  if negb (child =? proc_null) && test_done env j b
  then wrap64 (recv_count env j b) else 0.

Fixpoint child_total (env : Env) (n : nat) : Z :=
  match n with
  | O => 0
  | S j => child_total env j
           + child_gain env j C1_RECV (child1 env)
           + child_gain env j C2_RECV (child2 env)
  end.

(** What the completion counts depend on. *)
Definition count_view (st : Driver) :=
  (tree_count (tree st), n_complete (tree st), sent_up (trace st),
   completions (trace st), iter st).

(** In iteration [j], with [g] taken from the children so far in this
    iteration: the count held and the counts sent to the parent are the
    histories completed here and the counts taken from the children. *)
Definition count_invariant_at (env : Env) (j : nat) (g : Z) (st : Driver)
  : Prop :=
  iter st = j
  /\ eq64 (tree_count (tree st) + n_complete (tree st) + sent_up (trace st))
          (completions (trace st) + child_total env j + g)
  /\ (parent env = proc_null -> sent_up (trace st) = 0).

(** The number of photons staged for sending. *)
Fixpoint staged (l : list (list Photon)) : Z :=
  match l with
  | [] => 0
  | x :: l' => Z.of_nat (length x) + staged l'
  end.

(** Every buffer index of the map is below [n]. *)
Definition indices_below (n : nat) (m : list (Z * Z)) : Prop :=
  Forall (fun e : Z * Z => 0 <= e.2 /\ (Z.to_nat e.2 < n)%nat) m.

(** What the tallies of the source and of the census depend on. *)
Definition tally_view (st : Driver) :=
  (n_local_sourced (tree st), census_list (work st), drawn (trace st),
   census_events (trace st)).

(** The photons drawn from the source, and the census, against the
    histories tracked. *)
Definition source_invariant (env : Env) (st : Driver) : Prop :=
  0 <= n_local_sourced (tree st) <= n_local env
  /\ n_local_sourced (tree st) = drawn (trace st).

Definition census_invariant (st : Driver) : Prop :=
  Z.of_nat (length (census_list (work st))) = census_events (trace st).

(** What the staging of photons depends on. *)
Definition stage_view (st : Driver) :=
  (send_list (chans st), adjacent_procs (chans st), n_photons_sent (diag st),
   passes (trace st)).

(** With [n] send lists: every index of the map names one of them, and
    the photons staged and the photons sent are the histories that
    ended in PASS. *)
Definition stage_invariant (n : nat) (st : Driver) : Prop :=
  length (send_list (chans st)) = n
  /\ indices_below n (adjacent_procs (chans st))
  /\ eq32 (staged (send_list (chans st)) + n_photons_sent (diag st))
          (passes (trace st)).

End Ledgers.

Section Observations.

Context {D : Type} {HD : DoubleOps D} {Source : Type}
        {HC : @Collaborators D Source}.

Local Abbreviation Photon := (@Photon D).
Local Abbreviation RNG := (@RNG D).
Local Abbreviation Mesh := (@Mesh D).
Local Abbreviation TrackState := (@TrackState D).
Local Abbreviation event := (@event D).
Local Abbreviation Env := (@Env D Source).
Local Abbreviation Driver := (@Driver D Source).

(** The tracker's cell is the on-rank cell of its cell id. *)
Definition cell_in_sync (mesh : Mesh) (st : TrackState) : Prop :=
  cell (t_phtn st) = t_cell_id st
  /\ t_cell st = get_on_rank_cell mesh (t_cell_id st).

(** Where a segment leaves the photon, by the way it ends. *)
Definition face_of_event (mesh : Mesh) (st : TrackState)
  (r : option event_type) : Prop :=
  t_cell st = get_on_rank_cell mesh (t_cell_id st)
  /\ match r with
     | Some PASS =>
         get_bc (t_cell st) (t_surface_cross st) = PROCESSOR
         /\ cell (t_phtn st) = get_next_cell (t_cell st) (t_surface_cross st)
     | Some EXIT =>
         get_bc (t_cell st) (t_surface_cross st) = VACUUM
         /\ cell (t_phtn st) = t_cell_id st
     | _ => cell (t_phtn st) = t_cell_id st
     end.

(** The photon's own fields across a segment that ends with [r]. *)
Definition photon_marks (p p' : Photon) (c_dt : D)
  (r : option event_type) : Prop :=
  E_initial p' = E_initial p
  /\ alive p' = match r with Some KILL => false | _ => alive p end
  /\ match r with
     | Some CENSUS =>
         census_flag p' = true /\ distance_remaining p' = c_dt
     | _ => census_flag p' = census_flag p
     end.

(** The receive buffers after the loop of lines 261-272. *)
Definition await_all (l : list (Z * Z)) (bufs : list (Buffer.t Photon))
  : list (Buffer.t Photon) :=
  fold_left (fun bs e => alter Buffer.set_awaiting (Z.to_nat e.2) bs) l bufs.

(** The two receive counters. *)
Definition recv_counts (st : Driver) : Z * Z :=
  (n_receives_posted (diag st), n_receives_completed (diag st)).

(** The photon send buffers that are marked sent. *)
Fixpoint count_sent (l : list (Buffer.t Photon)) : Z :=
  match l with
  | [] => 0
  | b :: l' => b2z (Buffer.sent b) + count_sent l'
  end.

(** The fills of the parent-count send buffer that found it marked
    sent. *)
Fixpoint resends (tr : list event) : Z :=
  match tr with
  | [] => 0
  | EvFill P_SEND Buffer.SENT :: tr' => 1 + resends tr'
  | _ :: tr' => resends tr'
  end.

(** What the send counters depend on. *)
Definition send_view (st : Driver) :=
  (n_sends_posted (diag st), n_sends_completed (diag st),
   c1_send_buffer (cbufs st), c2_send_buffer (cbufs st),
   p_send_buffer (cbufs st), phtn_send_buffer (chans st),
   length (send_list (chans st)), resends (trace st)).

(** The sends during the work loop: the posted ones are the completed
    ones, one for each send buffer marked sent, and one for each upward
    send posted over a pending one. *)
Definition send_invariant (env : Env) (st : Driver) : Prop :=
  canonical32 (n_sends_posted (diag st))
  /\ canonical32 (n_sends_completed (diag st))
  /\ eq32 (n_sends_posted (diag st))
          (n_sends_completed (diag st)
           + count_sent (phtn_send_buffer (chans st))
           + b2z (Buffer.sent (p_send_buffer (cbufs st)))
           + resends (trace st))
  /\ (length (send_list (chans st))
      <= length (phtn_send_buffer (chans st)))%nat
  /\ Buffer.sent (c1_send_buffer (cbufs st)) = false
  /\ Buffer.sent (c2_send_buffer (cbufs st)) = false
  /\ (parent env = proc_null ->
      Buffer.sent (p_send_buffer (cbufs st)) = false
      /\ resends (trace st) = 0).

(** What the shutdown does to the send counters: [k] is the number of
    sends posted and not counted complete. *)
Definition send_gap (st : Driver) (k : Z) : Prop :=
  canonical32 (n_sends_posted (diag st))
  /\ canonical32 (n_sends_completed (diag st))
  /\ eq32 (n_sends_posted (diag st)) (n_sends_completed (diag st) + k).

(** The two send counters. *)
Definition send_counts (st : Driver) : Z * Z :=
  (n_sends_posted (diag st), n_sends_completed (diag st)).

End Observations.

(** * A rational instance, to run the code *)

Module QWorld.

Definition pow10 (e : Z) : Q :=
  if (0 <=? e)%Z then inject_Z (10 ^ e) else (1 / inject_Z (10 ^ (- e)))%Q.

(** Exact rationals in place of doubles; [exp] and [log] are replaced by
    the rational functions [1/(1-x)] and [u-1], which agree with them to
    first order at 0 and at 1. *)
#[export] Instance QDouble : DoubleOps Q := {|
  dadd a b := Qred (a + b);
  dsub a b := Qred (a - b);
  dmul a b := Qred (a * b);
  ddiv a b := Qred (a / b);
  dneg a := Qred (- a);
  dlt a b := negb (Qle_bool b a);
  deq a b := Qeq_bool a b;
  dexp x := Qred (1 / (1 - x));
  dlog u := Qred (u - 1);
  dlit m e := Qred (inject_Z m * pow10 e)
|}.

(** A source that hands out the photons of a list, in order. *)
Record ListSource := mkSource {
  src_n : Z;
  src_photons : list (@Photon Q)
}.

Definition null_photon : Photon :=
  mkPhoton 0 (0, 0, 0)%Q (0, 0, 1)%Q 0%Q 0%Q 0%Q false false.

#[export] Instance QCollab : @Collaborators Q ListSource := {|
  c := dlit 299792 (-3);
  proc_null := -1;
  get_uniform_angle r :=
    let '(u, r1) := generate_random_number r in
    let '(_, r2) := generate_random_number r1 in
    ((0%Q, 0%Q, if dlt u (dlit 5 (-1)) then dneg one else one), r2);
  face_axis sc := Z.to_nat (sc / 2);
  get_n_photon s := src_n s;
  get_photon s r dt :=
    (hd null_photon (src_photons s), mkSource (src_n s) (tail (src_photons s)), r);
  sort_census l := l
|}.

(** A slab cell between [z_lo] and [z_hi]: face 4 is the lower and face
    5 the upper one. *)
Definition slab (z_lo z_hi : Q) (lower upper : bc_type) (next_lower : Z) : Cell :=
  mkCell (dlit 1 (-1)) (dlit 1 (-1)) (dlit 5 (-1))
         (fun sc => if (sc =? 4)%Z then lower else upper)
         (fun sc => next_lower)
         (fun pos dir _ =>
            let '(_, _, z) := pos in
            let '(_, _, w) := dir in
            if dlt (dlit 0 0) w then (ddiv (dsub z_hi z) w, 5)
            else (ddiv (dsub z_lo z) w, 4)).

(** One slab on this rank; below it lies cell 100 of rank [other]. *)
Definition slab_mesh (other : Z) : Mesh :=
  mkMesh (fun _ => slab 0 1 PROCESSOR VACUUM 100)
         (fun _ => other)
         [(other, 0)].

Definition rng_tenth : RNG := mkRNG (fun _ => dlit 1 (-1)) O.

(** A photon of unit energy at height [z], moving up or down. *)
Definition photon_at (z w : Q) : Photon :=
  mkPhoton 0 (0, 0, z)%Q (0, 0, w)%Q 1%Q 1%Q 10%Q false true.

(** Rank 1 of two ranks: one photon of its own, which leaves through
    the vacuum face, and one that arrives from rank 0 during iteration
    1.  The first upward send to the parent has not yet tested complete
    when the second completion is rolled up in iteration 2; the total
    arrives from the parent in iteration 3. *)
Definition resend_env (p_send_done_at_3 : bool) : Env :=
  mkEnv (slab_mesh 0) (mkSource 1 [photon_at (1 # 2) 1]) 1%Q rng_tenth
        1 10 [0%Q] 2 1 2 5%nat
        (fun k r => match k, r with
                    | 1%nat, PHTN_RECV 0 => true
                    | 3%nat, P_RECV => true
                    | 3%nat, P_SEND => p_send_done_at_3
                    | _, _ => false
                    end)
        (fun k r => 2)
        (fun k i_b => match k with 1%nat => [photon_at 0 1] | _ => [] end).

(** Rank 0 of two ranks: its one photon crosses to rank 1 in iteration
    0; the send has not tested complete when the child's count arrives
    in iteration 1. *)
Definition pass_env : Env :=
  mkEnv (slab_mesh 1) (mkSource 1 [photon_at (1 # 2) (-1)]) 1%Q rng_tenth
        1 10 [0%Q] 2 0 1 5%nat
        (fun k r => match k, r with
                    | 1%nat, C1_RECV => true
                    | _, _ => false
                    end)
        (fun k r => 1)
        (fun k i_b => []).

(** The tracker on the photon of [resend_env]: it leaves through the
    vacuum face after one segment. *)
Definition exit_call : option (event_type * TrackState) :=
  transport_photon_particle_pass 5 (photon_at (1 # 2) 1) (slab_mesh 0)
    rng_tenth 1%Q 0%Q 0%Q [0%Q].

Definition exit_state : TrackState :=
  mkTrack (mkPhoton 0 (0, 0, 1)%Q (0, 0, 1)%Q (40 # 41)%Q 1%Q (19 # 2)%Q
                    false true)
          (mkRNG (fun _ => dlit 1 (-1)) 1) 0
          (slab 0 1 PROCESSOR VACUUM 100) 5 1%Q (40 # 41)%Q 0%Q [(1 # 41)%Q].

(** The tracker's state on entry for the same photon, and for a photon
    that is already below the cutoff. *)
Definition bright_start : TrackState :=
  track_init (photon_at (1 # 2) 1) (slab_mesh 0) rng_tenth 1%Q 0%Q 0%Q [0%Q].

Definition dim_start : TrackState :=
  track_init (mkPhoton 0 (0, 0, 1 # 2)%Q (0, 0, 1)%Q (1 # 200)%Q 1%Q 10%Q
                       false true)
             (slab_mesh 0) rng_tenth 1%Q 0%Q 0%Q [0%Q].

(** The driver of [pass_env] after the setup, after the batch of the
    first iteration, and when the work loop is left. *)
Definition pass_start : Driver := setup pass_env (init_driver pass_env).


Definition pass_loop_exit : Driver :=
  Eval vm_compute in
    match work_loop pass_env 10 pass_start with
    | Some st => st
    | None => pass_start
    end.

(** The tracker on the photon of [pass_env]: it crosses the lower face
    to rank 1. *)
Definition pass_call : option (event_type * TrackState) :=
  transport_photon_particle_pass 5 (photon_at (1 # 2) (-1)) (slab_mesh 1)
    rng_tenth 1%Q 0%Q 0%Q [0%Q].


Definition pass_state : TrackState :=
  mkTrack (mkPhoton 100 (0, 0, 0)%Q (0, 0, -1)%Q (40 # 41)%Q 1%Q (19 # 2)%Q
                    false true)
          (mkRNG (fun _ => dlit 1 (-1)) 1) 0
          (slab 0 1 PROCESSOR VACUUM 100) 4 1%Q 0%Q 0%Q [(1 # 41)%Q].

(** The tracker on the photon of [dim_start], which is below the
    cutoff. *)
Definition dim_photon : Photon :=
  mkPhoton 0 (0, 0, 1 # 2)%Q (0, 0, 1)%Q (1 # 200)%Q 1%Q 10%Q false true.

Definition kill_call : option (event_type * TrackState) :=
  transport_photon_particle_pass 5 dim_photon (slab_mesh 0)
    rng_tenth 1%Q 0%Q 0%Q [0%Q].


Definition kill_state : TrackState :=
  mkTrack (mkPhoton 0 (0, 0, 1)%Q (0, 0, 1)%Q (1 # 205)%Q 1%Q (19 # 2)%Q
                    false false)
          (mkRNG (fun _ => dlit 1 (-1)) 1) 0
          (slab 0 1 PROCESSOR VACUUM 100) 5 1%Q 0%Q 0%Q [(1 # 200)%Q].

(** The driver of [resend_env true] after the setup and when the work
    loop is left. *)
Definition resend_start : Driver :=
  setup (resend_env true) (init_driver (resend_env true)).

Definition resend_loop_exit : Driver :=
  Eval vm_compute in
    match work_loop (resend_env true) 10 resend_start with
    | Some st => st
    | None => resend_start
    end.

(** A run from time 0 to time 10 with a step of 1 that doubles up to
    5. *)
Definition time_state : IMC_State.t :=
  IMC_State.mk 1%Q 0%Q 10%Q 0 2%Q 5%Q 0%Q 0%Q 0%Q 0%Q 0%Q 0%Q 0%Q 0%Q 0 0 0%Q
               rng_tenth.

(** One rank alone: a slab with two open faces and no neighbor, and two
    photons that reach the census before they reach a face. *)
Definition solo_mesh : Mesh :=
  mkMesh (fun _ => slab 0 1 VACUUM VACUUM 0) (fun _ => 0) [].

Definition census_photon : Photon :=
  mkPhoton 0 (0, 0, 1 # 2)%Q (0, 0, 1)%Q 1%Q 1%Q (1 # 4)%Q false true.

Definition census_env : Env :=
  mkEnv solo_mesh (mkSource 2 [census_photon; census_photon]) 1%Q rng_tenth
        1 10 [0%Q] 1 0 2 5%nat
        (fun k r => false) (fun k r => 0) (fun k i_b => []).

Definition census_start : Driver := setup census_env (init_driver census_env).

Definition census_loop_exit : Driver :=
  Eval vm_compute in
    match work_loop census_env 10 census_start with
    | Some st => st
    | None => census_start
    end.

End QWorld.

(** * Doubles with infinities and a NaN *)

Module NaNWorld.

(** A double is a rational, an infinity or a NaN; the sign of a zero is
    not kept.  [exp] and [log] on the rationals are replaced as in
    [QWorld]. *)
Inductive xdouble := Fin (q : Q) | Inf (negative : bool) | NaN.

Definition is_zero (q : Q) : bool := Qeq_bool q 0.
Definition is_negative (q : Q) : bool := negb (Qle_bool 0 q).

Definition xadd (a b : xdouble) : xdouble :=
  match a, b with
  | NaN, _ | _, NaN => NaN
  | Inf s, Inf s' => if Bool.eqb s s' then Inf s else NaN
  | Inf s, Fin _ | Fin _, Inf s => Inf s
  | Fin p, Fin q => Fin (Qred (p + q))
  end.

Definition xneg (a : xdouble) : xdouble :=
  match a with
  | NaN => NaN
  | Inf s => Inf (negb s)
  | Fin p => Fin (Qred (- p))
  end.

Definition xmul (a b : xdouble) : xdouble :=
  match a, b with
  | NaN, _ | _, NaN => NaN
  | Inf s, Inf s' => Inf (xorb s s')
  | Inf s, Fin q | Fin q, Inf s =>
      if is_zero q then NaN else Inf (xorb s (is_negative q))
  | Fin p, Fin q => Fin (Qred (p * q))
  end.

Definition xdiv (a b : xdouble) : xdouble :=
  match a, b with
  | NaN, _ | _, NaN => NaN
  | Inf _, Inf _ => NaN
  | Inf s, Fin q => Inf (xorb s (is_negative q))
  | Fin _, Inf _ => Fin 0
  | Fin p, Fin q =>
      if is_zero q
      then (if is_zero p then NaN else Inf (is_negative p))
      else Fin (Qred (p / q))
  end.

Definition xlt (a b : xdouble) : bool :=
  match a, b with
  | NaN, _ | _, NaN => false
  | Inf s, Inf s' => s && negb s'
  | Inf s, Fin _ => s
  | Fin _, Inf s => negb s
  | Fin p, Fin q => negb (Qle_bool q p)
  end.

Definition xeq (a b : xdouble) : bool :=
  match a, b with
  | Inf s, Inf s' => Bool.eqb s s'
  | Fin p, Fin q => Qeq_bool p q
  | _, _ => false
  end.

Definition xexp (a : xdouble) : xdouble :=
  match a with
  | NaN => NaN
  | Inf s => if s then Fin 0 else Inf false
  | Fin x => Fin (Qred (1 / (1 - x)))
  end.

Definition xlog (a : xdouble) : xdouble :=
  match a with
  | NaN => NaN
  | Inf s => if s then NaN else Inf false
  | Fin u =>
      if is_zero u then Inf true
      else if is_negative u then NaN
      else Fin (Qred (u - 1))
  end.

#[export] Instance XDouble : DoubleOps xdouble := {|
  dadd := xadd;
  dsub a b := xadd a (xneg b);
  dmul := xmul;
  ddiv := xdiv;
  dneg := xneg;
  dlt := xlt;
  deq := xeq;
  dexp := xexp;
  dlog := xlog;
  dlit m e := Fin (Qred (inject_Z m * QWorld.pow10 e))
|}.

(** The collaborators of the tracker; there is no source. *)
#[export] Instance XCollab : @Collaborators xdouble unit := {|
  c := dlit 299792 (-3);
  proc_null := -1;
  get_uniform_angle r :=
    let '(u, r1) := generate_random_number r in
    let '(_, r2) := generate_random_number r1 in
    ((Fin 0, Fin 0, if dlt u (dlit 5 (-1)) then dneg one else one), r2);
  face_axis sc := Z.to_nat (sc / 2);
  get_n_photon _ := 0;
  get_photon s r dt :=
    (mkPhoton 0 (Fin 0, Fin 0, Fin 0) (Fin 0, Fin 0, Fin 1) (Fin 0) (Fin 0)
              (Fin 0) false false, s, r);
  sort_census l := l
|}.

(** A cell without opacity, one length unit from its upper face, which
    is open. *)
Definition void_cell : Cell :=
  mkCell (Fin 0) (Fin 0) (Fin (1 # 2))
         (fun _ => VACUUM) (fun _ => 0) (fun _ _ _ => (Fin 1, 5)).

Definition void_mesh : Mesh := mkMesh (fun _ => void_cell) (fun _ => 0) [].

(** The generator draws 1, whose logarithm is 0. *)
Definition rng_one : RNG := mkRNG (fun _ => Fin 1) O.

(** The tracker's state on entry for a photon of unit energy in the
    cell without opacity: the distance to scatter is 0 / 0. *)
Definition nan_start : TrackState :=
  track_init (mkPhoton 0 (Fin 0, Fin 0, Fin 0) (Fin 0, Fin 0, Fin 1)
                       (Fin 1) (Fin 1) (Fin 10) false true)
             void_mesh rng_one (Fin 1) (Fin 0) (Fin 0) [Fin 0].

End NaNWorld.

(** * Properties of the tracker *)

Section TrackerProperties.

Context {D : Type} {HD : DoubleOps D} {Source : Type}
        {HC : @Collaborators D Source}.

Local Abbreviation Photon := (@Photon D).
Local Abbreviation RNG := (@RNG D).
Local Abbreviation Mesh := (@Mesh D).
Local Abbreviation Distances := (@Distances D).
Local Abbreviation TrackState := (@TrackState D).
Local Abbreviation event := (@event D).
Local Abbreviation Env := (@Env D Source).
Local Abbreviation Driver := (@Driver D Source).

(** What [advance] leaves alone. *)
Lemma advance_frame (st : TrackState) :
  t_next_dt (advance st).1 = t_next_dt st
  /\ t_exit_E (advance st).1 = t_exit_E st
  /\ t_census_E (advance st).1 = t_census_E st
  /\ t_cell_id (advance st).1 = t_cell_id st
  /\ t_cell (advance st).1 = t_cell st.
Proof.
  unfold advance.
  destruct (get_distance_to_boundary _ _ _ _) as [db sc]; simpl.
  repeat split.
Qed.

Lemma apply_boundary_frame (mesh : Mesh) (st : TrackState) :
  segment_frame st (apply_boundary mesh st).1 (apply_boundary mesh st).2.
Proof.
  unfold apply_boundary, segment_frame.
  destruct (get_bc (t_cell st) (t_surface_cross st)); simpl; auto.
Qed.

Lemma apply_event_frame (mesh : Mesh) (k : option segment_event)
  (st : TrackState) :
  segment_frame st (apply_event mesh k st).1 (apply_event mesh k st).2.
Proof.
  destruct k as [[ | | ] | ]; simpl.
  - unfold apply_scatter, segment_frame.
    destruct (get_uniform_angle (t_rng st)); simpl; auto.
  - apply apply_boundary_frame.
  - unfold segment_frame; simpl; auto.
  - unfold segment_frame; auto.
Qed.

Lemma segment_frame_ok (mesh : Mesh) (st : TrackState) :
  segment_frame st (segment mesh st).1 (segment mesh st).2.
Proof.
  unfold segment.
  pose proof (advance_frame st) as (Hn & Hx & Hc & _).
  destruct (advance st) as [st1 ds]; simpl in *.
  destruct (below_cutoff (t_phtn st1) cutoff_fraction).
  - unfold segment_frame; simpl; auto.
  - pose proof (apply_event_frame mesh (select_event ds) st1) as Hf.
    unfold segment_frame in *.
    destruct Hf as [Hn' Hr]. split; [congruence | ].
    destruct ((apply_event mesh (select_event ds) st1).2) as [[ | | | | ] | ];
      rewrite <- ?Hx, <- ?Hc; exact Hr.
Qed.

(** The loop returns what some segment decided, and the segments before
    it kept the accumulators. *)
Lemma track_loop_frame (mesh : Mesh) (fuel : nat) :
  forall st ev st',
    track_loop fuel mesh st = Some (ev, st') ->
    segment_frame st st' (Some ev).
Proof.
  induction fuel as [ | k IH]; intros st ev st' Hrun; [discriminate | ].
  simpl in Hrun.
  pose proof (segment_frame_ok mesh st) as Hseg.
  destruct (segment mesh st) as [st1 [ev1 | ]]; simpl in Hseg.
  - injection Hrun as <- <-. exact Hseg.
  - apply IH in Hrun. unfold segment_frame in *.
    destruct Hseg as (Hn & Hx & Hc), Hrun as (Hn' & Hr).
    split; [congruence | ].
    destruct ev; rewrite <- ?Hx, <- ?Hc; exact Hr.
Qed.

(** C10: across one call of the tracker, [exit_E] changes only when the
    event is EXIT and then grows by the energy the photon has left,
    [census_E] changes only when the event is CENSUS and then grows by
    the energy the photon has left, and [next_dt] is not written. *)
Theorem C10_accumulator_frame (fuel : nat) (phtn : Photon) (mesh : Mesh)
  (rng : RNG) (next_dt exit_E census_E : D) (rank_abs_E : list D)
  (ev : event_type) (ts : TrackState) :
  transport_photon_particle_pass fuel phtn mesh rng next_dt exit_E census_E
    rank_abs_E = Some (ev, ts) ->
  t_exit_E ts = (if event_type_eqb ev EXIT
                 then dadd exit_E (get_E (t_phtn ts)) else exit_E)
  /\ t_census_E ts = (if event_type_eqb ev CENSUS
                      then dadd census_E (get_E (t_phtn ts)) else census_E)
  /\ t_next_dt ts = next_dt.
Proof.
  unfold transport_photon_particle_pass. intros Hrun.
  apply track_loop_frame in Hrun. destruct Hrun as [Hn Hr].
  simpl in Hn, Hr.
  destruct ev; simpl; try contradiction; destruct Hr as [Hx Hc]; auto.
Qed.

End TrackerProperties.

Section DispatchProperties.

Context {D : Type} {HD : DoubleOps D} {Source : Type}
        {HC : @Collaborators D Source}.

Local Abbreviation Photon := (@Photon D).
Local Abbreviation RNG := (@RNG D).
Local Abbreviation Mesh := (@Mesh D).
Local Abbreviation Distances := (@Distances D).
Local Abbreviation TrackState := (@TrackState D).
Local Abbreviation event := (@event D).
Local Abbreviation Env := (@Env D Source).
Local Abbreviation Driver := (@Driver D Source).

Section WeakOrder.

Variable l : list D.
Hypothesis Hord : weak_order_on l.

Lemma wo_irrefl (x : D) : x ∈ l -> dlt x x = false.
Proof.
  intros Hx. destruct Hord as (_ & Hasym & _).
  destruct (dlt x x) eqn:E; [ | reflexivity].
  specialize (Hasym x x Hx Hx E). congruence.
Qed.

Lemma wo_refl (x : D) : x ∈ l -> deq x x = true.
Proof.
  intros Hx. destruct Hord as (Heq & _).
  rewrite (Heq x x Hx Hx), (wo_irrefl x Hx). reflexivity.
Qed.

Lemma wo_le_trans (x y z : D) :
  x ∈ l -> y ∈ l -> z ∈ l ->
  dlt y x = false -> dlt z y = false -> dlt z x = false.
Proof.
  intros Hx Hy Hz Hyx Hzy. destruct Hord as (_ & _ & Hneg).
  destruct (dlt z x) eqn:E; [ | reflexivity].
  destruct (Hneg z y x Hz Hy Hx E); congruence.
Qed.

Lemma dmin_cases (x y : D) : dmin x y = x \/ dmin x y = y.
Proof. unfold dmin. destruct (dlt y x); auto. Qed.

Lemma dmin_elem (x y : D) : x ∈ l -> y ∈ l -> dmin x y ∈ l.
Proof. intros Hx Hy. destruct (dmin_cases x y) as [-> | ->]; assumption. Qed.

Lemma dmin_lower_l (x y : D) : x ∈ l -> y ∈ l -> dlt x (dmin x y) = false.
Proof.
  intros Hx Hy. unfold dmin. destruct (dlt y x) eqn:E.
  - destruct Hord as (_ & Hasym & _). apply Hasym; assumption.
  - apply wo_irrefl; assumption.
Qed.

Lemma dmin_lower_r (x y : D) : x ∈ l -> y ∈ l -> dlt y (dmin x y) = false.
Proof.
  intros Hx Hy. unfold dmin. destruct (dlt y x) eqn:E.
  - apply wo_irrefl; assumption.
  - exact E.
Qed.

End WeakOrder.

Lemma advance_distances (st : TrackState) :
  dist_to_event (advance st).2
  = dmin (dist_to_scatter (advance st).2)
         (dmin (dist_to_boundary (advance st).2)
               (dist_to_census (advance st).2)).
Proof.
  unfold advance.
  destruct (get_distance_to_boundary _ _ _ _) as [db sc]; reflexivity.
Qed.

Lemma segment_unfold (mesh : Mesh) (st : TrackState) :
  segment mesh st
  = if below_cutoff (t_phtn (advance st).1) cutoff_fraction
    then (apply_cutoff (advance st).1, Some KILL)
    else apply_event mesh (select_event (advance st).2) (advance st).1.
Proof. unfold segment. destruct (advance st); reflexivity. Qed.

Lemma select_event_first (ds : Distances) (k : segment_event) :
  select_event ds = Some k <->
  deq (dist_to_event ds) (dist_of ds k) = true
  /\ forall k', before k' k = true ->
       deq (dist_to_event ds) (dist_of ds k') = false.
Proof.
  unfold select_event.
  destruct (deq (dist_to_event ds) (dist_to_scatter ds)) eqn:Es;
    destruct (deq (dist_to_event ds) (dist_to_boundary ds)) eqn:Eb;
    destruct (deq (dist_to_event ds) (dist_to_census ds)) eqn:Ec;
    destruct k; simpl; split.
  all: try solve
    [ intros Heq;
      first [ discriminate Heq
            | split; [assumption
                     | intros k'; destruct k'; simpl; intros; congruence] ] ].
  all: intros [Hk Hf];
    first [ reflexivity
          | congruence
          | specialize (Hf SCATTER eq_refl); simpl in Hf; congruence
          | specialize (Hf BOUNDARY eq_refl); simpl in Hf; congruence ].
Qed.

Lemma apply_event_effect (mesh : Mesh) (k : segment_event) (st1 : TrackState) :
  dispatch_effect mesh k st1 (apply_event mesh (Some k) st1).1
                  (apply_event mesh (Some k) st1).2.
Proof.
  unfold dispatch_effect, same_particle.
  destruct k; simpl.
  - unfold apply_scatter.
    destruct (get_uniform_angle (t_rng st1)) as [angle rng1]; simpl.
    repeat split.
  - unfold apply_boundary.
    destruct (get_bc (t_cell st1) (t_surface_cross st1)); simpl;
      repeat split; unfold reflect;
      destruct (direction (t_phtn st1)) as [[u v] w]; reflexivity.
  - repeat split.
Qed.

(** C7 (amended): in a segment that the cutoff does not end, the three
    candidate distances are those of lines 67-71; the branch taken is the
    one of the first of scatter, boundary, census whose distance compares
    equal to the event distance, and no branch is taken when none
    compares equal; when the three distances compare as numbers (none is
    a NaN), the event distance is one of them and above none of them, and
    a branch is taken. *)
Theorem C7_minimum_distance_dispatch (mesh : Mesh) (st : TrackState) :
  let st1 := (advance st).1 in
  let ds := (advance st).2 in
  below_cutoff (t_phtn st1) cutoff_fraction = false ->
  (dist_to_scatter ds
   = ddiv (dneg (dlog (rng_draws (t_rng st) (rng_pos (t_rng st)))))
          (dadd (dmul (dsub (dlit 1 0) (get_f (t_cell st)))
                      (get_op_a (t_cell st)))
                (get_op_s (t_cell st)))
   /\ dist_to_boundary ds
      = (get_distance_to_boundary (t_cell st) (position (t_phtn st))
           (direction (t_phtn st)) (t_surface_cross st)).1
   /\ dist_to_census ds = distance_remaining (t_phtn st))
  /\ (forall k, first_equal ds k ->
        dispatch_effect mesh k st1 (segment mesh st).1 (segment mesh st).2)
  /\ ((forall k, deq (dist_to_event ds) (dist_of ds k) = false) ->
      segment mesh st = (st1, None))
  /\ (weak_order_on
        [dist_to_scatter ds; dist_to_boundary ds; dist_to_census ds] ->
      (forall k, dlt (dist_of ds k) (dist_to_event ds) = false)
      /\ (exists k, dist_to_event ds = dist_of ds k)
      /\ exists k, first_equal ds k).
Proof.
  intros st1 ds Hcut.
  pose proof (advance_distances st) as Hd. fold ds in Hd.
  assert (Hseg : segment mesh st = apply_event mesh (select_event ds) st1).
  { rewrite segment_unfold; fold st1 ds; rewrite Hcut; reflexivity. }
  split.
  { unfold ds, advance.
    destruct (get_distance_to_boundary _ _ _ _) as [db sc]; simpl.
    repeat split. }
  split.
  { intros k Hk. apply select_event_first in Hk.
    rewrite Hseg, Hk. apply apply_event_effect. }
  split.
  { intros Hnone. rewrite Hseg. unfold select_event.
    pose proof (Hnone SCATTER) as H1. pose proof (Hnone BOUNDARY) as H2.
    pose proof (Hnone REACH_CENSUS) as H3. simpl in H1, H2, H3.
    rewrite H1, H2, H3. reflexivity. }
  intros Hord.
  set (a := dist_to_scatter ds) in *.
  set (b := dist_to_boundary ds) in *.
  set (c0 := dist_to_census ds) in *.
  set (l := [a; b; c0]) in *.
  assert (Ha : a ∈ l) by (unfold l; repeat constructor).
  assert (Hb : b ∈ l) by (unfold l; repeat constructor).
  assert (Hc : c0 ∈ l) by (unfold l; repeat constructor).
  assert (Hm : dmin b c0 ∈ l) by (apply dmin_elem; assumption).
  assert (Hdl : dist_to_event ds ∈ l)
    by (rewrite Hd; apply dmin_elem; assumption).
  split.
  { intros k. rewrite Hd. destruct k; simpl; fold a b c0.
    - apply (dmin_lower_l l Hord); assumption.
    - apply (wo_le_trans l Hord (dmin a (dmin b c0)) (dmin b c0) b);
        try assumption.
      + rewrite <- Hd; assumption.
      + apply (dmin_lower_r l Hord); assumption.
      + apply (dmin_lower_l l Hord); assumption.
    - apply (wo_le_trans l Hord (dmin a (dmin b c0)) (dmin b c0) c0);
        try assumption.
      + rewrite <- Hd; assumption.
      + apply (dmin_lower_r l Hord); assumption.
      + apply (dmin_lower_r l Hord); assumption. }
  split.
  { rewrite Hd.
    destruct (dmin_cases a (dmin b c0)) as [E1 | E1];
      [exists SCATTER; exact E1 | ].
    destruct (dmin_cases b c0) as [E2 | E2];
      [exists BOUNDARY | exists REACH_CENSUS]; rewrite E1, E2; reflexivity. }
  assert (Hone : deq (dist_to_event ds) a = true
                 \/ deq (dist_to_event ds) b = true
                 \/ deq (dist_to_event ds) c0 = true).
  { pose proof (wo_refl l Hord _ Hdl) as Hr.
    rewrite Hd in *.
    destruct (dmin_cases a (dmin b c0)) as [E1 | E1].
    - left. rewrite E1 in Hr at 2. exact Hr.
    - destruct (dmin_cases b c0) as [E2 | E2].
      + right; left. rewrite E1, E2 in Hr at 2. exact Hr.
      + right; right. rewrite E1, E2 in Hr at 2. exact Hr. }
  assert (Hsel : exists k, select_event ds = Some k).
  { unfold select_event. fold a b c0.
    destruct (deq (dist_to_event ds) a); [eauto | ].
    destruct (deq (dist_to_event ds) b); [eauto | ].
    destruct (deq (dist_to_event ds) c0); [eauto | ].
    destruct Hone as [? | [? | ?]]; congruence. }
  destruct Hsel as [k Hk]. exists k. apply select_event_first. exact Hk.
Qed.

(** C6: when, after the absorption and the move of a segment, the
    photon's energy is below 0.01 times its initial energy, the energy it
    has left is added to the entry of [rank_abs_E] at the current cell,
    on top of the energy absorbed in the segment, and no other entry
    moves; the photon is marked dead and the call returns KILL, whatever
    the three distances are: no direction is drawn, no cell or flag is
    written and no tally moves. *)
Theorem C6_cutoff_kills (mesh : Mesh) (st : TrackState) (fuel : nat) :
  let st1 := (advance st).1 in
  let d := dist_to_event (advance st).2 in
  let absorbed_E :=
    dmul (get_E (t_phtn st))
         (dsub (dlit 1 0)
               (dexp (dmul (dmul (dneg (get_op_a (t_cell st)))
                                 (get_f (t_cell st))) d))) in
  let i := Z.to_nat (t_cell_id st) in
  dlt (get_E (t_phtn st1)) (dmul (dlit 1 (-2)) (E_initial (t_phtn st1))) = true ->
  t_phtn st1
  = move (set_E (t_phtn st) (dsub (get_E (t_phtn st)) absorbed_E)) d
  /\ E (t_phtn st1) = dsub (E (t_phtn st)) absorbed_E
  /\ t_rank_abs_E st1 !! i
     = (fun v => dadd v absorbed_E) <$> (t_rank_abs_E st !! i)
  /\ exists st',
       segment mesh st = (st', Some KILL)
       /\ track_loop (S fuel) mesh st = Some (KILL, st')
       /\ t_rank_abs_E st' !! i
          = (fun v => dadd (dadd v absorbed_E) (E (t_phtn st1)))
              <$> (t_rank_abs_E st !! i)
       /\ (forall j, j <> i -> t_rank_abs_E st' !! j = t_rank_abs_E st !! j)
       /\ length (t_rank_abs_E st') = length (t_rank_abs_E st)
       /\ alive (t_phtn st') = false
       /\ E (t_phtn st') = E (t_phtn st1)
       /\ E_initial (t_phtn st') = E_initial (t_phtn st1)
       /\ position (t_phtn st') = position (t_phtn st1)
       /\ direction (t_phtn st') = direction (t_phtn st1)
       /\ cell (t_phtn st') = cell (t_phtn st1)
       /\ census_flag (t_phtn st') = census_flag (t_phtn st1)
       /\ distance_remaining (t_phtn st') = distance_remaining (t_phtn st1)
       /\ t_rng st' = t_rng st1
       /\ t_cell_id st' = t_cell_id st
       /\ t_exit_E st' = t_exit_E st
       /\ t_census_E st' = t_census_E st.
Proof.
  intros st1 d absorbed_E i Hcut.
  assert (Hadv : t_phtn st1
    = move (set_E (t_phtn st) (dsub (get_E (t_phtn st)) absorbed_E)) d
    /\ t_rank_abs_E st1
       = alter (fun v => dadd v absorbed_E) i (t_rank_abs_E st)).
  { unfold st1, absorbed_E, d, i, advance.
    destruct (get_distance_to_boundary _ _ _ _) as [db sc]; simpl.
    split; reflexivity. }
  destruct Hadv as [Hp Ha]. split; [exact Hp | ].
  split.
  { rewrite Hp. unfold move, set_E; simpl.
    destruct (position (t_phtn st)) as [[x y] z].
    destruct (direction (t_phtn st)) as [[u v] w]. reflexivity. }
  split; [rewrite Ha; apply list_lookup_alter_eq | ].
  pose proof (advance_frame st) as (_ & Hx & Hc & Hid & _).
  fold st1 in Hx, Hc, Hid.
  assert (Hseg : segment mesh st = (apply_cutoff st1, Some KILL)).
  { rewrite segment_unfold. fold st1.
    unfold below_cutoff, cutoff_fraction. unfold get_E in Hcut.
    rewrite Hcut. reflexivity. }
  exists (apply_cutoff st1). split; [exact Hseg | ].
  split; [simpl; rewrite Hseg; reflexivity | ].
  assert (Hl : t_rank_abs_E (apply_cutoff st1)
               = alter (fun v => dadd v (E (t_phtn st1))) i
                   (alter (fun v => dadd v absorbed_E) i (t_rank_abs_E st))).
  { simpl. unfold abs_add. rewrite Hid, Ha. reflexivity. }
  rewrite Hl.
  split.
  { rewrite !list_lookup_alter_eq.
    destruct (t_rank_abs_E st !! i); reflexivity. }
  split.
  { intros j Hj. rewrite !list_lookup_alter_ne by congruence. reflexivity. }
  split; [rewrite !length_alter; reflexivity | ].
  simpl. repeat split; auto.
Qed.

End DispatchProperties.

Section DriverProperties.

Context {D : Type} {HD : DoubleOps D} {Source : Type}
        {HC : @Collaborators D Source}.

Local Abbreviation Photon := (@Photon D).
Local Abbreviation RNG := (@RNG D).
Local Abbreviation Mesh := (@Mesh D).
Local Abbreviation Distances := (@Distances D).
Local Abbreviation TrackState := (@TrackState D).
Local Abbreviation event := (@event D).
Local Abbreviation Env := (@Env D Source).
Local Abbreviation Driver := (@Driver D Source).

Variable env : Env.

Ltac split_ifs :=
  repeat match goal with
         | |- context [if ?b then _ else _] => destruct b eqn:?
         end.

Lemma fold_left_preserves {A B : Type} (P : A -> B) (f : A -> Z * Z -> A)
  (l : list (Z * Z)) :
  (forall a e, P (f a e) = P a) ->
  forall a, P (fold_left f l a) = P a.
Proof.
  intros Hf. induction l as [ | e l IH]; intros a; simpl; [reflexivity | ].
  rewrite IH. apply Hf.
Qed.

(** The flag [finished] is written by the exit test only. *)
Lemma process_send_buffer_finished (i_b : Z) (st : Driver) :
  finished (process_send_buffer env i_b st) = finished st.
Proof. unfold process_send_buffer, test. split_ifs; reflexivity. Qed.

Lemma maybe_post_photon_send_finished (adj_rank i_b : Z) (st : Driver) :
  finished (maybe_post_photon_send env adj_rank i_b st) = finished st.
Proof. unfold maybe_post_photon_send. split_ifs; reflexivity. Qed.

Lemma process_recv_buffer_finished (adj_rank i_b : Z) (st : Driver) :
  finished (process_recv_buffer env adj_rank i_b st) = finished st.
Proof. unfold process_recv_buffer, test. split_ifs; reflexivity. Qed.

Lemma progress_neighbor_finished (st : Driver) (e : Z * Z) :
  finished (progress_neighbor env st e) = finished st.
Proof.
  destruct e as [adj_rank i_b]. unfold progress_neighbor.
  rewrite process_recv_buffer_finished, maybe_post_photon_send_finished.
  apply process_send_buffer_finished.
Qed.

Lemma process_child_recv_finished (b : buf_id) (child : Z)
  (set_count : Z -> Tree -> Tree) (st : Driver) :
  finished (process_child_recv env b child set_count st) = finished st.
Proof. unfold process_child_recv, test. split_ifs; reflexivity. Qed.

Lemma process_parent_recv_finished (st : Driver) :
  finished (process_parent_recv env st) = finished st.
Proof. unfold process_parent_recv, test. split_ifs; reflexivity. Qed.

Lemma process_parent_send_finished (st : Driver) :
  finished (process_parent_send env st) = finished st.
Proof. unfold process_parent_send, test. split_ifs; reflexivity. Qed.

Lemma maybe_upward_send_finished (st : Driver) :
  finished (maybe_upward_send env st) = finished st.
Proof. unfold maybe_upward_send. split_ifs; reflexivity. Qed.

Lemma progress_tree_finished (st : Driver) :
  finished (progress_tree env st) = finished st.
Proof.
  unfold progress_tree.
  rewrite maybe_upward_send_finished. unfold roll_up. simpl.
  rewrite process_parent_send_finished, process_parent_recv_finished.
  rewrite !process_child_recv_finished. reflexivity.
Qed.

Lemma handle_event_finished (ev : event_type) (p : Photon) (st : Driver) :
  finished (handle_event env ev p st) = finished st.
Proof.
  destruct ev; simpl; try reflexivity.
  destruct (map_index _ _); reflexivity.
Qed.

Lemma track_slot_finished (st st' : Driver) :
  track_slot env st = Some st' -> finished st' = finished st.
Proof.
  unfold track_slot, take_photon.
  destruct (phtn_recv_stack (work st)) as [ | p rest].
  - destruct (get_photon _ _ _) as [[p src] rng]. simpl.
    destruct (transport_photon_particle_pass _ _ _ _ _ _ _ _) as [[ev ts] | ];
      [ | discriminate].
    intros [= <-]. rewrite handle_event_finished. reflexivity.
  - destruct (transport_photon_particle_pass _ _ _ _ _ _ _ _) as [[ev ts] | ];
      [ | discriminate].
    intros [= <-]. simpl. rewrite handle_event_finished. reflexivity.
Qed.

Lemma track_batch_finished (n : nat) :
  forall st st', track_batch env n st = Some st' -> finished st' = finished st.
Proof.
  induction n as [ | n IH]; intros st st'; simpl.
  - intros [= <-]; reflexivity.
  - destruct (has_work env st); [ | intros [= <-]; reflexivity].
    destruct (track_slot env st) as [st1 | ] eqn:E; [ | discriminate].
    intros Hb. rewrite (IH _ _ Hb). eapply track_slot_finished; eassumption.
Qed.

Lemma work_iteration_exit_test (st st' : Driver) :
  work_iteration env st = Some st' ->
  finished st' = finished st || exit_cond env st'.
Proof.
  unfold work_iteration.
  destruct (track_batch env _ st) as [st1 | ] eqn:Eb; [ | discriminate].
  intros [= <-].
  apply track_batch_finished in Eb.
  set (s2 := progress_tree env (progress_channels env st1)).
  assert (Hf : finished s2 = finished st).
  { unfold s2. rewrite progress_tree_finished. unfold progress_channels.
    rewrite (fold_left_preserves finished); [exact Eb | ].
    intros; apply progress_neighbor_finished. }
  unfold exit_test, exit_cond in *. simpl.
  destruct ((tree_count (tree s2) =? n_global env)
            || (parent_count (tree s2) =? n_global env)) eqn:Ec; simpl.
  - rewrite Ec. symmetry; apply orb_true_r.
  - rewrite Ec, Hf. symmetry; apply orb_false_r.
Qed.

Lemma work_loop_finished (fuel : nat) (st : Driver) :
  finished st = true -> work_loop env fuel st = Some st.
Proof. intros Hf. destruct fuel; simpl; rewrite Hf; reflexivity. Qed.

Lemma exit_cond_iff (st : Driver) :
  exit_cond env st = true <->
  tree_count (tree st) = n_global env \/ parent_count (tree st) = n_global env.
Proof. unfold exit_cond. rewrite orb_true_iff, !Z.eqb_eq. reflexivity. Qed.

Lemma exit_cond_false_iff (st : Driver) :
  exit_cond env st = false <->
  tree_count (tree st) <> n_global env /\ parent_count (tree st) <> n_global env.
Proof. unfold exit_cond. rewrite orb_false_iff, !Z.eqb_neq. reflexivity. Qed.

Lemma work_loop_first_exit (fuel : nat) :
  forall st st',
    finished st = false ->
    work_loop env fuel st = Some st' ->
    finished st' = true /\ exit_cond env st' = true
    /\ exists k, (1 <= k <= fuel)%nat
         /\ iterate_work env k st = Some st'
         /\ forall j sj, (1 <= j < k)%nat ->
              iterate_work env j st = Some sj -> exit_cond env sj = false.
Proof.
  induction fuel as [ | fuel IH]; intros st st' Hnf Hrun; simpl in Hrun;
    rewrite Hnf in Hrun; [discriminate | ].
  destruct (work_iteration env st) as [st1 | ] eqn:Ei; [ | discriminate].
  pose proof (work_iteration_exit_test _ _ Ei) as Hex.
  rewrite Hnf in Hex; simpl in Hex.
  destruct (finished st1) eqn:Hf1.
  - rewrite (work_loop_finished _ _ Hf1) in Hrun. injection Hrun as <-.
    repeat split; auto. exists 1%nat. repeat split.
    + lia.
    + lia.
    + simpl. rewrite Ei. reflexivity.
    + intros j sj Hj. lia.
  - destruct (IH _ _ Hf1 Hrun) as (Hf & Hc & k & Hk & Hit & Hbefore).
    repeat split; auto. exists (S k). repeat split.
    + lia.
    + lia.
    + simpl. rewrite Ei. exact Hit.
    + intros j sj Hj Hj'. destruct j as [ | j]; [lia | ].
      simpl in Hj'. rewrite Ei in Hj'.
      destruct j as [ | j].
      * simpl in Hj'. injection Hj' as <-. congruence.
      * apply (Hbefore (S j) sj); [lia | exact Hj'].
Qed.

Lemma work_loop_exits_at (k : nat) :
  forall st sk fuel,
    finished st = false ->
    (1 <= k <= fuel)%nat ->
    iterate_work env k st = Some sk ->
    exit_cond env sk = true ->
    (forall j sj, (1 <= j < k)%nat ->
       iterate_work env j st = Some sj -> exit_cond env sj = false) ->
    work_loop env fuel st = Some sk.
Proof.
  induction k as [ | k IH]; intros st sk fuel Hnf Hk Hit Hc Hbefore; [lia | ].
  destruct fuel as [ | fuel]; [lia | ].
  simpl in *. rewrite Hnf.
  destruct (work_iteration env st) as [st1 | ] eqn:Ei; [ | discriminate].
  pose proof (work_iteration_exit_test _ _ Ei) as Hex.
  rewrite Hnf in Hex; simpl in Hex.
  destruct k as [ | k].
  - simpl in Hit. injection Hit as <-.
    apply work_loop_finished. congruence.
  - apply IH; auto.
    + rewrite Hex. apply (Hbefore 1%nat st1); [lia | ].
      simpl. rewrite Ei. reflexivity.
    + lia.
    + intros j sj Hj Hj'. apply (Hbefore (S j) sj); [lia | ].
      simpl. rewrite Ei. exact Hj'.
Qed.

(** C4: every iteration of the work loop ends with the exit test; the
    loop is left after the first iteration at whose end
    [tree_count == n_global] or [parent_count == n_global], and after no
    other. *)
Theorem C4_work_loop_exit (fuel : nat) (st st' : Driver) :
  finished st = false ->
  work_loop env fuel st = Some st' ->
  (tree_count (tree st') = n_global env
   \/ parent_count (tree st') = n_global env)
  /\ (exists k, (1 <= k <= fuel)%nat
        /\ iterate_work env k st = Some st'
        /\ forall j sj, (1 <= j < k)%nat ->
             iterate_work env j st = Some sj ->
             tree_count (tree sj) <> n_global env
             /\ parent_count (tree sj) <> n_global env)
  /\ (forall s s', finished s = false -> work_iteration env s = Some s' ->
        finished s' = true <->
        (tree_count (tree s') = n_global env
         \/ parent_count (tree s') = n_global env))
  /\ (forall k sk fuel',
        (1 <= k <= fuel')%nat ->
        iterate_work env k st = Some sk ->
        (tree_count (tree sk) = n_global env
         \/ parent_count (tree sk) = n_global env) ->
        (forall j sj, (1 <= j < k)%nat ->
           iterate_work env j st = Some sj ->
           tree_count (tree sj) <> n_global env
           /\ parent_count (tree sj) <> n_global env) ->
        work_loop env fuel' st = Some sk).
Proof.
  intros Hnf Hrun.
  destruct (work_loop_first_exit _ _ _ Hnf Hrun) as (Hf & Hc & k & Hk & Hit & Hb).
  split; [apply exit_cond_iff; exact Hc | ].
  split.
  { exists k. repeat split; try lia; auto.
    - apply (exit_cond_false_iff sj). eapply Hb; eassumption.
    - apply (exit_cond_false_iff sj). eapply Hb; eassumption. }
  split.
  { intros s s' Hs Hi. pose proof (work_iteration_exit_test _ _ Hi) as Hex.
    rewrite Hs in Hex; simpl in Hex. rewrite Hex. apply exit_cond_iff. }
  intros k' sk fuel' Hk' Hit' Hc' Hb'.
  apply (work_loop_exits_at k'); auto.
  - apply exit_cond_iff; exact Hc'.
  - intros j sj Hj Hj'. apply exit_cond_false_iff. eapply Hb'; eassumption.
Qed.


Lemma is_nil_false {A : Type} (l : list A) : is_nil l = false <-> l <> [].
Proof. destruct l; simpl; split; congruence. Qed.

Lemma is_empty_iff {T : Type} (b : Buffer.t T) :
  Buffer.is_empty b = true <-> Buffer.status b = Buffer.EMPTY.
Proof.
  unfold Buffer.is_empty. destruct (Buffer.status b); split; congruence.
Qed.

Lemma send_policy_iff (i_b : Z) (st : Driver) :
  send_policy env i_b st = true <->
  Buffer.status (send_buffer_at i_b st) = Buffer.EMPTY
  /\ send_list_at i_b st <> []
  /\ (max_buffer_size env <= Z.of_nat (length (send_list_at i_b st))
      \/ n_local_sourced (tree st) = n_local env).
Proof.
  unfold send_policy.
  rewrite !andb_true_iff, orb_true_iff, negb_true_iff, is_nil_false,
    is_empty_iff, Z.leb_le, Z.eqb_eq.
  tauto.
Qed.




Lemma tracker_not_wait (fuel : nat) (phtn : Photon) (m : Mesh) (rng : RNG)
  (ndt xE cE : D) (abs : list D) (ts : TrackState) :
  transport_photon_particle_pass fuel phtn m rng ndt xE cE abs
  <> Some (WAIT, ts).
Proof.
  unfold transport_photon_particle_pass. intros Hrun.
  apply track_loop_frame in Hrun. destruct Hrun as [_ []].
Qed.

Lemma track_slot_switch (st st' : Driver) :
  track_slot env st = Some st' ->
  exists fs ev, trace st' = EvTrack fs ev :: trace st /\ ev <> WAIT.
Proof.
  unfold track_slot, take_photon.
  destruct (phtn_recv_stack (work st)) as [ | p rest];
    [destruct (get_photon _ _ _) as [[p src] rng]; simpl | ];
    (destruct (transport_photon_particle_pass _ _ _ _ _ _ _ _)
       as [[ev ts] | ] eqn:Ht; [ | discriminate]);
    intros [= <-]; eexists _, ev;
    (split; [ | intros ->; exact (tracker_not_wait _ _ _ _ _ _ _ _ _ Ht)]);
    destruct ev; simpl; try destruct (map_index _ _); reflexivity.
Qed.

(** C9: a call of the tracker that returns, returns KILL, EXIT, CENSUS or
    PASS and never WAIT; the event that the switch of a tracking slot
    receives is therefore never WAIT. *)
Theorem C9_tracker_never_returns_wait (fuel : nat) (phtn : Photon)
  (m : Mesh) (rng : RNG) (ndt xE cE : D) (abs : list D)
  (ev : event_type) (ts : TrackState) :
  transport_photon_particle_pass fuel phtn m rng ndt xE cE abs
  = Some (ev, ts) ->
  ev <> WAIT
  /\ (ev = KILL \/ ev = EXIT \/ ev = CENSUS \/ ev = PASS)
  /\ forall st st' : Driver,
       track_slot env st = Some st' ->
       exists fs ev', trace st' = EvTrack fs ev' :: trace st /\ ev' <> WAIT.
Proof.
  intros Hrun. split.
  { intros ->. exact (tracker_not_wait _ _ _ _ _ _ _ _ _ Hrun). }
  split; [ | apply track_slot_switch].
  destruct ev; auto.
  exfalso. exact (tracker_not_wait _ _ _ _ _ _ _ _ _ Hrun).
Qed.

(** The guard of the upward send, line 464, and what the send does: the
    guard reads the parent, the count, the source and the receive stack,
    and not the state of the send buffer. *)
Lemma upward_send_gate (st : Driver) :
  (upward_send_cond env st = true <->
   parent env <> proc_null /\ tree_count (tree st) <> 0
   /\ n_local env = n_local_sourced (tree st)
   /\ phtn_recv_stack (work st) = [])
  /\ (upward_send_cond env st = true ->
      trace (maybe_upward_send env st)
      = EvIsend P_SEND (parent env) count_tag (Counts [tree_count (tree st)])
        :: EvFill P_SEND (Buffer.status (p_send_buffer (cbufs st)))
        :: trace st
      /\ tree_count (tree (maybe_upward_send env st)) = 0)
  /\ (upward_send_cond env st = false -> maybe_upward_send env st = st).
Proof.
  unfold maybe_upward_send. split; [ | split].
  - unfold upward_send_cond.
    rewrite !andb_true_iff, !negb_true_iff, !Z.eqb_neq, Z.eqb_eq.
    destruct (phtn_recv_stack (work st)); simpl; intuition congruence.
  - intros ->. split; reflexivity.
  - intros ->. reflexivity.
Qed.









End DriverProperties.

(** * The code on concrete inputs *)

Section Scenarios.

Import QWorld.

(** C1 (the code at the failing input): on rank 1 of two ranks, in
    iteration 2 of the work loop, the condition of the upward send holds
    and a count is posted to the parent while the send of iteration 0 is
    still in flight: its request was tested twice, never with success,
    and the buffer is still marked sent. *)
Theorem C1_upward_send_while_in_flight :
  match at_upward_send (resend_env true) 2 with
  | Some st =>
      upward_send_cond (resend_env true) st = true
      /\ Buffer.status (p_send_buffer (cbufs st)) = Buffer.SENT
      /\ in_flight P_SEND (trace st) = true
      /\ history P_SEND st
         = [EvFill P_SEND Buffer.EMPTY;
            EvIsend P_SEND 0 count_tag (Counts [1]);
            EvTest P_SEND false; EvTest P_SEND false]
      /\ trace (maybe_upward_send (resend_env true) st)
         = EvIsend P_SEND 0 count_tag (Counts [1])
           :: EvFill P_SEND Buffer.SENT :: trace st
  | None => False
  end.
Proof. vm_compute. repeat split; reflexivity. Qed.

(** C2 (the code at the failing input): in the same run the parent-count
    send buffer is filled while the message layer holds it; and when the
    request only completes in the [wait] after the loop, the fill after
    the barrier finds the buffer marked sent. *)
Theorem C2_parent_buffer_filled_in_flight :
  match transport_particle_pass (resend_env true) 10 with
  | Some st =>
      mutated_in_flight (trace st) = [P_SEND]
      /\ history P_SEND st
         = [EvFill P_SEND Buffer.EMPTY;
            EvIsend P_SEND 0 count_tag (Counts [1]);
            EvTest P_SEND false; EvTest P_SEND false;
            EvFill P_SEND Buffer.SENT;
            EvIsend P_SEND 0 count_tag (Counts [1]);
            EvTest P_SEND true; EvReset P_SEND Buffer.SENT;
            EvFill P_SEND Buffer.EMPTY;
            EvIsend P_SEND 0 count_tag (Counts [1]);
            EvWait P_SEND]
  | None => False
  end
  /\ match transport_particle_pass (resend_env false) 10 with
     | Some st =>
         history P_SEND st
         = [EvFill P_SEND Buffer.EMPTY;
            EvIsend P_SEND 0 count_tag (Counts [1]);
            EvTest P_SEND false; EvTest P_SEND false;
            EvFill P_SEND Buffer.SENT;
            EvIsend P_SEND 0 count_tag (Counts [1]);
            EvTest P_SEND false; EvWait P_SEND;
            EvFill P_SEND Buffer.SENT;
            EvIsend P_SEND 0 count_tag (Counts [1]);
            EvWait P_SEND]
     | None => False
     end.
Proof. vm_compute. repeat split; reflexivity. Qed.

(** C3 (the code at the failing input): on rank 0 of two ranks, a photon
    send that has not tested complete when the loop is left is waited for
    at shutdown without being counted, and the step ends with three
    sends posted and two completed; in the run of the repeated upward
    send it ends with four posted and three completed. *)
Theorem C3_sends_posted_exceed_completed :
  match transport_particle_pass pass_env 10 with
  | Some st =>
      n_sends_posted (diag st) = 3 /\ n_sends_completed (diag st) = 2
      /\ n_receives_posted (diag st) = 3
      /\ n_receives_completed (diag st) = 3
      /\ history (PHTN_SEND 0) st
         = [EvFill (PHTN_SEND 0) Buffer.EMPTY;
            EvIsend (PHTN_SEND 0) 1 photon_tag
              (Photons [mkPhoton 100 (0, 0, 0)%Q (0, 0, -1)%Q (40 # 41)%Q 1%Q
                                 (19 # 2)%Q false true]);
            EvTest (PHTN_SEND 0) false;
            EvWait (PHTN_SEND 0);
            EvIsend (PHTN_SEND 0) 1 photon_tag (Photons []);
            EvWait (PHTN_SEND 0)]
  | None => False
  end
  /\ match transport_particle_pass (resend_env true) 10 with
     | Some st =>
         n_sends_posted (diag st) = 4 /\ n_sends_completed (diag st) = 3
     | None => False
     end.
Proof. vm_compute. repeat split; reflexivity. Qed.

(** The rationals compare as numbers. *)
Lemma Q_weak_order (l : list Q) : weak_order_on l.
Proof.
  unfold weak_order_on; simpl. repeat split.
  - intros x y _ _. rewrite !negb_involutive.
    apply eq_iff_eq_true.
    rewrite andb_true_iff, Qeq_bool_iff, !Qle_bool_iff. split.
    + intros Heq. rewrite Heq. split; apply Qle_refl.
    + intros [Hyx Hxy]. apply Qle_antisym; assumption.
  - intros x y _ _. rewrite negb_true_iff, negb_false_iff.
    intros Hyx. apply Qle_bool_iff.
    apply Qlt_le_weak, Qnot_le_lt. intros Hle.
    apply Qle_bool_iff in Hle. congruence.
  - intros x y z _ _ _. rewrite !negb_true_iff. intros Hzx.
    destruct (Qle_bool y x) eqn:Hyx; [ | left; reflexivity].
    right. destruct (Qle_bool z y) eqn:Hzy; [ | reflexivity].
    apply Qle_bool_iff in Hyx, Hzy.
    assert (Hle : Qle_bool z x = true)
      by (apply Qle_bool_iff; eapply Qle_trans; eassumption).
    congruence.
Qed.

Lemma C4_witness :
  finished pass_start = false
  /\ work_loop pass_env 10 pass_start = Some pass_loop_exit
  /\ (tree_count (tree pass_loop_exit) = n_global pass_env
      \/ parent_count (tree pass_loop_exit) = n_global pass_env).
Proof.
  assert (H1 : finished pass_start = false) by reflexivity.
  assert (H2 : work_loop pass_env 10 pass_start = Some pass_loop_exit)
    by (vm_compute; reflexivity).
  split; [exact H1 | ]. split; [exact H2 | ].
  exact (proj1 (C4_work_loop_exit pass_env 10 pass_start pass_loop_exit H1 H2)).
Defined.


Lemma C6_witness :
  dlt (get_E (t_phtn (advance dim_start).1))
      (dmul (dlit 1 (-2)) (E_initial (t_phtn (advance dim_start).1))) = true
  /\ t_rank_abs_E dim_start !! 0%nat = Some 0%Q
  /\ exists st', segment (slab_mesh 0) dim_start = (st', Some KILL)
                /\ t_rank_abs_E st' !! 0%nat = Some (1 # 200)%Q
                /\ alive (t_phtn st') = false.
Proof.
  assert (H1 : dlt (get_E (t_phtn (advance dim_start).1))
                   (dmul (dlit 1 (-2))
                         (E_initial (t_phtn (advance dim_start).1))) = true)
    by (vm_compute; reflexivity).
  split; [exact H1 | ]. split; [reflexivity | ].
  destruct (C6_cutoff_kills (slab_mesh 0) dim_start 0 H1)
    as (_ & _ & _ & st' & Hseg & _ & Habs & _ & _ & Hdead & _).
  exists st'. split; [exact Hseg | ]. split; [ | exact Hdead].
  refine (eq_trans Habs _). vm_compute. reflexivity.
Defined.

Lemma C7_witness :
  below_cutoff (t_phtn (advance bright_start).1) cutoff_fraction = false
  /\ weak_order_on [dist_to_scatter (advance bright_start).2;
                    dist_to_boundary (advance bright_start).2;
                    dist_to_census (advance bright_start).2]
  /\ (forall k,
        dlt (dist_of (advance bright_start).2 k)
            (dist_to_event (advance bright_start).2) = false)
  /\ first_equal (advance bright_start).2 BOUNDARY
  /\ (segment (slab_mesh 0) bright_start).2 = Some EXIT.
Proof.
  assert (H1 : below_cutoff (t_phtn (advance bright_start).1) cutoff_fraction
               = false) by (vm_compute; reflexivity).
  assert (H2 : first_equal (advance bright_start).2 BOUNDARY).
  { split; [vm_compute; reflexivity | ].
    intros k' Hk'; destruct k'; vm_compute in Hk'; try discriminate Hk'.
    vm_compute. reflexivity. }
  split; [exact H1 | ]. split; [apply Q_weak_order | ].
  destruct (C7_minimum_distance_dispatch (slab_mesh 0) bright_start H1)
    as (_ & Hdo & _ & Hnum).
  split; [exact (proj1 (Hnum (Q_weak_order _))) | ].
  split; [exact H2 | ].
  destruct (Hdo BOUNDARY H2) as (_ & _ & _ & _ & _ & _ & _ & _ & Hbc).
  exact (proj1 Hbc).
Defined.


Lemma C9_witness :
  exit_call = Some (EXIT, exit_state)
  /\ EXIT <> WAIT.
Proof.
  assert (H1 : exit_call = Some (EXIT, exit_state)) by (vm_compute; reflexivity).
  split; [exact H1 | ].
  exact (proj1 (C9_tracker_never_returns_wait pass_env 5 _ _ _ _ _ _ _ EXIT
                  exit_state H1)).
Defined.

Lemma C10_witness :
  exit_call = Some (EXIT, exit_state)
  /\ t_exit_E exit_state = dadd 0%Q (get_E (t_phtn exit_state))
  /\ t_census_E exit_state = 0%Q
  /\ t_next_dt exit_state = 1%Q.
Proof.
  assert (H1 : exit_call = Some (EXIT, exit_state)) by (vm_compute; reflexivity).
  split; [exact H1 | ].
  exact (C10_accumulator_frame 5 _ _ _ _ _ _ _ EXIT exit_state H1).
Defined.

End Scenarios.

Section NaNScenario.

Import NaNWorld.

(** C7 (the claim as stated fails): with a draw of 1 in a cell without
    opacity the distance to scatter is 0 / 0, a NaN; the segment is not
    cut off, the event distance is the NaN and neither equal to nor
    below any of the three distances, and no branch is taken: the state
    that the move leaves is the state after the segment. *)
Lemma C7_nan_counterexample :
  below_cutoff (t_phtn (advance nan_start).1) cutoff_fraction = false
  /\ dist_to_scatter (advance nan_start).2 = NaN
  /\ dist_to_boundary (advance nan_start).2 = Fin 1
  /\ dist_to_census (advance nan_start).2 = Fin 10
  /\ dist_to_event (advance nan_start).2 = NaN
  /\ ~ (exists k, deq (dist_to_event (advance nan_start).2)
                      (dist_of (advance nan_start).2 k) = true)
  /\ ~ (forall k, dlt (dist_to_event (advance nan_start).2)
                      (dist_of (advance nan_start).2 k) = true
                  \/ deq (dist_to_event (advance nan_start).2)
                         (dist_of (advance nan_start).2 k) = true)
  /\ segment void_mesh nan_start = ((advance nan_start).1, None).
Proof.
  split; [vm_compute; reflexivity | ].
  split; [vm_compute; reflexivity | ].
  split; [vm_compute; reflexivity | ].
  split; [vm_compute; reflexivity | ].
  split; [vm_compute; reflexivity | ].
  split; [intros [k Hk]; destruct k; vm_compute in Hk; discriminate Hk | ].
  split; [intros H; destruct (H SCATTER) as [Hk | Hk];
          vm_compute in Hk; discriminate Hk | ].
  vm_compute. reflexivity.
Qed.

End NaNScenario.

(** * Further properties of the tracker *)

Section TrackerInvariants.

Context {D : Type} {HD : DoubleOps D} {Source : Type}
        {HC : @Collaborators D Source}.

Local Abbreviation Photon := (@Photon D).
Local Abbreviation RNG := (@RNG D).
Local Abbreviation Mesh := (@Mesh D).
Local Abbreviation TrackState := (@TrackState D).

Lemma move_fields (p : Photon) (d : D) :
  cell (move p d) = cell p /\ E_initial (move p d) = E_initial p
  /\ alive (move p d) = alive p /\ census_flag (move p d) = census_flag p
  /\ E (move p d) = E p.
Proof.
  unfold move. destruct (position p) as [[x y] z].
  destruct (direction p) as [[u v] w]. repeat split.
Qed.

Lemma reflect_fields (p : Photon) (sc : Z) :
  cell (reflect p sc) = cell p /\ E_initial (reflect p sc) = E_initial p
  /\ alive (reflect p sc) = alive p
  /\ census_flag (reflect p sc) = census_flag p.
Proof.
  unfold reflect. destruct (direction p) as [[u v] w]. repeat split.
Qed.

Lemma advance_photon (st : TrackState) :
  cell (t_phtn (advance st).1) = cell (t_phtn st)
  /\ E_initial (t_phtn (advance st).1) = E_initial (t_phtn st)
  /\ alive (t_phtn (advance st).1) = alive (t_phtn st)
  /\ census_flag (t_phtn (advance st).1) = census_flag (t_phtn st)
  /\ length (t_rank_abs_E (advance st).1) = length (t_rank_abs_E st).
Proof.
  unfold advance.
  destruct (get_distance_to_boundary _ _ _ _) as [db sc]; simpl.
  match goal with |- context [move ?p ?d] =>
    destruct (move_fields p d) as (Hc & He & Ha & Hf & _) end.
  rewrite Hc, He, Ha, Hf. unfold abs_add. rewrite length_alter.
  repeat split.
Qed.

Lemma segment_face (mesh : Mesh) (st : TrackState) :
  cell_in_sync mesh st ->
  face_of_event mesh (segment mesh st).1 (segment mesh st).2
  /\ ((segment mesh st).2 = None -> cell_in_sync mesh (segment mesh st).1).
Proof.
  intros [Hcell Hsync]. rewrite segment_unfold.
  pose proof (advance_frame st) as (_ & _ & _ & Hid & Hcl).
  pose proof (advance_photon st) as (Hc & _).
  destruct (advance st) as [st1 ds]; simpl in *.
  assert (H1 : cell (t_phtn st1) = t_cell_id st1) by congruence.
  assert (H2 : t_cell st1 = get_on_rank_cell mesh (t_cell_id st1))
    by congruence.
  destruct (below_cutoff (t_phtn st1) cutoff_fraction); simpl.
  { split; [split; assumption | discriminate]. }
  destruct (select_event ds) as [[ | | ] | ]; simpl.
  - unfold apply_scatter. destruct (get_uniform_angle (t_rng st1)); simpl.
    split; [split; assumption | intros _; split; assumption].
  - unfold apply_boundary.
    destruct (get_bc (t_cell st1) (t_surface_cross st1)) eqn:Ebc; simpl;
      unfold face_of_event, cell_in_sync; simpl; rewrite ?Ebc.
    + destruct (reflect_fields (t_phtn st1) (t_surface_cross st1)) as (Hr & _).
      rewrite Hr. auto.
    + split; [auto | discriminate].
    + auto.
    + split; [auto | discriminate].
  - split; [split; assumption | discriminate].
  - split; [split; assumption | intros _; split; assumption].
Qed.

Lemma track_loop_face (mesh : Mesh) (fuel : nat) :
  forall st ev st',
    cell_in_sync mesh st ->
    track_loop fuel mesh st = Some (ev, st') ->
    face_of_event mesh st' (Some ev).
Proof.
  induction fuel as [ | k IH]; intros st ev st' Hs Hrun; [discriminate | ].
  simpl in Hrun.
  pose proof (segment_face mesh st Hs) as [Hface Hcont].
  destruct (segment mesh st) as [st1 [ev1 | ]]; simpl in *.
  - injection Hrun as <- <-. exact Hface.
  - apply (IH st1); auto.
Qed.

(** X1: the tracker hands a photon over (PASS) only at a face tagged
    PROCESSOR, with the photon's cell set to the cell behind that face,
    and lets it leave (EXIT) only at a face tagged VACUUM; with every
    other event the photon's cell is the cell the tracker is in, and
    that cell is always the on-rank cell of its id. *)
Theorem tracker_event_face (fuel : nat) (phtn : Photon) (mesh : Mesh)
  (rng : RNG) (next_dt exit_E census_E : D) (rank_abs_E : list D)
  (ev : event_type) (ts : TrackState) :
  transport_photon_particle_pass fuel phtn mesh rng next_dt exit_E census_E
    rank_abs_E = Some (ev, ts) ->
  t_cell ts = get_on_rank_cell mesh (t_cell_id ts)
  /\ match ev with
     | PASS =>
         get_bc (t_cell ts) (t_surface_cross ts) = PROCESSOR
         /\ cell (t_phtn ts) = get_next_cell (t_cell ts) (t_surface_cross ts)
     | EXIT =>
         get_bc (t_cell ts) (t_surface_cross ts) = VACUUM
         /\ cell (t_phtn ts) = t_cell_id ts
     | _ => cell (t_phtn ts) = t_cell_id ts
     end.
Proof.
  unfold transport_photon_particle_pass. intros Hrun.
  apply track_loop_face in Hrun; [ | split; reflexivity].
  destruct Hrun as [Hc Hev]. split; [exact Hc | ].
  destruct ev; exact Hev.
Qed.

Lemma segment_marks (mesh : Mesh) (st : TrackState) :
  photon_marks (t_phtn st) (t_phtn (segment mesh st).1)
               (dmul c (t_next_dt st)) (segment mesh st).2
  /\ length (t_rank_abs_E (segment mesh st).1) = length (t_rank_abs_E st).
Proof.
  rewrite segment_unfold. unfold photon_marks.
  pose proof (advance_frame st) as (Hn & _).
  pose proof (advance_photon st) as (_ & He & Ha & Hf & Hl).
  destruct (advance st) as [st1 ds]; simpl in *.
  rewrite <- He, <- Ha, <- Hf, <- Hl, <- Hn.
  destruct (below_cutoff (t_phtn st1) cutoff_fraction); simpl.
  { unfold abs_add. rewrite length_alter. repeat split. }
  destruct (select_event ds) as [[ | | ] | ]; simpl.
  - unfold apply_scatter. destruct (get_uniform_angle (t_rng st1)); simpl.
    repeat split.
  - unfold apply_boundary.
    destruct (get_bc (t_cell st1) (t_surface_cross st1)); simpl;
      try (repeat split; fail).
    destruct (reflect_fields (t_phtn st1) (t_surface_cross st1))
      as (_ & H1 & H2 & H3).
    rewrite H1, H2, H3. repeat split.
  - repeat split.
  - repeat split.
Qed.

Lemma track_loop_marks (mesh : Mesh) (fuel : nat) :
  forall st ev st',
    track_loop fuel mesh st = Some (ev, st') ->
    photon_marks (t_phtn st) (t_phtn st') (dmul c (t_next_dt st)) (Some ev)
    /\ length (t_rank_abs_E st') = length (t_rank_abs_E st).
Proof.
  induction fuel as [ | k IH]; intros st ev st' Hrun; [discriminate | ].
  simpl in Hrun.
  pose proof (segment_marks mesh st) as [Hm Hl].
  pose proof (segment_frame_ok mesh st) as [Hn _].
  destruct (segment mesh st) as [st1 [ev1 | ]]; simpl in *.
  - injection Hrun as <- <-. split; assumption.
  - apply IH in Hrun. destruct Hrun as [Hm' Hl'].
    split; [ | congruence].
    unfold photon_marks in *.
    destruct Hm as (H1 & H2 & H3), Hm' as (H1' & H2' & H3').
    rewrite Hn in H3'. rewrite <- H1, <- H2, <- H3.
    repeat split; assumption.
Qed.

(** X2: a call of the tracker never changes the photon's initial energy;
    it clears the alive flag exactly when it returns KILL; it sets the
    census flag, and the remaining distance to [c * next_dt], exactly
    when it returns CENSUS; and it never resizes [rank_abs_E]. *)
Theorem tracker_photon_marks (fuel : nat) (phtn : Photon) (mesh : Mesh)
  (rng : RNG) (next_dt exit_E census_E : D) (rank_abs_E : list D)
  (ev : event_type) (ts : TrackState) :
  transport_photon_particle_pass fuel phtn mesh rng next_dt exit_E census_E
    rank_abs_E = Some (ev, ts) ->
  E_initial (t_phtn ts) = E_initial phtn
  /\ alive (t_phtn ts) = (if event_type_eqb ev KILL then false else alive phtn)
  /\ (if event_type_eqb ev CENSUS
      then census_flag (t_phtn ts) = true
           /\ distance_remaining (t_phtn ts) = dmul c next_dt
      else census_flag (t_phtn ts) = census_flag phtn)
  /\ length (t_rank_abs_E ts) = length rank_abs_E.
Proof.
  unfold transport_photon_particle_pass. intros Hrun.
  apply track_loop_marks in Hrun. destruct Hrun as [(H1 & H2 & H3) Hl].
  simpl in *. destruct ev; simpl; repeat split; tauto.
Qed.

End TrackerInvariants.

(** * Properties of the time stepping *)

Section TimeStepping.

Context {D : Type} {HD : DoubleOps D}.

Lemma get_next_dt_cases (s : IMC_State.t) :
  let grown := dmul (IMC_State.m_dt s) (IMC_State.m_dt_mult s) in
  let left := dsub (IMC_State.m_time_stop s) (IMC_State.m_time s) in
  let next := IMC_State.get_next_dt s in
  (next = left
   \/ (dlt (IMC_State.m_time_stop s) (dadd (IMC_State.m_time s) next) = false
       /\ (next = grown \/ next = IMC_State.m_dt_max s)
       /\ (weak_order_on [grown; IMC_State.m_dt_max s] ->
           dlt grown next = false
           /\ dlt (IMC_State.m_dt_max s) next = false))).
Proof.
  intros grown left next. unfold next, IMC_State.get_next_dt. fold grown.
  set (cand := if dlt grown (IMC_State.m_dt_max s) then grown
               else IMC_State.m_dt_max s).
  destruct (dlt (IMC_State.m_time_stop s) (dadd (IMC_State.m_time s) cand))
    eqn:Eover; [left; reflexivity | right].
  split; [exact Eover | ].
  unfold cand.
  destruct (dlt grown (IMC_State.m_dt_max s)) eqn:Elt.
  - split; [left; reflexivity | ]. intros Hord. split.
    + apply (wo_irrefl _ Hord). repeat constructor.
    + destruct Hord as (_ & Hasym & _). apply Hasym; auto; repeat constructor.
  - split; [right; reflexivity | ]. intros Hord. split.
    + exact Elt.
    + apply (wo_irrefl _ Hord). repeat constructor.
Qed.

(** X3: the step that [get_next_dt] proposes is [m_dt * m_dt_mult],
    [m_dt_max] or the time left; unless it is the time left, adding it to
    the current time does not pass the end time; and when the two
    candidates compare as numbers, the unclipped step is above neither
    of them. *)
Theorem get_next_dt_bounds (s : IMC_State.t) :
  let grown := dmul (IMC_State.m_dt s) (IMC_State.m_dt_mult s) in
  let left := dsub (IMC_State.m_time_stop s) (IMC_State.m_time s) in
  let next := IMC_State.get_next_dt s in
  (next = left
   \/ (dlt (IMC_State.m_time_stop s) (dadd (IMC_State.m_time s) next) = false
       /\ (next = grown \/ next = IMC_State.m_dt_max s)
       /\ (weak_order_on [grown; IMC_State.m_dt_max s] ->
           dlt grown next = false
           /\ dlt (IMC_State.m_dt_max s) next = false))).
Proof. exact (get_next_dt_cases s). Qed.

(** X4: [next_time_step] moves the time by the current step, counts the
    step modulo 2^32, and then sets the step to what [get_next_dt] gives
    at the new time: the smaller of the old step times [m_dt_mult] and
    [m_dt_max], or the time left at the new time when that would pass
    the end time.  The new step is therefore the time left or does not
    pass the end time, and, when the two candidates compare as numbers,
    it is the time left or above neither of them.  Every other member
    is kept. *)
Theorem next_time_step_effect (s : IMC_State.t) :
  let s' := IMC_State.next_time_step s in
  let time' := dadd (IMC_State.m_time s) (IMC_State.m_dt s) in
  let grown := dmul (IMC_State.m_dt s) (IMC_State.m_dt_mult s) in
  let cand := if dlt grown (IMC_State.m_dt_max s) then grown
              else IMC_State.m_dt_max s in
  IMC_State.m_time s' = time'
  /\ IMC_State.m_step s' = incr32 (IMC_State.m_step s)
  /\ IMC_State.m_dt s'
     = (if dlt (IMC_State.m_time_stop s) (dadd time' cand)
        then dsub (IMC_State.m_time_stop s) time' else cand)
  /\ (IMC_State.m_dt s'
      = dsub (IMC_State.m_time_stop s') (IMC_State.m_time s')
      \/ dlt (IMC_State.m_time_stop s')
             (dadd (IMC_State.m_time s') (IMC_State.m_dt s')) = false)
  /\ (weak_order_on [grown; IMC_State.m_dt_max s] ->
      IMC_State.m_dt s' = dsub (IMC_State.m_time_stop s) time'
      \/ (dlt grown (IMC_State.m_dt s') = false
          /\ dlt (IMC_State.m_dt_max s) (IMC_State.m_dt s') = false))
  /\ IMC_State.m_time_stop s' = IMC_State.m_time_stop s
  /\ IMC_State.m_dt_mult s' = IMC_State.m_dt_mult s
  /\ IMC_State.m_dt_max s' = IMC_State.m_dt_max s
  /\ IMC_State.pre_census_E s' = IMC_State.pre_census_E s
  /\ IMC_State.post_census_E s' = IMC_State.post_census_E s
  /\ IMC_State.pre_mat_E s' = IMC_State.pre_mat_E s
  /\ IMC_State.post_mat_E s' = IMC_State.post_mat_E s
  /\ IMC_State.emission_E s' = IMC_State.emission_E s
  /\ IMC_State.exit_E s' = IMC_State.exit_E s
  /\ IMC_State.absorbed_E s' = IMC_State.absorbed_E s
  /\ IMC_State.source_E s' = IMC_State.source_E s
  /\ IMC_State.trans_particles s' = IMC_State.trans_particles s
  /\ IMC_State.census_size s' = IMC_State.census_size s
  /\ IMC_State.rank_transport_runtime s'
     = IMC_State.rank_transport_runtime s
  /\ IMC_State.m_RNG s' = IMC_State.m_RNG s.
Proof.
  intros s' time' grown cand.
  unfold s', IMC_State.next_time_step. simpl.
  match goal with |- context [IMC_State.get_next_dt ?x] =>
    pose proof (get_next_dt_cases x) as Hcases; set (s1 := x) in * end.
  cbv zeta in Hcases.
  assert (Hdt : IMC_State.get_next_dt s1
                = (if dlt (IMC_State.m_time_stop s) (dadd time' cand)
                   then dsub (IMC_State.m_time_stop s) time' else cand))
    by reflexivity.
  split; [reflexivity | ]. split; [reflexivity | ].
  split; [exact Hdt | ].
  split.
  { destruct Hcases as [Hl | (Ho & _)]; [left; exact Hl | right; exact Ho]. }
  split.
  { intros Hord.
    destruct Hcases as [Hl | (_ & _ & Hb)]; [left; exact Hl | right].
    apply Hb. exact Hord. }
  repeat split.
Qed.

End TimeStepping.

(** * Further properties of the driver *)

Section TreeTopology.

Context {D : Type} {HD : DoubleOps D} {Source : Type}
        {HC : @Collaborators D Source}.

Local Abbreviation Env := (@Env D Source).

Variable env : Env.

(** X5: the ranks form a binary tree.  Rank 0 alone has no parent; the
    parent of another rank is a lower rank; the children of a rank are
    [2 * rank + 1] and [2 * rank + 2] where these are ranks of the run;
    and the parent of a child of this rank is this rank.  The bound on
    [n_rank] keeps [rank * 2 + 2] within an [int]. *)
Theorem tree_topology (env' : Env) :
  0 <= rank env < n_rank env ->
  n_rank env < 2 ^ 30 ->
  proc_null < 0 ->
  (parent env = proc_null <-> rank env = 0)
  /\ (rank env <> 0 -> 0 <= parent env < rank env)
  /\ (child1 env <> proc_null <-> 2 * rank env + 1 < n_rank env)
  /\ (child1 env <> proc_null -> child1 env = 2 * rank env + 1)
  /\ (child2 env <> proc_null <-> 2 * rank env + 2 < n_rank env)
  /\ (child2 env <> proc_null -> child2 env = 2 * rank env + 2)
  /\ (child1 env <> proc_null -> rank env' = child1 env -> parent env' = rank env)
  /\ (child2 env <> proc_null -> rank env' = child2 env -> parent env' = rank env)
  /\ (n_rank env' = n_rank env -> rank env <> 0 -> rank env' = parent env ->
      child1 env' = rank env \/ child2 env' = rank env).
Proof.
  intros Hr Hn Hnull.
  unfold parent, child1, child2, last_node.
  repeat split; intros;
    repeat match goal with
           | H : context [if ?b then _ else _] |- _ => destruct b eqn:?
           | |- context [if ?b then _ else _] => destruct b eqn:?
           end;
    rewrite ?Z.eqb_eq, ?Z.eqb_neq, ?Z.gtb_lt, ?Z.gtb_ltb, ?Z.ltb_lt, ?Z.ltb_ge in *;
    try (Z.quot_rem_to_equations; lia).
Qed.

End TreeTopology.

Section ReceiveBalance.

Context {D : Type} {HD : DoubleOps D} {Source : Type}
        {HC : @Collaborators D Source}.

Local Abbreviation Photon := (@Photon D).
Local Abbreviation Env := (@Env D Source).
Local Abbreviation Driver := (@Driver D Source).

Variable env : Env.

Ltac case_ifs :=
  repeat match goal with
         | |- context [if ?b then _ else _] => destruct b eqn:?
         end.

Ltac mod32 :=
  unfold eq32, canonical32, incr32, add32, wrap32, b2z in *;
  change (2 ^ 32) with 4294967296 in *;
  Z.div_mod_to_equations; lia.

Ltac mod32_atoms :=
  unfold eq32, canonical32, incr32, add32, wrap32 in *;
  change (2 ^ 32) with 4294967296 in *;
  repeat match goal with
         | H : context [b2z ?x] |- _ =>
             let v := fresh "v" in set (v := b2z x) in *; clearbody v
         | |- context [b2z ?x] =>
             let v := fresh "v" in set (v := b2z x) in *; clearbody v
         | H : context [Z.of_nat ?x] |- _ =>
             let v := fresh "n" in set (v := Z.of_nat x) in *; clearbody v
         end;
  Z.div_mod_to_equations; lia.

Lemma eq32_add (a b k : Z) : eq32 a b -> eq32 (a + k) (b + k).
Proof.
  unfold eq32, wrap32. intros H.
  rewrite (Z.add_mod a), (Z.add_mod b), H by lia. reflexivity.
Qed.

Lemma eq32_canonical (a b : Z) : canonical32 a -> eq32 a b -> a = wrap32 b.
Proof.
  unfold eq32, canonical32, wrap32. intros Ha <-.
  symmetry. apply Z.mod_small. exact Ha.
Qed.

Lemma recv_invariant_view (st st' : Driver) :
  recv_view st' = recv_view st ->
  recv_invariant env st -> recv_invariant env st'.
Proof.
  unfold recv_view, recv_invariant. intros [= -> -> -> -> -> -> ->]. tauto.
Qed.

Lemma handle_event_recv_view (ev : event_type) (p : Photon) (st : Driver) :
  recv_view (handle_event env ev p st) = recv_view st.
Proof.
  destruct ev; simpl; try reflexivity.
  destruct (map_index _ _); reflexivity.
Qed.

Lemma track_slot_recv_view (st st' : Driver) :
  track_slot env st = Some st' -> recv_view st' = recv_view st.
Proof.
  unfold track_slot, take_photon.
  destruct (phtn_recv_stack (work st)) as [ | p rest];
    [destruct (get_photon _ _ _) as [[p src] rng]; simpl | ];
    (destruct (transport_photon_particle_pass _ _ _ _ _ _ _ _)
       as [[ev ts] | ]; [ | discriminate]);
    intros [= <-]; unfold recv_view; simpl;
    pose proof (handle_event_recv_view ev (t_phtn ts)) as Hh;
    unfold recv_view in Hh; rewrite Hh; reflexivity.
Qed.

Lemma track_batch_recv_view (n : nat) :
  forall st st', track_batch env n st = Some st' -> recv_view st' = recv_view st.
Proof.
  induction n as [ | n IH]; intros st st'; simpl.
  - intros [= <-]; reflexivity.
  - destruct (has_work env st); [ | intros [= <-]; reflexivity].
    destruct (track_slot env st) as [st1 | ] eqn:E; [ | discriminate].
    intros Hb. rewrite (IH _ _ Hb). eapply track_slot_recv_view; eassumption.
Qed.

Lemma process_send_buffer_recv_view (i_b : Z) (st : Driver) :
  recv_view (process_send_buffer env i_b st) = recv_view st.
Proof. unfold process_send_buffer, test. case_ifs; reflexivity. Qed.

Lemma maybe_post_photon_send_recv_view (adj_rank i_b : Z) (st : Driver) :
  recv_view (maybe_post_photon_send env adj_rank i_b st) = recv_view st.
Proof. unfold maybe_post_photon_send. case_ifs; reflexivity. Qed.

Lemma process_parent_send_recv_view (st : Driver) :
  recv_view (process_parent_send env st) = recv_view st.
Proof. unfold process_parent_send, test. case_ifs; reflexivity. Qed.

Lemma maybe_upward_send_recv_view (st : Driver) :
  recv_view (maybe_upward_send env st) = recv_view st.
Proof. unfold maybe_upward_send. case_ifs; reflexivity. Qed.

Lemma alter_alter {A : Type} (f g : A -> A) (i : nat) (l : list A) :
  alter f i (alter g i l) = alter (fun x => f (g x)) i l.
Proof.
  revert i. induction l as [ | x l IH]; intros [ | i]; simpl;
    try reflexivity.
  f_equal. apply IH.
Qed.

Lemma awaiting_lookup (i_b : Z) (st : Driver) :
  Buffer.awaiting (recv_buffer_at i_b st) = true ->
  exists b, phtn_recv_buffer (chans st) !! Z.to_nat i_b = Some b.
Proof.
  unfold recv_buffer_at.
  destruct (phtn_recv_buffer (chans st) !! Z.to_nat i_b) as [b | ]; simpl;
    [eauto | discriminate].
Qed.

Lemma process_recv_buffer_invariant (adj_rank i_b : Z) (st : Driver) :
  recv_invariant env st ->
  recv_invariant env (process_recv_buffer env adj_rank i_b st).
Proof.
  intros Hinv. unfold process_recv_buffer, test.
  destruct (Buffer.awaiting (recv_buffer_at i_b st)) eqn:Haw; [ | exact Hinv].
  destruct (test_done env (iter st) (PHTN_RECV i_b));
    [ | revert Hinv; apply recv_invariant_view; reflexivity].
  destruct Hinv as (Hp & Hc & Heq & Hlen & Hall & H1 & H2 & H3).
  unfold recv_invariant; simpl. rewrite !length_alter.
  repeat split; try assumption; try mod32.
  rewrite !alter_alter.
  apply Forall_alter; [assumption | reflexivity].
Qed.

Lemma progress_channels_recv_invariant (l : list (Z * Z)) :
  forall st : Driver,
    recv_invariant env st ->
    recv_invariant env (fold_left (progress_neighbor env) l st).
Proof.
  induction l as [ | [adj_rank i_b] l IH]; intros st Hinv; simpl; [exact Hinv | ].
  apply IH. unfold progress_neighbor.
  apply process_recv_buffer_invariant.
  revert Hinv. apply recv_invariant_view.
  rewrite maybe_post_photon_send_recv_view. apply process_send_buffer_recv_view.
Qed.

Lemma process_child1_recv_invariant (st : Driver) :
  recv_invariant env st ->
  recv_invariant env
    (process_child_recv env C1_RECV (child1 env) set_c1_count st).
Proof.
  intros Hinv. unfold process_child_recv, test.
  destruct (Buffer.awaiting (get_cbuf C1_RECV (cbufs st))) eqn:Haw;
    [ | exact Hinv].
  destruct (test_done env (iter st) C1_RECV);
    [ | revert Hinv; apply recv_invariant_view; reflexivity].
  destruct Hinv as (Hp & Hc & Heq & Hlen & Hall & H1 & H2 & H3).
  simpl in Haw. rewrite Haw in *.
  unfold recv_invariant; simpl.
  repeat split; try assumption; try mod32; apply H3; assumption.
Qed.

Lemma process_child2_recv_invariant (st : Driver) :
  recv_invariant env st ->
  recv_invariant env
    (process_child_recv env C2_RECV (child2 env) set_c2_count st).
Proof.
  intros Hinv. unfold process_child_recv, test.
  destruct (Buffer.awaiting (get_cbuf C2_RECV (cbufs st))) eqn:Haw;
    [ | exact Hinv].
  destruct (test_done env (iter st) C2_RECV);
    [ | revert Hinv; apply recv_invariant_view; reflexivity].
  destruct Hinv as (Hp & Hc & Heq & Hlen & Hall & H1 & H2 & H3).
  simpl in Haw. rewrite Haw in *.
  unfold recv_invariant; simpl.
  repeat split; try assumption; try mod32; apply H3; assumption.
Qed.

Lemma process_parent_recv_invariant (st : Driver) :
  recv_invariant env st ->
  recv_invariant env (process_parent_recv env st).
Proof.
  intros Hinv. unfold process_parent_recv, test.
  destruct (Buffer.awaiting (p_recv_buffer (cbufs st))) eqn:Haw;
    [ | exact Hinv].
  destruct (test_done env (iter st) P_RECV);
    [ | revert Hinv; apply recv_invariant_view; reflexivity].
  destruct Hinv as (Hp & Hc & Heq & Hlen & Hall & H1 & H2 & H3).
  rewrite Haw in *.
  unfold recv_invariant; simpl.
  repeat split; try assumption; try mod32; discriminate.
Qed.

Lemma tree_before_send_recv_invariant (st : Driver) :
  recv_invariant env st -> recv_invariant env (tree_before_send env st).
Proof.
  intros Hinv. unfold tree_before_send.
  apply (recv_invariant_view
           (process_parent_recv env
              (process_child_recv env C2_RECV (child2 env) set_c2_count
                 (process_child_recv env C1_RECV (child1 env) set_c1_count st)))).
  - unfold roll_up, recv_view; simpl.
    pose proof (process_parent_send_recv_view
                  (process_parent_recv env
                     (process_child_recv env C2_RECV (child2 env) set_c2_count
                        (process_child_recv env C1_RECV (child1 env)
                           set_c1_count st)))) as Hv.
    unfold recv_view in Hv. exact Hv.
  - apply process_parent_recv_invariant, process_child2_recv_invariant,
      process_child1_recv_invariant, Hinv.
Qed.

Lemma exit_test_recv_view (st : Driver) :
  recv_view (next_iter (exit_test env st)) = recv_view st.
Proof. unfold exit_test. case_ifs; reflexivity. Qed.

Lemma work_iteration_recv_invariant (st st' : Driver) :
  work_iteration env st = Some st' ->
  recv_invariant env st -> recv_invariant env st'.
Proof.
  unfold work_iteration.
  destruct (track_batch env _ st) as [st1 | ] eqn:Eb; [ | discriminate].
  intros [= <-] Hinv.
  apply track_batch_recv_view in Eb.
  assert (H1 : recv_invariant env st1)
    by (revert Hinv; apply recv_invariant_view; exact Eb).
  apply (progress_channels_recv_invariant (adjacent_procs (chans st1))) in H1.
  apply tree_before_send_recv_invariant in H1.
  revert H1. apply recv_invariant_view.
  unfold progress_tree.
  rewrite exit_test_recv_view. apply maybe_upward_send_recv_view.
Qed.

Lemma work_loop_recv_invariant (fuel : nat) :
  forall st st',
    work_loop env fuel st = Some st' ->
    recv_invariant env st -> recv_invariant env st'.
Proof.
  induction fuel as [ | fuel IH]; intros st st' Hrun Hinv; simpl in Hrun;
    destruct (finished st); try discriminate;
    try (injection Hrun as <-; exact Hinv).
  destruct (work_iteration env st) as [st1 | ] eqn:Ei; [ | discriminate].
  apply (IH st1); [exact Hrun | ].
  eapply work_iteration_recv_invariant; eassumption.
Qed.

Lemma await_all_lookup (l : list (Z * Z)) :
  forall (bufs : list (Buffer.t Photon)) (i : nat) (b' : Buffer.t Photon),
    await_all l bufs !! i = Some b' ->
    exists b, bufs !! i = Some b
      /\ (Buffer.awaiting b = true -> Buffer.awaiting b' = true)
      /\ ((exists e, e ∈ l /\ Z.to_nat e.2 = i) -> Buffer.awaiting b' = true).
Proof.
  induction l as [ | e l IH]; intros bufs i b' Hl; simpl in Hl.
  - exists b'. split; [exact Hl | ]. split; [tauto | ].
    intros (e & He & _). inversion He.
  - apply IH in Hl. destruct Hl as (b1 & Hb1 & Hmono & Hin).
    rewrite list_lookup_alter in Hb1.
    destruct (decide (Z.to_nat e.2 = i)) as [Heq | Hne].
    + subst i.
      destruct (bufs !! Z.to_nat e.2) as [b | ] eqn:Hb; simpl in Hb1;
        [ | discriminate].
      injection Hb1 as <-. exists b. split; [reflexivity | ].
      split; [intros _; apply Hmono; reflexivity | ].
      intros _. apply Hmono. reflexivity.
    + exists b1. split; [exact Hb1 | ]. split; [exact Hmono | ].
      intros (e' & He' & Hi). apply elem_of_cons in He'.
      destruct He' as [-> | He']; [contradiction | ].
      apply Hin. eauto.
Qed.

Lemma await_all_length (l : list (Z * Z)) :
  forall bufs : list (Buffer.t Photon),
    length (await_all l bufs) = length bufs.
Proof.
  unfold await_all.
  induction l as [ | e l IH]; intros bufs; simpl; [reflexivity | ].
  rewrite IH. apply length_alter.
Qed.

Lemma setup_neighbors_effect (l : list (Z * Z)) :
  forall st : Driver,
    let st' := fold_left setup_neighbor l st in
    canonical32 (n_receives_posted (diag st)) ->
    canonical32 (n_receives_posted (diag st'))
    /\ eq32 (n_receives_posted (diag st'))
            (n_receives_posted (diag st) + Z.of_nat (length l))
    /\ n_receives_completed (diag st') = n_receives_completed (diag st)
    /\ n_sends_posted (diag st') = n_sends_posted (diag st)
    /\ n_sends_completed (diag st') = n_sends_completed (diag st)
    /\ n_photon_messages (diag st') = n_photon_messages (diag st)
    /\ n_photons_sent (diag st') = n_photons_sent (diag st)
    /\ cbufs st' = cbufs st /\ tree st' = tree st /\ work st' = work st
    /\ finished st' = finished st /\ True
    /\ adjacent_procs (chans st') = adjacent_procs (chans st)
    /\ phtn_send_buffer (chans st') = phtn_send_buffer (chans st)
    /\ send_list (chans st') = send_list (chans st) ++ replicate (length l) []
    /\ phtn_recv_buffer (chans st')
       = await_all l (phtn_recv_buffer (chans st)).
Proof.
  induction l as [ | [adj_rank i_b] l IH]; intros st st' Hc.
  - unfold st'; simpl. rewrite app_nil_r.
    repeat split; try assumption; try reflexivity; mod32.
  - unfold st'.
    change (fold_left setup_neighbor ((adj_rank, i_b) :: l) st)
      with (fold_left setup_neighbor l (setup_neighbor st (adj_rank, i_b))).
    set (st1 := setup_neighbor st (adj_rank, i_b)).
    assert (Hc1 : canonical32 (n_receives_posted (diag st1)))
      by (unfold st1; simpl; mod32).
    destruct (IH st1 Hc1)
      as (H1 & H2 & H3 & H4 & H5 & H6 & H7 & H8 & H9 & H10 & H11 & _ & H13
          & H14 & H15 & H16).
    rewrite H3, H4, H5, H6, H7, H8, H9, H10, H11, H13, H14, H15, H16.
    assert (Hp : n_receives_posted (diag st1)
                 = incr32 (n_receives_posted (diag st))) by reflexivity.
    rewrite Hp in H2. clear Hp Hc1.
    simpl length; simpl replicate. rewrite Nat2Z.inj_succ.
    split; [exact H1 | ]. split; [mod32 | ].
    unfold st1; simpl.
    repeat split; try reflexivity.
    rewrite <- app_assoc. reflexivity.
Qed.

Lemma await_all_object (l : list (Z * Z)) :
  forall bufs : list (Buffer.t Photon),
    Forall (fun b => Buffer.object b = []) bufs ->
    Forall (fun b => Buffer.object b = []) (await_all l bufs).
Proof.
  induction l as [ | e l IH]; intros bufs Hall; simpl; [exact Hall | ].
  apply IH. apply Forall_alter; [exact Hall | ]. intros x _ Hx. exact Hx.
Qed.

Lemma awaiting_empty_buffer (b : Buffer.t Photon) :
  Buffer.awaiting b = true -> Buffer.object b = [] ->
  b = Buffer.mk Buffer.AWAITING [].
Proof.
  destruct b as [s o]. unfold Buffer.awaiting; simpl.
  destruct s; try discriminate. intros _ ->. reflexivity.
Qed.

Lemma setup_effect :
  let m := get_proc_adjacency_list (mesh env) in
  let st := setup env (init_driver env) in
  n_receives_posted (diag st)
  = wrap32 (b2z (negb (child1 env =? proc_null))
            + b2z (negb (child2 env =? proc_null))
            + b2z (negb (parent env =? proc_null))
            + Z.of_nat (length m))
  /\ n_receives_completed (diag st) = 0
  /\ n_sends_posted (diag st) = 0 /\ n_sends_completed (diag st) = 0
  /\ n_photon_messages (diag st) = 0 /\ n_photons_sent (diag st) = 0
  /\ send_list (chans st) = replicate (length m) []
  /\ adjacent_procs (chans st) = m
  /\ phtn_send_buffer (chans st)
     = replicate (Z.to_nat (n_adjacent env)) Buffer.new
  /\ length (phtn_recv_buffer (chans st)) = Z.to_nat (n_adjacent env)
  /\ (forall k v, (k, v) ∈ m ->
        (Z.to_nat v < Z.to_nat (n_adjacent env))%nat ->
        recv_buffer_at v st = Buffer.mk Buffer.AWAITING [])
  /\ Buffer.awaiting (c1_recv_buffer (cbufs st))
     = negb (child1 env =? proc_null)
  /\ Buffer.awaiting (c2_recv_buffer (cbufs st))
     = negb (child2 env =? proc_null)
  /\ Buffer.awaiting (p_recv_buffer (cbufs st))
     = negb (parent env =? proc_null)
  /\ tree st = mkTree 0 0 0 0 0 0
  /\ finished st = false.
Proof.
  intros m st. unfold st, setup.
  set (st0 := post_tree_recvs env (init_driver env)).
  assert (H0 : n_receives_posted (diag st0)
               = b2z (negb (child1 env =? proc_null))
                 + b2z (negb (child2 env =? proc_null))
                 + b2z (negb (parent env =? proc_null))
          /\ n_receives_completed (diag st0) = 0
          /\ n_sends_posted (diag st0) = 0 /\ n_sends_completed (diag st0) = 0
          /\ n_photon_messages (diag st0) = 0 /\ n_photons_sent (diag st0) = 0
          /\ chans st0 = chans (init_driver env)
          /\ Buffer.awaiting (c1_recv_buffer (cbufs st0))
             = negb (child1 env =? proc_null)
          /\ Buffer.awaiting (c2_recv_buffer (cbufs st0))
             = negb (child2 env =? proc_null)
          /\ Buffer.awaiting (p_recv_buffer (cbufs st0))
             = negb (parent env =? proc_null)
          /\ tree st0 = mkTree 0 0 0 0 0 0 /\ finished st0 = false).
  { unfold st0, post_tree_recvs.
    destruct (child1 env =? proc_null), (child2 env =? proc_null),
      (parent env =? proc_null); simpl; repeat split. }
  destruct H0 as (Hp & Hc & Hs1 & Hs2 & Hs3 & Hs4 & Hch & Ha1 & Ha2 & Ha3
                  & Ht & Hf).
  assert (Hcan : canonical32 (n_receives_posted (diag st0))).
  { rewrite Hp. destruct (child1 env =? proc_null), (child2 env =? proc_null),
      (parent env =? proc_null); simpl; unfold canonical32; lia. }
  assert (Hm : adjacent_procs (chans st0) = m) by (rewrite Hch; reflexivity).
  pose proof (setup_neighbors_effect (adjacent_procs (chans st0)) st0 Hcan)
    as He.
  rewrite Hm in *. cbv zeta in He.
  destruct He as (H1 & H2 & H3 & H4 & H5 & H6 & H7 & H8 & H9 & _ & H11 & _
                  & H13 & H14 & H15 & H16).
  rewrite H3, H4, H5, H6, H7, H8, H9, H11, H13, H14, H15, H16, Hch.
  simpl send_list. simpl phtn_send_buffer. simpl phtn_recv_buffer.
  split; [rewrite Hp in H2; mod32 | ].
  repeat split; try assumption; try reflexivity.
  - rewrite await_all_length. apply length_replicate.
  - intros k v Hin Hlt. unfold recv_buffer_at.
    rewrite H16, Hch. simpl phtn_recv_buffer.
    destruct (await_all m (replicate (Z.to_nat (n_adjacent env)) Buffer.new)
                !! Z.to_nat v) as [b | ] eqn:Hb.
    + simpl. apply awaiting_empty_buffer.
      * destruct (await_all_lookup _ _ _ _ Hb) as (b0 & _ & _ & Haw).
        apply Haw. exists (k, v). split; [exact Hin | reflexivity].
      * pose proof (await_all_object m _
                      (Forall_replicate
                         (fun b : Buffer.t Photon => Buffer.object b = [])
                         (Z.to_nat (n_adjacent env)) Buffer.new eq_refl))
          as Hobj.
        exact (Forall_lookup_1 _ _ _ _ Hobj Hb).
    + apply lookup_ge_None in Hb.
      rewrite await_all_length, length_replicate in Hb. lia.
Qed.

(** X6: the setup posts one receive for each child that exists, one for
    the parent if there is one and one for each neighbor, and nothing
    else: no receive is completed and no send is posted; the staging
    lists are one empty list per neighbor; the buffer of every neighbor
    and of every existing child and parent awaits; the completion
    counters are zero and the loop is not finished. *)
Theorem setup_posts_receives :
  let m := get_proc_adjacency_list (mesh env) in
  let st := setup env (init_driver env) in
  n_receives_posted (diag st)
  = wrap32 (b2z (negb (child1 env =? proc_null))
            + b2z (negb (child2 env =? proc_null))
            + b2z (negb (parent env =? proc_null))
            + Z.of_nat (length m))
  /\ n_receives_completed (diag st) = 0
  /\ n_sends_posted (diag st) = 0 /\ n_sends_completed (diag st) = 0
  /\ n_photon_messages (diag st) = 0 /\ n_photons_sent (diag st) = 0
  /\ send_list (chans st) = replicate (length m) []
  /\ adjacent_procs (chans st) = m
  /\ phtn_send_buffer (chans st)
     = replicate (Z.to_nat (n_adjacent env)) Buffer.new
  /\ length (phtn_recv_buffer (chans st)) = Z.to_nat (n_adjacent env)
  /\ (forall k v, (k, v) ∈ m ->
        (Z.to_nat v < Z.to_nat (n_adjacent env))%nat ->
        recv_buffer_at v st = Buffer.mk Buffer.AWAITING [])
  /\ Buffer.awaiting (c1_recv_buffer (cbufs st))
     = negb (child1 env =? proc_null)
  /\ Buffer.awaiting (c2_recv_buffer (cbufs st))
     = negb (child2 env =? proc_null)
  /\ Buffer.awaiting (p_recv_buffer (cbufs st))
     = negb (parent env =? proc_null)
  /\ tree st = mkTree 0 0 0 0 0 0
  /\ finished st = false.
Proof. exact setup_effect. Qed.

Lemma n_adjacent_length :
  Z.of_nat (length (get_proc_adjacency_list (mesh env))) < 2 ^ 32 ->
  Z.to_nat (n_adjacent env) = length (get_proc_adjacency_list (mesh env)).
Proof.
  intros Hlt. unfold n_adjacent, wrap32.
  rewrite Z.mod_small by lia. apply Nat2Z.id.
Qed.

Lemma setup_recv_invariant :
  neighbors_indexed env -> recv_invariant env (setup env (init_driver env)).
Proof.
  intros [Hlt Honto].
  pose proof setup_effect as Hs. cbv zeta in Hs.
  destruct Hs as (Hp & Hc & _ & _ & _ & _ & _ & _ & _ & Hlen & Hbuf & Ha1
                  & Ha2 & Ha3 & Ht & _).
  pose proof (n_adjacent_length Hlt) as Hn.
  unfold recv_invariant. rewrite Hp, Hc, Ha1, Ha2, Ha3, Hlen, Hn, Ht.
  repeat split; try reflexivity;
    try (intros Hpn; apply negb_true_iff, Z.eqb_neq in Hpn; exact Hpn);
    try mod32.
  apply Forall_lookup_2. intros i b Hb.
    assert (Hi : (i < length (get_proc_adjacency_list (mesh env)))%nat).
    { apply lookup_lt_Some in Hb. rewrite Hlen, Hn in Hb. exact Hb. }
    destruct (Honto i Hi) as (k & v & Hin & Hv).
    assert (Hr : recv_buffer_at v (setup env (init_driver env))
                 = Buffer.mk Buffer.AWAITING [])
      by (apply (Hbuf k v Hin); lia).
    unfold recv_buffer_at in Hr. rewrite Hv, Hb in Hr. simpl in Hr.
    rewrite Hr. reflexivity.
Qed.

(** What the shutdown does to the receive counters. *)
Lemma wait_photon_recvs_counts (k : nat) :
  forall (i_b : Z) (st : Driver),
    canonical32 (n_receives_completed (diag st)) ->
    let st' := wait_photon_recvs k i_b st in
    n_receives_posted (diag st') = n_receives_posted (diag st)
    /\ canonical32 (n_receives_completed (diag st'))
    /\ eq32 (n_receives_completed (diag st'))
            (n_receives_completed (diag st) + Z.of_nat k).
Proof.
  induction k as [ | k IH]; intros i_b st Hc st'.
  - unfold st'; simpl. repeat split; try apply Hc. mod32.
  - unfold st'. simpl wait_photon_recvs.
    set (st1 := with_diag incr_receives_completed (wait (PHTN_RECV i_b) st)).
    assert (Hc1 : canonical32 (n_receives_completed (diag st1)))
      by (unfold st1; simpl; mod32).
    destruct (IH (i_b + 1) st1 Hc1) as (H1 & H2 & H3).
    rewrite H1. split; [reflexivity | ]. split; [exact H2 | ].
    assert (Hs : n_receives_completed (diag st1)
                 = incr32 (n_receives_completed (diag st))) by reflexivity.
    rewrite Hs in H3. rewrite Nat2Z.inj_succ. clear Hs Hc1. mod32.
Qed.

Lemma send_down_recv_counts (b : buf_id) (child : Z) (st : Driver) :
  recv_counts (send_down env b child st) = recv_counts st.
Proof. unfold send_down, fill_count, wait. case_ifs; reflexivity. Qed.

Lemma finish_neighbors_recv_counts (l : list (Z * Z)) :
  forall st : Driver,
    recv_counts (fold_left finish_neighbor l st) = recv_counts st.
Proof.
  induction l as [ | [adj_rank i_b] l IH]; intros st; simpl; [reflexivity | ].
  rewrite IH. unfold wait. case_ifs; reflexivity.
Qed.

Lemma shutdown_recv_counts (st : Driver) :
  canonical32 (n_receives_completed (diag st)) ->
  n_receives_posted (diag (shutdown env st)) = n_receives_posted (diag st)
  /\ canonical32 (n_receives_completed (diag (shutdown env st)))
  /\ eq32 (n_receives_completed (diag (shutdown env st)))
          (n_receives_completed (diag st)
           + b2z (negb (child1 env =? proc_null))
           + b2z (negb (child2 env =? proc_null))
           + Z.of_nat (Z.to_nat (n_adjacent env))).
Proof.
  intros Hc. unfold shutdown. cbv zeta.
  set (s1 := wait_parent_send
               (send_down env C2_SEND (child2 env)
                  (send_down env C1_SEND (child1 env) st))).
  assert (H1 : recv_counts s1 = recv_counts st).
  { unfold s1. transitivity
      (recv_counts (send_down env C2_SEND (child2 env)
                      (send_down env C1_SEND (child1 env) st))).
    - unfold wait_parent_send, wait. case_ifs; reflexivity.
    - rewrite !send_down_recv_counts. reflexivity. }
  set (s2 := wait_child_recv C2_RECV (child2 env)
               (wait_child_recv C1_RECV (child1 env)
                  (finish_parent env (log EvBarrier s1)))).
  assert (H2 : n_receives_posted (diag s2) = n_receives_posted (diag st)
               /\ n_receives_completed (diag s2)
                  = (if negb (child2 env =? proc_null) then incr32 else id)
                      ((if negb (child1 env =? proc_null) then incr32 else id)
                         (n_receives_completed (diag st)))).
  { injection H1 as Hp1 Hc1. rewrite <- Hp1, <- Hc1.
    unfold s2, wait_child_recv, finish_parent, fill_count, wait.
    case_ifs; split; reflexivity. }
  destruct H2 as [Hp2 Hc2].
  set (s3 := fold_left finish_neighbor (adjacent_procs (chans s2)) s2).
  assert (H3 : recv_counts s3 = recv_counts s2)
    by apply finish_neighbors_recv_counts.
  injection H3 as Hp3 Hc3.
  assert (Hcan3 : canonical32 (n_receives_completed (diag s3))).
  { rewrite Hc3, Hc2.
    destruct (negb (child1 env =? proc_null)),
      (negb (child2 env =? proc_null)); unfold id; mod32. }
  destruct (wait_photon_recvs_counts (Z.to_nat (n_adjacent env)) 0 s3 Hcan3)
    as (Hp4 & Hcan4 & Hc4).
  simpl. rewrite Hp4, Hp3, Hp2. split; [reflexivity | ].
  split; [exact Hcan4 | ].
  rewrite Hc3, Hc2 in Hc4.
  destruct (negb (child1 env =? proc_null)),
    (negb (child2 env =? proc_null)); unfold id in Hc4; mod32.
Qed.

(** X7: the receives of a step balance up to the parent's count.  When
    the adjacency map names every buffer index, the step ends with
    [n_receives_posted] equal to [n_receives_completed], plus one if the
    receive from the parent still awaits when the work loop is left;
    they are equal on a rank without parent and on a rank that leaves
    the loop on a nonzero count of its parent. *)
Theorem receives_balance (fuel : nat) (st : Driver) :
  neighbors_indexed env ->
  work_loop env fuel (setup env (init_driver env)) = Some st ->
  n_receives_posted (diag (shutdown env st))
  = wrap32 (n_receives_completed (diag (shutdown env st))
            + b2z (Buffer.awaiting (p_recv_buffer (cbufs st))))
  /\ (parent env = proc_null
      \/ (parent_count (tree st) = n_global env /\ n_global env <> 0) ->
      n_receives_posted (diag (shutdown env st))
      = n_receives_completed (diag (shutdown env st))).
Proof.
  intros Hidx Hrun.
  pose proof (work_loop_recv_invariant fuel _ _ Hrun
                (setup_recv_invariant Hidx))
    as (Hp & Hc & Heq & Hlen & _ & H1 & H2 & H3).
  destruct (shutdown_recv_counts st Hc) as (Hp' & Hc' & Heq').
  rewrite H1, H2, Hlen in Heq.
  assert (Hmain : n_receives_posted (diag (shutdown env st))
    = wrap32 (n_receives_completed (diag (shutdown env st))
              + b2z (Buffer.awaiting (p_recv_buffer (cbufs st))))).
  { rewrite Hp'. apply (eq32_canonical _ _ Hp).
    apply (eq32_add _ _ (b2z (Buffer.awaiting (p_recv_buffer (cbufs st)))))
      in Heq'.
    unfold eq32 in *. rewrite Heq', Heq. f_equal. lia. }
  split; [exact Hmain | ].
  intros Hcase. rewrite Hmain.
  destruct (Buffer.awaiting (p_recv_buffer (cbufs st))) eqn:Haw.
  - destruct (H3 eq_refl) as [Hpar Hpc].
    destruct Hcase as [Hn | [Hn1 Hn2]]; congruence.
  - simpl. rewrite Z.add_0_r. symmetry.
    apply eq32_canonical; [exact Hc' | reflexivity].
Qed.

End ReceiveBalance.

Section SendBalance.

Context {D : Type} {HD : DoubleOps D} {Source : Type}
        {HC : @Collaborators D Source}.

Local Abbreviation Photon := (@Photon D).
Local Abbreviation event := (@event D).
Local Abbreviation Env := (@Env D Source).
Local Abbreviation Driver := (@Driver D Source).

Variable env : Env.

Ltac case_ifs :=
  repeat match goal with
         | |- context [if ?b then _ else _] => destruct b eqn:?
         end.

Ltac mod32 :=
  unfold eq32, canonical32, incr32, add32, wrap32, b2z in *;
  change (2 ^ 32) with 4294967296 in *;
  Z.div_mod_to_equations; lia.

Ltac close_send H3 :=
  repeat match goal with |- _ /\ _ => split end;
  try assumption;
  try (let Hn := fresh in
       intros Hn; destruct (H3 Hn); split;
       first [reflexivity | assumption | congruence]);
  try mod32.

Lemma send_invariant_view (st st' : Driver) :
  send_view st' = send_view st ->
  send_invariant env st -> send_invariant env st'.
Proof.
  unfold send_view, send_invariant. intros [= -> -> -> -> -> -> -> ->]. tauto.
Qed.

Lemma handle_event_send_view (ev : event_type) (p : Photon) (st : Driver) :
  send_view (handle_event env ev p st) = send_view st.
Proof.
  destruct ev; simpl; try reflexivity.
  destruct (map_index _ _). unfold send_view; simpl.
  rewrite length_alter. reflexivity.
Qed.

Lemma track_slot_send_view (st st' : Driver) :
  track_slot env st = Some st' -> send_view st' = send_view st.
Proof.
  unfold track_slot, take_photon.
  destruct (phtn_recv_stack (work st)) as [ | p rest];
    [destruct (get_photon _ _ _) as [[p src] rng]; simpl | ];
    (destruct (transport_photon_particle_pass _ _ _ _ _ _ _ _)
       as [[ev ts] | ]; [ | discriminate]);
    intros [= <-];
    [ | transitivity (send_view (handle_event env ev (t_phtn ts)
            (log (EvTrack true ev) (with_work (set_tracked ts) st))));
        [reflexivity | ] ];
    rewrite handle_event_send_view; reflexivity.
Qed.

Lemma track_batch_send_view (n : nat) :
  forall st st', track_batch env n st = Some st' -> send_view st' = send_view st.
Proof.
  induction n as [ | n IH]; intros st st'; simpl.
  - intros [= <-]; reflexivity.
  - destruct (has_work env st); [ | intros [= <-]; reflexivity].
    destruct (track_slot env st) as [st1 | ] eqn:E; [ | discriminate].
    intros Hb. rewrite (IH _ _ Hb). eapply track_slot_send_view; eassumption.
Qed.

Lemma process_recv_buffer_send_view (adj_rank i_b : Z) (st : Driver) :
  send_view (process_recv_buffer env adj_rank i_b st) = send_view st.
Proof. unfold process_recv_buffer, test. case_ifs; reflexivity. Qed.

Lemma process_child_recv_send_view (b : buf_id) (child : Z)
  (set_count : Z -> Tree -> Tree) (st : Driver) :
  b = C1_RECV \/ b = C2_RECV ->
  send_view (process_child_recv env b child set_count st) = send_view st.
Proof.
  intros [-> | ->]; unfold process_child_recv, test; case_ifs; reflexivity.
Qed.

Lemma process_parent_recv_send_view (st : Driver) :
  send_view (process_parent_recv env st) = send_view st.
Proof. unfold process_parent_recv, test. case_ifs; reflexivity. Qed.

Lemma exit_test_send_view (st : Driver) :
  send_view (next_iter (exit_test env st)) = send_view st.
Proof. unfold exit_test. case_ifs; reflexivity. Qed.

Lemma count_sent_alter (f : Buffer.t Photon -> Buffer.t Photon) (i : nat) :
  forall (l : list (Buffer.t Photon)) (b : Buffer.t Photon),
    l !! i = Some b ->
    count_sent (alter f i l)
    = count_sent l - b2z (Buffer.sent b) + b2z (Buffer.sent (f b)).
Proof.
  induction i as [ | i IH]; intros [ | x l] b Hl; try discriminate.
  - injection Hl as ->. simpl. lia.
  - specialize (IH l b Hl). simpl in *.
    change (list_alter f i l) with (alter f i l). lia.
Qed.

Lemma sent_lookup (i_b : Z) (st : Driver) :
  Buffer.sent (send_buffer_at i_b st) = true ->
  exists b, phtn_send_buffer (chans st) !! Z.to_nat i_b = Some b
            /\ Buffer.sent b = true.
Proof.
  unfold send_buffer_at.
  destruct (phtn_send_buffer (chans st) !! Z.to_nat i_b) as [b | ]; simpl;
    [eauto | discriminate].
Qed.

Lemma process_send_buffer_invariant (i_b : Z) (st : Driver) :
  send_invariant env st ->
  send_invariant env (process_send_buffer env i_b st).
Proof.
  intros Hinv. unfold process_send_buffer, test.
  destruct (Buffer.sent (send_buffer_at i_b st)) eqn:Hs; [ | exact Hinv].
  destruct (test_done env (iter st) (PHTN_SEND i_b));
    [ | revert Hinv; apply send_invariant_view; reflexivity].
  destruct (sent_lookup _ _ Hs) as (b & Hb & Hsb).
  destruct Hinv as (Hp & Hc & Heq & Hlen & H1 & H2 & H3).
  unfold send_invariant; simpl.
  rewrite (count_sent_alter _ _ _ _ Hb), Hsb, length_alter. simpl.
  close_send H3.
Qed.

Lemma maybe_post_photon_send_invariant (adj_rank i_b : Z) (st : Driver) :
  send_invariant env st ->
  send_invariant env (maybe_post_photon_send env adj_rank i_b st).
Proof.
  intros Hinv. unfold maybe_post_photon_send.
  destruct (send_policy env i_b st) eqn:Hpol; [ | exact Hinv].
  apply send_policy_iff in Hpol. destruct Hpol as (Hempty & Hne & _).
  destruct Hinv as (Hp & Hc & Heq & Hlen & H1 & H2 & H3).
  assert (Hi : (Z.to_nat i_b < length (send_list (chans st)))%nat).
  { unfold send_list_at in Hne. apply lookup_lt_is_Some.
    destruct (send_list (chans st) !! Z.to_nat i_b); [eauto | ].
    simpl in Hne. congruence. }
  assert (Hi' : (Z.to_nat i_b < length (phtn_send_buffer (chans st)))%nat)
    by lia.
  destruct (lookup_lt_is_Some_2 _ _ Hi') as [b Hb].
  assert (Hsb : Buffer.sent b = false).
  { unfold send_buffer_at in Hempty. rewrite Hb in Hempty. simpl in Hempty.
    unfold Buffer.sent. rewrite Hempty. reflexivity. }
  unfold send_invariant, post_photon_send; simpl.
  rewrite alter_alter, (count_sent_alter _ _ _ _ Hb), Hsb, !length_alter.
  simpl.
  close_send H3.
Qed.

Lemma progress_channels_send_invariant (l : list (Z * Z)) :
  forall st : Driver,
    send_invariant env st ->
    send_invariant env (fold_left (progress_neighbor env) l st).
Proof.
  induction l as [ | [adj_rank i_b] l IH]; intros st Hinv; simpl; [exact Hinv | ].
  apply IH. unfold progress_neighbor.
  apply (send_invariant_view
           (maybe_post_photon_send env adj_rank i_b
              (process_send_buffer env i_b st))).
  - apply process_recv_buffer_send_view.
  - apply maybe_post_photon_send_invariant, process_send_buffer_invariant, Hinv.
Qed.

Lemma process_parent_send_invariant (st : Driver) :
  send_invariant env st -> send_invariant env (process_parent_send env st).
Proof.
  intros Hinv. unfold process_parent_send, test.
  destruct (Buffer.sent (p_send_buffer (cbufs st))) eqn:Hs; [ | exact Hinv].
  destruct (test_done env (iter st) P_SEND);
    [ | revert Hinv; apply send_invariant_view; reflexivity].
  destruct Hinv as (Hp & Hc & Heq & Hlen & H1 & H2 & H3).
  rewrite Hs in Heq.
  unfold send_invariant; simpl.
  close_send H3.
Qed.

Lemma maybe_upward_send_invariant (st : Driver) :
  send_invariant env st -> send_invariant env (maybe_upward_send env st).
Proof.
  intros Hinv. unfold maybe_upward_send.
  destruct (upward_send_cond env st) eqn:Hcond; [ | exact Hinv].
  assert (Hpar : parent env <> proc_null).
  { unfold upward_send_cond in Hcond.
    rewrite !andb_true_iff, negb_true_iff, Z.eqb_neq in Hcond. tauto. }
  destruct Hinv as (Hp & Hc & Heq & Hlen & H1 & H2 & H3).
  unfold send_invariant, upward_send, Buffer.sent in *; simpl.
  destruct (Buffer.status (p_send_buffer (cbufs st))); simpl in *;
    repeat match goal with |- _ /\ _ => split end;
    try assumption; try contradiction; mod32.
Qed.

Lemma tree_before_send_send_invariant (st : Driver) :
  send_invariant env st -> send_invariant env (tree_before_send env st).
Proof.
  intros Hinv. unfold tree_before_send.
  set (s1 := process_parent_recv env
               (process_child_recv env C2_RECV (child2 env) set_c2_count
                  (process_child_recv env C1_RECV (child1 env) set_c1_count
                     st))).
  assert (H1 : send_invariant env s1).
  { revert Hinv. apply send_invariant_view. unfold s1.
    rewrite process_parent_recv_send_view,
      !process_child_recv_send_view by auto.
    reflexivity. }
  apply process_parent_send_invariant in H1.
  revert H1. apply send_invariant_view. reflexivity.
Qed.

Lemma work_iteration_send_invariant (st st' : Driver) :
  work_iteration env st = Some st' ->
  send_invariant env st -> send_invariant env st'.
Proof.
  unfold work_iteration.
  destruct (track_batch env _ st) as [st1 | ] eqn:Eb; [ | discriminate].
  intros [= <-] Hinv.
  apply track_batch_send_view in Eb.
  assert (H1 : send_invariant env st1)
    by (revert Hinv; apply send_invariant_view; exact Eb).
  apply (progress_channels_send_invariant (adjacent_procs (chans st1))) in H1.
  apply tree_before_send_send_invariant, maybe_upward_send_invariant in H1.
  revert H1. apply send_invariant_view.
  unfold progress_tree. apply exit_test_send_view.
Qed.

Lemma work_loop_send_invariant (fuel : nat) :
  forall st st',
    work_loop env fuel st = Some st' ->
    send_invariant env st -> send_invariant env st'.
Proof.
  induction fuel as [ | fuel IH]; intros st st' Hrun Hinv; simpl in Hrun;
    destruct (finished st); try discriminate;
    try (injection Hrun as <-; exact Hinv).
  destruct (work_iteration env st) as [st1 | ] eqn:Ei; [ | discriminate].
  apply (IH st1); [exact Hrun | ].
  eapply work_iteration_send_invariant; eassumption.
Qed.

Lemma count_sent_new (n : nat) :
  count_sent (replicate n (Buffer.new : Buffer.t Photon)) = 0.
Proof. induction n as [ | n IH]; simpl; [reflexivity | exact IH]. Qed.

Lemma setup_neighbors_send_view (l : list (Z * Z)) :
  forall st : Driver,
    let st' := fold_left setup_neighbor l st in
    n_sends_posted (diag st') = n_sends_posted (diag st)
    /\ n_sends_completed (diag st') = n_sends_completed (diag st)
    /\ cbufs st' = cbufs st
    /\ phtn_send_buffer (chans st') = phtn_send_buffer (chans st)
    /\ length (send_list (chans st'))
       = (length (send_list (chans st)) + length l)%nat
    /\ resends (trace st') = resends (trace st).
Proof.
  induction l as [ | [adj_rank i_b] l IH]; intros st st'.
  - unfold st'; simpl. repeat split. lia.
  - unfold st'.
    change (fold_left setup_neighbor ((adj_rank, i_b) :: l) st)
      with (fold_left setup_neighbor l (setup_neighbor st (adj_rank, i_b))).
    destruct (IH (setup_neighbor st (adj_rank, i_b)))
      as (H1 & H2 & H3 & H4 & H5 & H6).
    rewrite H1, H2, H3, H4, H5, H6. simpl.
    rewrite length_app. simpl. repeat split. lia.
Qed.

Lemma setup_send_invariant :
  Z.of_nat (length (get_proc_adjacency_list (mesh env))) < 2 ^ 32 ->
  send_invariant env (setup env (init_driver env)).
Proof.
  intros Hlt. unfold setup.
  set (st0 := post_tree_recvs env (init_driver env)).
  assert (H0 : send_view st0 = send_view (init_driver env)
               /\ adjacent_procs (chans st0)
                  = get_proc_adjacency_list (mesh env)).
  { unfold st0, post_tree_recvs.
    destruct (child1 env =? proc_null), (child2 env =? proc_null),
      (parent env =? proc_null); split; reflexivity. }
  destruct H0 as [Hv Hm]. rewrite Hm.
  destruct (setup_neighbors_send_view (get_proc_adjacency_list (mesh env)) st0)
    as (H1 & H2 & H3 & H4 & H5 & H6).
  unfold send_view in Hv.
  injection Hv as Hv1 Hv2 Hv3 Hv4 Hv5 Hv6 Hv7 Hv8.
  unfold send_invariant.
  rewrite H1, H2, H3, H4, H5, H6, Hv1, Hv2, Hv3, Hv4, Hv5, Hv6, Hv7, Hv8.
  simpl. rewrite count_sent_new, length_replicate.
  pose proof (n_adjacent_length env Hlt) as Hn.
  repeat match goal with |- _ /\ _ => split end;
    try reflexivity; try (intros _; split; reflexivity); try lia;
    unfold canonical32, eq32; try lia.
Qed.

Lemma send_down_gap (b : buf_id) (child : Z) (st : Driver) (k : Z) :
  b = C1_SEND \/ b = C2_SEND ->
  Buffer.sent (get_cbuf b (cbufs st)) = false ->
  send_gap st k ->
  send_gap (send_down env b child st) k
  /\ p_send_buffer (cbufs (send_down env b child st)) = p_send_buffer (cbufs st)
  /\ (b = C1_SEND ->
      c2_send_buffer (cbufs (send_down env b child st))
      = c2_send_buffer (cbufs st)).
Proof.
  intros Hb Hs (Hp & Hc & Heq). unfold send_down. rewrite Hs.
  destruct (negb (child =? proc_null));
    [ | unfold send_gap; repeat match goal with |- _ /\ _ => split end;
        assumption || reflexivity].
  destruct Hb as [-> | ->]; unfold send_gap; simpl;
    repeat match goal with |- _ /\ _ => split end;
    try reflexivity; try discriminate; mod32.
Qed.

Lemma finish_neighbors_gap (l : list (Z * Z)) :
  forall (st : Driver) (k : Z),
    send_gap st k -> send_gap (fold_left finish_neighbor l st) k.
Proof.
  induction l as [ | [adj_rank i_b] l IH]; intros st k Hg; simpl; [exact Hg | ].
  apply IH. destruct Hg as (Hp & Hc & Heq).
  unfold send_gap, wait. case_ifs; simpl; repeat split; mod32.
Qed.

Lemma wait_photon_recvs_send_counts (k : nat) :
  forall (i_b : Z) (st : Driver),
    send_counts (wait_photon_recvs k i_b st) = send_counts st.
Proof.
  induction k as [ | k IH]; intros i_b st; simpl; [reflexivity | ].
  rewrite IH. reflexivity.
Qed.

Lemma send_gap_counts (st st' : Driver) (k : Z) :
  send_counts st' = send_counts st -> send_gap st k -> send_gap st' k.
Proof. unfold send_counts, send_gap. intros [= -> ->]. tauto. Qed.

Lemma shutdown_send_gap (st : Driver) (k : Z) :
  Buffer.sent (c1_send_buffer (cbufs st)) = false ->
  Buffer.sent (c2_send_buffer (cbufs st)) = false ->
  send_gap st (k + b2z (Buffer.sent (p_send_buffer (cbufs st)))) ->
  send_gap (shutdown env st) k.
Proof.
  intros Hs1 Hs2 Hg. unfold shutdown. cbv zeta.
  set (s1 := send_down env C1_SEND (child1 env) st).
  destruct (send_down_gap C1_SEND (child1 env) st _ (or_introl eq_refl) Hs1 Hg)
    as (Hg1 & Hp1 & Hc21). fold s1 in Hg1, Hp1, Hc21.
  specialize (Hc21 eq_refl).
  set (s2 := send_down env C2_SEND (child2 env) s1).
  assert (Hs2' : Buffer.sent (get_cbuf C2_SEND (cbufs s1)) = false)
    by (simpl; rewrite Hc21; exact Hs2).
  destruct (send_down_gap C2_SEND (child2 env) s1 _ (or_intror eq_refl)
              Hs2' Hg1) as (Hg2 & Hp2 & _). fold s2 in Hg2, Hp2.
  rewrite <- Hp1, <- Hp2 in Hg2.
  set (s3 := finish_parent env (log EvBarrier (wait_parent_send s2))).
  assert (Hg3 : send_gap s3 k).
  { destruct Hg2 as (Hp & Hc & Heq).
    unfold s3, finish_parent, wait_parent_send, fill_count, wait, send_gap.
    destruct (Buffer.sent (p_send_buffer (cbufs s2)));
      destruct (negb (parent env =? proc_null)); simpl;
      repeat split; mod32. }
  set (s4 := wait_child_recv C2_RECV (child2 env)
               (wait_child_recv C1_RECV (child1 env) s3)).
  assert (Hg4 : send_gap s4 k).
  { revert Hg3. apply send_gap_counts.
    unfold s4, wait_child_recv, wait. case_ifs; reflexivity. }
  apply (finish_neighbors_gap (adjacent_procs (chans s4))) in Hg4.
  revert Hg4. apply send_gap_counts.
  transitivity (send_counts
    (wait_photon_recvs (Z.to_nat (n_adjacent env)) 0
       (fold_left finish_neighbor (adjacent_procs (chans s4)) s4)));
    [reflexivity | apply wait_photon_recvs_send_counts].
Qed.

(** X8: the sends of a step balance up to two kinds of pending sends.
    The step ends with [n_sends_posted] equal to [n_sends_completed]
    plus the number of photon send buffers still marked sent when the
    work loop is left, plus the number of upward sends that were posted
    over a pending one; on a rank without parent the second number is
    zero. *)
Theorem sends_balance (fuel : nat) (st : Driver) :
  Z.of_nat (length (get_proc_adjacency_list (mesh env))) < 2 ^ 32 ->
  work_loop env fuel (setup env (init_driver env)) = Some st ->
  n_sends_posted (diag (shutdown env st))
  = wrap32 (n_sends_completed (diag (shutdown env st))
            + (count_sent (phtn_send_buffer (chans st))
               + resends (trace st)))
  /\ (parent env = proc_null -> resends (trace st) = 0).
Proof.
  intros Hlt Hrun.
  pose proof (work_loop_send_invariant fuel _ _ Hrun (setup_send_invariant Hlt))
    as (Hp & Hc & Heq & _ & H1 & H2 & H3).
  split; [ | intros Hn; apply (H3 Hn)].
  assert (Hg : send_gap st
                 (count_sent (phtn_send_buffer (chans st)) + resends (trace st)
                  + b2z (Buffer.sent (p_send_buffer (cbufs st))))).
  { repeat split; try apply Hp; try apply Hc.
    unfold eq32 in *. rewrite Heq. f_equal. lia. }
  apply (shutdown_send_gap st _ H1 H2) in Hg.
  destruct Hg as (Hp' & _ & Heq').
  apply (eq32_canonical _ _ Hp' Heq').
Qed.

End SendBalance.

Section CountLedger.

Context {D : Type} {HD : DoubleOps D} {Source : Type}
        {HC : @Collaborators D Source}.

Local Abbreviation Photon := (@Photon D).
Local Abbreviation Env := (@Env D Source).
Local Abbreviation Driver := (@Driver D Source).

Variable env : Env.

Ltac case_ifs :=
  repeat match goal with
         | |- context [if ?b then _ else _] => destruct b eqn:?
         end.

Ltac mod64 :=
  unfold eq64, canonical64, incr64, add64, wrap64, b2z in *;
  change (2 ^ 64) with 18446744073709551616 in *;
  Z.div_mod_to_equations; lia.

Lemma count_invariant_view (j : nat) (g : Z) (st st' : Driver) :
  count_view st' = count_view st ->
  count_invariant_at env j g st -> count_invariant_at env j g st'.
Proof.
  unfold count_view, count_invariant_at. intros [= -> -> -> -> ->]. tauto.
Qed.

Lemma handle_event_count_view (ev : event_type) (p : Photon) (st : Driver) :
  count_view (handle_event env ev p st)
  = (tree_count (tree st),
     if ends ev then incr64 (n_complete (tree st)) else n_complete (tree st),
     sent_up (trace st), completions (trace st), iter st).
Proof.
  destruct ev; simpl; try reflexivity.
  destruct (map_index _ _); reflexivity.
Qed.

Lemma track_slot_count_invariant (j : nat) (g : Z) (st st' : Driver) :
  track_slot env st = Some st' ->
  count_invariant_at env j g st -> count_invariant_at env j g st'.
Proof.
  unfold track_slot, take_photon.
  destruct (phtn_recv_stack (work st)) as [ | p rest];
    [destruct (get_photon _ _ _) as [[p src] rng]; simpl | ];
    (destruct (transport_photon_particle_pass _ _ _ _ _ _ _ _)
       as [[ev ts] | ]; [ | discriminate]);
    intros [= <-] (Hi & Heq & Hp);
    match goal with
    | |- context [handle_event env ev (t_phtn ts) ?s] =>
        pose proof (handle_event_count_view ev (t_phtn ts) s) as Hh
    end;
    unfold count_view in Hh; simpl in Hh;
    injection Hh as H1 H2 H3 H4 H5;
    unfold count_invariant_at; simpl; rewrite H1, H2, H3, H4, H5;
    unfold completions in *; simpl;
    (split; [exact Hi | split; [ | exact Hp]]);
    destruct ev; simpl; mod64.
Qed.

Lemma track_batch_count_invariant (j : nat) (g : Z) (n : nat) :
  forall st st',
    track_batch env n st = Some st' ->
    count_invariant_at env j g st -> count_invariant_at env j g st'.
Proof.
  induction n as [ | n IH]; intros st st'; simpl.
  - intros [= <-]; trivial.
  - destruct (has_work env st); [ | intros [= <-]; trivial].
    destruct (track_slot env st) as [st1 | ] eqn:E; [ | discriminate].
    intros Hb Hinv. apply (IH _ _ Hb).
    eapply track_slot_count_invariant; eassumption.
Qed.

Lemma progress_neighbor_count_view (e : Z * Z) (st : Driver) :
  count_view (progress_neighbor env st e) = count_view st.
Proof.
  destruct e as [adj_rank i_b]. unfold progress_neighbor.
  transitivity (count_view (maybe_post_photon_send env adj_rank i_b
                              (process_send_buffer env i_b st))).
  { unfold process_recv_buffer, test. case_ifs; reflexivity. }
  transitivity (count_view (process_send_buffer env i_b st)).
  { unfold maybe_post_photon_send. case_ifs; reflexivity. }
  unfold process_send_buffer, test. case_ifs; reflexivity.
Qed.

Lemma progress_channels_count_view (l : list (Z * Z)) :
  forall st : Driver,
    count_view (fold_left (progress_neighbor env) l st) = count_view st.
Proof.
  induction l as [ | e l IH]; intros st; simpl; [reflexivity | ].
  rewrite IH. apply progress_neighbor_count_view.
Qed.

Lemma process_child_recv_count_invariant (b : buf_id) (child : Z)
  (set_count : Z -> Tree -> Tree) (j : nat) (g : Z) (st : Driver) :
  (b = C1_RECV /\ set_count = set_c1_count)
  \/ (b = C2_RECV /\ set_count = set_c2_count) ->
  Buffer.awaiting (get_cbuf b (cbufs st)) = negb (child =? proc_null) ->
  count_invariant_at env j g st ->
  count_invariant_at env j (g + child_gain env j b child)
    (process_child_recv env b child set_count st).
Proof.
  intros Hb Haw (Hi & Heq & Hp). subst j.
  unfold process_child_recv, test, child_gain. rewrite Haw.
  destruct (negb (child =? proc_null)); simpl;
    [ | unfold count_invariant_at; rewrite Z.add_0_r; tauto].
  destruct (test_done env (iter st) b);
    [ | unfold count_invariant_at; simpl; rewrite Z.add_0_r; tauto].
  destruct Hb as [[-> ->] | [-> ->]];
    unfold count_invariant_at; simpl;
    (split; [reflexivity | split; [ | exact Hp]]);
    unfold completions in *; simpl;
    match goal with
    | |- context [wrap64 (recv_count env ?j ?b)] =>
        generalize (wrap64 (recv_count env j b)); intros r
    end; mod64.
Qed.

Lemma process_parent_recv_count_view (st : Driver) :
  count_view (process_parent_recv env st) = count_view st.
Proof. unfold process_parent_recv, test. case_ifs; reflexivity. Qed.

Lemma process_parent_send_count_view (st : Driver) :
  count_view (process_parent_send env st) = count_view st.
Proof. unfold process_parent_send, test. case_ifs; reflexivity. Qed.

Lemma roll_up_count_invariant (j : nat) (g : Z) (st : Driver) :
  count_invariant_at env j g st -> count_invariant_at env j g (roll_up st).
Proof.
  intros (Hi & Heq & Hp). unfold count_invariant_at; simpl.
  split; [exact Hi | split; [ | exact Hp]]. mod64.
Qed.

Lemma maybe_upward_send_count_invariant (j : nat) (g : Z) (st : Driver) :
  count_invariant_at env j g st ->
  count_invariant_at env j g (maybe_upward_send env st).
Proof.
  intros (Hi & Heq & Hp). unfold maybe_upward_send, upward_send_cond.
  destruct (parent env =? proc_null) eqn:Epar; simpl;
    [unfold count_invariant_at; tauto | ].
  case_ifs; try (unfold count_invariant_at; tauto).
  unfold count_invariant_at; simpl.
  split; [exact Hi | split].
  - unfold completions in *; simpl. mod64.
  - intros Hn. rewrite Hn, Z.eqb_refl in Epar. discriminate.
Qed.

Lemma work_iteration_count_invariant (st st' : Driver) :
  work_iteration env st = Some st' ->
  recv_invariant env st ->
  count_invariant_at env (iter st) 0 st ->
  count_invariant_at env (iter st') 0 st'.
Proof.
  unfold work_iteration.
  destruct (track_batch env _ st) as [st1 | ] eqn:Eb; [ | discriminate].
  intros [= <-] Hrecv Hinv.
  set (j := iter st) in *.
  pose proof (track_batch_recv_view env _ _ _ Eb) as Hv1.
  apply (recv_invariant_view env _ _ Hv1) in Hrecv.
  apply (track_batch_count_invariant _ _ _ _ _ Eb) in Hinv.
  unfold progress_channels, progress_tree, tree_before_send.
  set (st2 := fold_left (progress_neighbor env) (adjacent_procs (chans st1)) st1).
  apply (progress_channels_recv_invariant env (adjacent_procs (chans st1)))
    in Hrecv. fold st2 in Hrecv.
  apply (count_invariant_view _ _ _ st2
           (progress_channels_count_view (adjacent_procs (chans st1)) st1))
    in Hinv.
  set (st3 := process_child_recv env C1_RECV (child1 env) set_c1_count st2).
  assert (Hinv3 : count_invariant_at env j
                    (0 + child_gain env j C1_RECV (child1 env)) st3).
  { apply process_child_recv_count_invariant;
      [left; split; reflexivity | apply Hrecv | exact Hinv]. }
  pose proof (process_child1_recv_invariant env _ Hrecv) as Hrecv3.
  fold st3 in Hrecv3.
  set (st4 := process_child_recv env C2_RECV (child2 env) set_c2_count st3).
  assert (Hinv4 : count_invariant_at env j
                    (0 + child_gain env j C1_RECV (child1 env)
                     + child_gain env j C2_RECV (child2 env)) st4).
  { apply process_child_recv_count_invariant;
      [right; split; reflexivity | apply Hrecv3 | exact Hinv3]. }
  set (st5 := process_parent_send env (process_parent_recv env st4)).
  assert (Hinv5 : count_invariant_at env j
                    (0 + child_gain env j C1_RECV (child1 env)
                     + child_gain env j C2_RECV (child2 env)) st5).
  { revert Hinv4. apply count_invariant_view. unfold st5.
    rewrite process_parent_send_count_view.
    apply process_parent_recv_count_view. }
  apply roll_up_count_invariant, maybe_upward_send_count_invariant in Hinv5.
  set (st6 := maybe_upward_send env (roll_up st5)) in *.
  destruct Hinv5 as (Hi & Heq & Hp).
  assert (Hx : count_view (exit_test env st6) = count_view st6)
    by (unfold exit_test; case_ifs; reflexivity).
  unfold count_view in Hx. injection Hx as H1 H2 H3 H4 H5.
  unfold count_invariant_at; simpl.
  rewrite H1, H2, H3, H4, H5, Hi.
  split; [reflexivity | split; [ | exact Hp]].
  simpl. unfold eq64 in *. rewrite Heq. f_equal. lia.
Qed.

Lemma work_loop_count_invariant (fuel : nat) :
  forall st st',
    work_loop env fuel st = Some st' ->
    recv_invariant env st ->
    count_invariant_at env (iter st) 0 st ->
    count_invariant_at env (iter st') 0 st'.
Proof.
  induction fuel as [ | fuel IH]; intros st st' Hrun Hrecv Hinv;
    simpl in Hrun;
    destruct (finished st); try discriminate;
    try (injection Hrun as <-; exact Hinv).
  destruct (work_iteration env st) as [st1 | ] eqn:Ei; [ | discriminate].
  apply (IH _ _ Hrun).
  - eapply work_iteration_recv_invariant; eassumption.
  - eapply work_iteration_count_invariant; eassumption.
Qed.

Lemma setup_neighbors_count_view (l : list (Z * Z)) :
  forall st : Driver,
    count_view (fold_left setup_neighbor l st) = count_view st.
Proof.
  induction l as [ | [adj_rank i_b] l IH]; intros st; [reflexivity | ].
  change (fold_left setup_neighbor ((adj_rank, i_b) :: l) st)
    with (fold_left setup_neighbor l (setup_neighbor st (adj_rank, i_b))).
  rewrite IH. reflexivity.
Qed.

Lemma setup_parent_count :
  parent_count (tree (setup env (init_driver env))) = 0.
Proof.
  unfold setup.
  transitivity (parent_count (tree (post_tree_recvs env (init_driver env)))).
  - generalize (post_tree_recvs env (init_driver env)).
    intros st0. generalize (adjacent_procs (chans st0)). intros l.
    revert st0. induction l as [ | [adj_rank i_b] l IH]; intros st0;
      [reflexivity | ].
    change (fold_left setup_neighbor ((adj_rank, i_b) :: l) st0)
      with (fold_left setup_neighbor l (setup_neighbor st0 (adj_rank, i_b))).
    rewrite IH. reflexivity.
  - unfold post_tree_recvs. case_ifs; reflexivity.
Qed.

Lemma setup_count_invariant :
  count_invariant_at env 0 0 (setup env (init_driver env)).
Proof.
  apply (count_invariant_view _ _ (init_driver env)).
  - unfold setup. rewrite setup_neighbors_count_view.
    unfold post_tree_recvs. case_ifs; reflexivity.
  - unfold count_invariant_at; simpl. repeat split.
Qed.

Lemma work_loop_n_complete (fuel : nat) :
  forall st st',
    work_loop env fuel st = Some st' ->
    (finished st = true -> n_complete (tree st) = 0) ->
    n_complete (tree st') = 0.
Proof.
  induction fuel as [ | fuel IH]; intros st st' Hrun Hinv;
    simpl in Hrun;
    destruct (finished st); try discriminate;
    try (injection Hrun as <-; apply Hinv; reflexivity).
  destruct (work_iteration env st) as [st1 | ] eqn:Ei; [ | discriminate].
  apply (IH _ _ Hrun). intros _.
  unfold work_iteration in Ei.
  destruct (track_batch env _ st) as [st2 | ]; [ | discriminate].
  injection Ei as <-.
  unfold exit_test, progress_tree, maybe_upward_send.
  case_ifs; reflexivity.
Qed.

Lemma setup_neighbors_finished (l : list (Z * Z)) :
  forall st : Driver, finished (fold_left setup_neighbor l st) = finished st.
Proof.
  induction l as [ | [adj_rank i_b] l IH]; intros st; [reflexivity | ].
  change (fold_left setup_neighbor ((adj_rank, i_b) :: l) st)
    with (fold_left setup_neighbor l (setup_neighbor st (adj_rank, i_b))).
  rewrite IH. reflexivity.
Qed.

Lemma setup_not_finished : finished (setup env (init_driver env)) = false.
Proof.
  unfold setup. rewrite setup_neighbors_finished.
  unfold post_tree_recvs. case_ifs; reflexivity.
Qed.

Lemma loop_exit_ledger (fuel : nat) (st : Driver) :
  neighbors_indexed env ->
  work_loop env fuel (setup env (init_driver env)) = Some st ->
  eq64 (tree_count (tree st) + sent_up (trace st))
       (completions (trace st) + child_total env (iter st))
  /\ n_complete (tree st) = 0
  /\ (parent env = proc_null -> sent_up (trace st) = 0).
Proof.
  intros Hn Hrun.
  pose proof (work_loop_count_invariant fuel _ _ Hrun
                (setup_recv_invariant env Hn)) as Hinv.
  assert (H0 : iter (setup env (init_driver env)) = O).
  { pose proof setup_count_invariant as [Hi _]. exact Hi. }
  rewrite H0 in Hinv. specialize (Hinv setup_count_invariant).
  destruct Hinv as (_ & Heq & Hp).
  assert (Hc : n_complete (tree st) = 0).
  { apply (work_loop_n_complete fuel _ _ Hrun).
    rewrite setup_not_finished. discriminate. }
  rewrite Hc in Heq. split; [ | split; [exact Hc | exact Hp]].
  unfold eq64 in *.
  rewrite !Z.add_0_r in Heq. exact Heq.
Qed.

(** X9: every completed history is counted once.  When the work loop is
    left, the count held in [tree_count] and the counts sent to the
    parent add up, as [uint64_t], to the histories that ended on this
    rank in KILL, EXIT or CENSUS and the counts taken from the
    children; nothing is left in [n_complete]; and a rank without
    parent has sent no count. *)
Theorem completed_counted_once (fuel : nat) (st : Driver) :
  neighbors_indexed env ->
  work_loop env fuel (setup env (init_driver env)) = Some st ->
  eq64 (tree_count (tree st) + sent_up (trace st))
       (completions (trace st) + child_total env (iter st))
  /\ n_complete (tree st) = 0
  /\ (parent env = proc_null -> sent_up (trace st) = 0).
Proof. apply loop_exit_ledger. Qed.

Lemma progress_channels_parent_count (l : list (Z * Z)) :
  forall st : Driver,
    parent_count (tree (fold_left (progress_neighbor env) l st))
    = parent_count (tree st).
Proof.
  induction l as [ | [adj_rank i_b] l IH]; intros st; simpl; [reflexivity | ].
  rewrite IH. unfold progress_neighbor.
  transitivity (parent_count (tree (maybe_post_photon_send env adj_rank i_b
                                      (process_send_buffer env i_b st)))).
  { unfold process_recv_buffer, test. case_ifs; reflexivity. }
  transitivity (parent_count (tree (process_send_buffer env i_b st))).
  { unfold maybe_post_photon_send. case_ifs; reflexivity. }
  unfold process_send_buffer, test. case_ifs; reflexivity.
Qed.

Lemma work_iteration_root_parent_count (st st' : Driver) :
  parent env = proc_null ->
  work_iteration env st = Some st' ->
  recv_invariant env st ->
  parent_count (tree st') = parent_count (tree st).
Proof.
  intros Hroot. unfold work_iteration.
  destruct (track_batch env _ st) as [st1 | ] eqn:Eb; [ | discriminate].
  intros [= <-] Hrecv.
  pose proof (track_batch_recv_view env _ _ _ Eb) as Hv1.
  apply (recv_invariant_view env _ _ Hv1) in Hrecv.
  assert (H1 : parent_count (tree st1) = parent_count (tree st))
    by (unfold recv_view in Hv1; congruence).
  rewrite <- H1.
  unfold progress_channels, progress_tree, tree_before_send.
  set (st2 := fold_left (progress_neighbor env) (adjacent_procs (chans st1)) st1).
  apply (progress_channels_recv_invariant env (adjacent_procs (chans st1)))
    in Hrecv. fold st2 in Hrecv.
  rewrite <- (progress_channels_parent_count (adjacent_procs (chans st1)) st1).
  fold st2.
  set (st3 := process_child_recv env C1_RECV (child1 env) set_c1_count st2).
  pose proof (process_child1_recv_invariant env _ Hrecv) as Hrecv3.
  fold st3 in Hrecv3.
  assert (H3 : parent_count (tree st3) = parent_count (tree st2))
    by (unfold st3, process_child_recv, test; case_ifs; reflexivity).
  set (st4 := process_child_recv env C2_RECV (child2 env) set_c2_count st3).
  pose proof (process_child2_recv_invariant env _ Hrecv3) as Hrecv4.
  fold st4 in Hrecv4.
  assert (H4 : parent_count (tree st4) = parent_count (tree st3))
    by (unfold st4, process_child_recv, test; case_ifs; reflexivity).
  assert (H5 : process_parent_recv env st4 = st4).
  { unfold process_parent_recv.
    destruct (Buffer.awaiting (p_recv_buffer (cbufs st4))) eqn:Haw;
      [ | reflexivity].
    destruct Hrecv4 as (_ & _ & _ & _ & _ & _ & _ & Hp).
    destruct (Hp Haw) as [Hne _]. contradiction. }
  rewrite H5, <- H3, <- H4.
  set (st5 := process_parent_send env st4).
  transitivity (parent_count (tree st5));
    [ | unfold st5, process_parent_send, test; case_ifs; reflexivity].
  unfold exit_test, maybe_upward_send. case_ifs; reflexivity.
Qed.

Lemma work_loop_root_parent_count (fuel : nat) :
  parent env = proc_null ->
  forall st st',
    work_loop env fuel st = Some st' ->
    recv_invariant env st ->
    parent_count (tree st') = parent_count (tree st).
Proof.
  intros Hroot.
  induction fuel as [ | fuel IH]; intros st st' Hrun Hrecv;
    simpl in Hrun;
    destruct (finished st); try discriminate;
    try (injection Hrun as <-; reflexivity).
  destruct (work_iteration env st) as [st1 | ] eqn:Ei; [ | discriminate].
  rewrite (IH _ _ Hrun).
  - eapply work_iteration_root_parent_count; eassumption.
  - eapply work_iteration_recv_invariant; eassumption.
Qed.

(** X13: the rank without parent leaves the work loop on the full
    count.  With a number of particles that is not zero, it leaves the
    loop with [tree_count == n_global], and this count is, as
    [uint64_t], the histories completed on this rank and the counts
    taken from its children. *)
Theorem root_leaves_on_full_count (fuel : nat) (st : Driver) :
  neighbors_indexed env ->
  parent env = proc_null ->
  n_global env <> 0 ->
  work_loop env fuel (setup env (init_driver env)) = Some st ->
  tree_count (tree st) = n_global env
  /\ eq64 (n_global env) (completions (trace st) + child_total env (iter st)).
Proof.
  intros Hn Hroot Hg Hrun.
  destruct (work_loop_first_exit env fuel _ _ setup_not_finished Hrun)
    as (_ & Hex & _).
  apply exit_cond_iff in Hex.
  pose proof (work_loop_root_parent_count fuel Hroot _ _ Hrun
                (setup_recv_invariant env Hn)) as Hpc.
  assert (H0 : parent_count (tree (setup env (init_driver env))) = 0).
  { pose proof (setup_parent_count) as Hv. exact Hv. }
  rewrite H0 in Hpc.
  assert (Ht : tree_count (tree st) = n_global env)
    by (destruct Hex as [Ht | Ht]; [exact Ht | congruence]).
  split; [exact Ht | ].
  destruct (loop_exit_ledger fuel st Hn Hrun) as (Heq & _ & Hs).
  rewrite (Hs Hroot), Z.add_0_r, Ht in Heq. exact Heq.
Qed.

End CountLedger.

Section SourceLedger.

Context {D : Type} {HD : DoubleOps D} {Source : Type}
        {HC : @Collaborators D Source}.

Local Abbreviation Photon := (@Photon D).
Local Abbreviation Env := (@Env D Source).
Local Abbreviation Driver := (@Driver D Source).

Variable env : Env.

Ltac case_ifs :=
  repeat match goal with
         | |- context [if ?b then _ else _] => destruct b eqn:?
         end.

Lemma tally_invariant_view (st st' : Driver) :
  tally_view st' = tally_view st ->
  (source_invariant env st -> source_invariant env st')
  /\ (census_invariant st -> census_invariant st').
Proof.
  unfold tally_view, source_invariant, census_invariant.
  intros [= -> -> -> ->]. tauto.
Qed.

Lemma handle_event_tally_view (ev : event_type) (p : Photon) (st : Driver) :
  tally_view (handle_event env ev p st)
  = (n_local_sourced (tree st),
     if event_type_eqb ev CENSUS then census_list (work st) ++ [p]
     else census_list (work st),
     drawn (trace st), census_events (trace st)).
Proof.
  destruct ev; simpl; try reflexivity.
  destruct (map_index _ _); reflexivity.
Qed.

Ltac open_track_slot :=
  unfold track_slot, take_photon;
  destruct (phtn_recv_stack (work _)) as [ | ? ?]; simpl;
  [destruct (get_photon _ _ _) as [[? ?] ?]; simpl | ];
  (destruct (transport_photon_particle_pass _ _ _ _ _ _ _ _)
     as [[?ev ?ts] | ]; [ | intros; discriminate]).

Ltac view_handle Hh :=
  match goal with
  | |- context [handle_event env ?ev (t_phtn ?ts) ?s] =>
      pose proof (handle_event_tally_view ev (t_phtn ts) s) as Hh
  end;
  unfold tally_view in Hh; simpl in Hh.

Lemma track_slot_census_invariant (st st' : Driver) :
  track_slot env st = Some st' ->
  census_invariant st -> census_invariant st'.
Proof.
  open_track_slot; intros [= <-] Hc; view_handle Hh;
    injection Hh as H1 H2 H3 H4;
    unfold census_invariant in *; simpl; rewrite H2, H4;
    unfold census_events in *; simpl;
    (destruct ev; simpl; rewrite ?length_app; simpl; lia).
Qed.

Lemma track_batch_census_invariant (n : nat) :
  forall st st',
    track_batch env n st = Some st' ->
    census_invariant st -> census_invariant st'.
Proof.
  induction n as [ | n IH]; intros st st'; simpl.
  - intros [= <-]; trivial.
  - destruct (has_work env st) eqn:Hw; [ | intros [= <-]; trivial].
    destruct (track_slot env st) as [st1 | ] eqn:E; [ | discriminate].
    intros Hb Hinv. apply (IH _ _ Hb).
    eapply track_slot_census_invariant; eassumption.
Qed.

Lemma progress_neighbor_tally_view (e : Z * Z) (st : Driver) :
  tally_view (progress_neighbor env st e) = tally_view st.
Proof.
  destruct e as [adj_rank i_b]. unfold progress_neighbor.
  transitivity (tally_view (maybe_post_photon_send env adj_rank i_b
                              (process_send_buffer env i_b st))).
  { unfold process_recv_buffer, test. case_ifs; reflexivity. }
  transitivity (tally_view (process_send_buffer env i_b st)).
  { unfold maybe_post_photon_send. case_ifs; reflexivity. }
  unfold process_send_buffer, test. case_ifs; reflexivity.
Qed.

Lemma progress_channels_tally_view (l : list (Z * Z)) :
  forall st : Driver,
    tally_view (fold_left (progress_neighbor env) l st) = tally_view st.
Proof.
  induction l as [ | e l IH]; intros st; simpl; [reflexivity | ].
  rewrite IH. apply progress_neighbor_tally_view.
Qed.

Lemma process_child_recv_tally_view (b : buf_id) (child : Z)
  (set_count : Z -> Tree -> Tree) (st : Driver) :
  (b = C1_RECV /\ set_count = set_c1_count)
  \/ (b = C2_RECV /\ set_count = set_c2_count) ->
  tally_view (process_child_recv env b child set_count st) = tally_view st.
Proof.
  intros [[-> ->] | [-> ->]]; unfold process_child_recv, test;
    case_ifs; reflexivity.
Qed.

Lemma progress_tree_tally_view (st : Driver) :
  tally_view (progress_tree env st) = tally_view st.
Proof.
  unfold progress_tree, tree_before_send.
  transitivity (tally_view
    (process_child_recv env C1_RECV (child1 env) set_c1_count st));
    [ | apply process_child_recv_tally_view; left; split; reflexivity].
  set (st1 := process_child_recv env C1_RECV (child1 env) set_c1_count st).
  transitivity (tally_view
    (process_child_recv env C2_RECV (child2 env) set_c2_count st1));
    [ | apply process_child_recv_tally_view; right; split; reflexivity].
  set (st2 := process_child_recv env C2_RECV (child2 env) set_c2_count st1).
  transitivity (tally_view (process_parent_recv env st2));
    [ | unfold process_parent_recv, test; case_ifs; reflexivity].
  set (st3 := process_parent_recv env st2).
  transitivity (tally_view (process_parent_send env st3));
    [ | unfold process_parent_send, test; case_ifs; reflexivity].
  unfold maybe_upward_send. case_ifs; reflexivity.
Qed.

Lemma after_batch_tally_view (st : Driver) :
  tally_view (next_iter (exit_test env
                (progress_tree env (progress_channels env st))))
  = tally_view st.
Proof.
  transitivity (tally_view (progress_channels env st));
    [ | apply progress_channels_tally_view].
  transitivity (tally_view (progress_tree env (progress_channels env st)));
    [ | apply progress_tree_tally_view].
  unfold exit_test. case_ifs; reflexivity.
Qed.

Lemma work_iteration_census_invariant (st st' : Driver) :
  work_iteration env st = Some st' ->
  census_invariant st -> census_invariant st'.
Proof.
  unfold work_iteration.
  destruct (track_batch env _ st) as [st1 | ] eqn:Eb; [ | discriminate].
  intros [= <-] Hinv.
  apply (track_batch_census_invariant _ _ _ Eb) in Hinv.
  revert Hinv. apply tally_invariant_view, after_batch_tally_view.
Qed.

Lemma work_loop_census_invariant (fuel : nat) :
  forall st st',
    work_loop env fuel st = Some st' ->
    census_invariant st -> census_invariant st'.
Proof.
  induction fuel as [ | fuel IH]; intros st st' Hrun Hinv;
    simpl in Hrun;
    destruct (finished st); try discriminate;
    try (injection Hrun as <-; exact Hinv).
  destruct (work_iteration env st) as [st1 | ] eqn:Ei; [ | discriminate].
  apply (IH _ _ Hrun).
  eapply work_iteration_census_invariant; eassumption.
Qed.

Lemma setup_neighbors_tally_view (l : list (Z * Z)) :
  forall st : Driver,
    tally_view (fold_left setup_neighbor l st) = tally_view st.
Proof.
  induction l as [ | [adj_rank i_b] l IH]; intros st; [reflexivity | ].
  change (fold_left setup_neighbor ((adj_rank, i_b) :: l) st)
    with (fold_left setup_neighbor l (setup_neighbor st (adj_rank, i_b))).
  rewrite IH. reflexivity.
Qed.

Lemma setup_tally_view :
  tally_view (setup env (init_driver env)) = tally_view (init_driver env).
Proof.
  unfold setup. rewrite setup_neighbors_tally_view.
  unfold post_tree_recvs. case_ifs; reflexivity.
Qed.

(** X10: the census of the work loop holds one photon for each history
    that ended in CENSUS. *)
Theorem census_one_per_event (fuel : nat) (st : Driver) :
  work_loop env fuel (setup env (init_driver env)) = Some st ->
  Z.of_nat (length (census_list (work st))) = census_events (trace st).
Proof.
  intros Hrun.
  apply (work_loop_census_invariant fuel _ _ Hrun).
  apply (tally_invariant_view _ _ setup_tally_view).
  reflexivity.
Qed.

Hypothesis n_local_range : 0 <= n_local env < 2 ^ 64.

Lemma track_slot_source_invariant (st st' : Driver) :
  has_work env st = true ->
  track_slot env st = Some st' ->
  source_invariant env st -> source_invariant env st'.
Proof.
  unfold has_work. open_track_slot;
    intros Hw [= <-] (Hr & Hd); view_handle Hh;
    injection Hh as H1 H2 H3 H4;
    unfold source_invariant; simpl; rewrite H1, H3;
    unfold drawn in *; simpl;
    try apply Z.ltb_lt in Hw;
    unfold incr64, wrap64; try rewrite Z.mod_small by lia;
    (destruct ev; simpl; repeat split; lia).
Qed.

Lemma track_batch_source_invariant (n : nat) :
  forall st st',
    track_batch env n st = Some st' ->
    source_invariant env st -> source_invariant env st'.
Proof.
  induction n as [ | n IH]; intros st st'; simpl.
  - intros [= <-]; trivial.
  - destruct (has_work env st) eqn:Hw; [ | intros [= <-]; trivial].
    destruct (track_slot env st) as [st1 | ] eqn:E; [ | discriminate].
    intros Hb Hinv. apply (IH _ _ Hb).
    eapply track_slot_source_invariant; eassumption.
Qed.

Lemma work_iteration_source_invariant (st st' : Driver) :
  work_iteration env st = Some st' ->
  source_invariant env st -> source_invariant env st'.
Proof.
  unfold work_iteration.
  destruct (track_batch env _ st) as [st1 | ] eqn:Eb; [ | discriminate].
  intros [= <-] Hinv.
  apply (track_batch_source_invariant _ _ _ Eb) in Hinv.
  revert Hinv. apply tally_invariant_view, after_batch_tally_view.
Qed.

Lemma work_loop_source_invariant (fuel : nat) :
  forall st st',
    work_loop env fuel st = Some st' ->
    source_invariant env st -> source_invariant env st'.
Proof.
  induction fuel as [ | fuel IH]; intros st st' Hrun Hinv;
    simpl in Hrun;
    destruct (finished st); try discriminate;
    try (injection Hrun as <-; exact Hinv).
  destruct (work_iteration env st) as [st1 | ] eqn:Ei; [ | discriminate].
  apply (IH _ _ Hrun).
  eapply work_iteration_source_invariant; eassumption.
Qed.

(** X11: the source is never over-drawn.  When the work loop is left,
    [n_local_sourced] is the number of histories that were started from
    the source and not from the receive stack, and it is at most the
    number of photons of the source. *)
Theorem source_not_overdrawn (fuel : nat) (st : Driver) :
  work_loop env fuel (setup env (init_driver env)) = Some st ->
  n_local_sourced (tree st) = drawn (trace st)
  /\ 0 <= drawn (trace st) <= n_local env.
Proof.
  intros Hrun.
  assert (H0 : source_invariant env (setup env (init_driver env))).
  { apply (tally_invariant_view _ _ setup_tally_view).
    unfold source_invariant; simpl. repeat split; lia. }
  destruct (work_loop_source_invariant fuel _ _ Hrun H0) as (Hr & Hd).
  split; [exact Hd | rewrite <- Hd; exact Hr].
Qed.

End SourceLedger.

Section StagingLedger.

Context {D : Type} {HD : DoubleOps D} {Source : Type}
        {HC : @Collaborators D Source}.

Local Abbreviation Photon := (@Photon D).
Local Abbreviation Env := (@Env D Source).
Local Abbreviation Driver := (@Driver D Source).

Variable env : Env.

Ltac case_ifs :=
  repeat match goal with
         | |- context [if ?b then _ else _] => destruct b eqn:?
         end.

Lemma map_lookup_below (n : nat) (k : Z) (m : list (Z * Z)) (v : Z) :
  indices_below n m -> map_lookup k m = Some v ->
  0 <= v /\ (Z.to_nat v < n)%nat.
Proof.
  unfold indices_below.
  induction m as [ | [k' v'] m IH]; simpl; [discriminate | ].
  intros Hall. inversion Hall as [ | ? ? Hx Hm]; subst.
  destruct (k =? k'); [intros [= <-]; exact Hx | apply IH, Hm].
Qed.

Lemma map_insert_below (n : nat) (k v : Z) (m : list (Z * Z)) :
  indices_below n m -> 0 <= v /\ (Z.to_nat v < n)%nat ->
  indices_below n (map_insert k v m).
Proof.
  unfold indices_below. intros Hall Hv.
  induction m as [ | [k' v'] m IH]; simpl.
  - constructor; [exact Hv | constructor].
  - inversion Hall as [ | ? ? Hx Hm]; subst.
    destruct (k <? k'); [constructor; [exact Hv | exact Hall] | ].
    destruct (k =? k'); constructor; auto.
Qed.

Lemma map_index_below (n : nat) (k i : Z) (m m' : list (Z * Z)) :
  (0 < n)%nat -> indices_below n m -> map_index m k = (i, m') ->
  (0 <= i /\ (Z.to_nat i < n)%nat) /\ indices_below n m'.
Proof.
  intros Hn Hall. unfold map_index.
  destruct (map_lookup k m) as [v | ] eqn:El; intros [= <- <-].
  - split; [eapply map_lookup_below; eassumption | exact Hall].
  - split; [split; [lia | exact Hn] | ].
    apply map_insert_below; [exact Hall | split; [lia | exact Hn]].
Qed.

Lemma staged_alter (f : list Photon -> list Photon) (i : nat) :
  forall (l : list (list Photon)) (x : list Photon),
    l !! i = Some x ->
    staged (alter f i l)
    = staged l - Z.of_nat (length x) + Z.of_nat (length (f x)).
Proof.
  induction i as [ | i IH]; intros [ | y l] x; simpl; try discriminate.
  - intros [= ->]. lia.
  - intros Hx.
    change (list_alter f i l) with (alter f i l).
    rewrite (IH _ _ Hx). lia.
Qed.

Lemma stage_invariant_view (n : nat) (st st' : Driver) :
  stage_view st' = stage_view st ->
  stage_invariant n st -> stage_invariant n st'.
Proof.
  unfold stage_view, stage_invariant. intros [= -> -> -> ->]. tauto.
Qed.

Ltac mod32 :=
  unfold eq32, canonical32, incr32, add32, wrap32, b2z in *;
  change (2 ^ 32) with 4294967296 in *;
  Z.div_mod_to_equations; lia.

Lemma handle_event_stage_invariant (n : nat) (from_receive_stack : bool)
  (ev : event_type) (p : Photon) (st : Driver) :
  (0 < n)%nat ->
  stage_invariant n st ->
  stage_invariant n
    (handle_event env ev p (log (EvTrack from_receive_stack ev) st)).
Proof.
  intros Hn (Hlen & Hall & Heq).
  destruct ev; try (unfold stage_invariant, passes in *; simpl;
                    repeat split; assumption).
  unfold handle_event.
  destruct (map_index _ _) as [i m'] eqn:E. simpl in E.
  destruct (map_index_below n _ i _ m' Hn Hall E) as [[Hi0 Hi] Hall'].
  destruct (lookup_lt_is_Some_2 (send_list (chans st)) (Z.to_nat i))
    as [x Hx]; [lia | ].
  unfold stage_invariant, passes in *; simpl.
  rewrite length_alter, (staged_alter _ _ _ _ Hx), length_app. simpl.
  repeat split; try assumption.
  set (k := Z.of_nat (length x)) in *.
  replace (Z.of_nat (length x + 1)) with (k + 1) by lia.
  clearbody k. mod32.
Qed.

Lemma track_slot_stage_invariant (n : nat) (st st' : Driver) :
  (0 < n)%nat ->
  track_slot env st = Some st' ->
  stage_invariant n st -> stage_invariant n st'.
Proof.
  intros Hn. unfold track_slot, take_photon.
  destruct (phtn_recv_stack (work st)) as [ | p rest];
    [destruct (get_photon _ _ _) as [[p src] rng]; simpl | ];
    (destruct (transport_photon_particle_pass _ _ _ _ _ _ _ _)
       as [[ev ts] | ]; [ | discriminate]);
    intros [= <-] Hinv.
  - apply handle_event_stage_invariant; [exact Hn | ].
    revert Hinv. apply stage_invariant_view. reflexivity.
  - match goal with
    | |- stage_invariant n (pop_recv_stack ?s) =>
        apply (stage_invariant_view n s); [reflexivity | ]
    end.
    apply handle_event_stage_invariant; [exact Hn | ].
    revert Hinv. apply stage_invariant_view. reflexivity.
Qed.

Lemma track_batch_stage_invariant (n : nat) (k : nat) :
  (0 < n)%nat ->
  forall st st',
    track_batch env k st = Some st' ->
    stage_invariant n st -> stage_invariant n st'.
Proof.
  intros Hn. induction k as [ | k IH]; intros st st'; simpl.
  - intros [= <-]; trivial.
  - destruct (has_work env st); [ | intros [= <-]; trivial].
    destruct (track_slot env st) as [st1 | ] eqn:E; [ | discriminate].
    intros Hb Hinv. apply (IH _ _ Hb).
    eapply track_slot_stage_invariant; eassumption.
Qed.

Lemma maybe_post_photon_send_stage_invariant (n : nat) (adj_rank i_b : Z)
  (st : Driver) :
  0 <= max_buffer_size env ->
  stage_invariant n st ->
  stage_invariant n (maybe_post_photon_send env adj_rank i_b st).
Proof.
  intros Hm (Hlen & Hall & Heq). unfold maybe_post_photon_send.
  destruct (send_policy env i_b st) eqn:Ep; [ | repeat split; assumption].
  unfold send_policy, send_list_at in Ep.
  unfold post_photon_send, n_photons_to_send, send_list_at.
  destruct (send_list (chans st) !! Z.to_nat i_b) as [x | ] eqn:Hx;
    simpl in Ep |- *;
    [ | rewrite andb_false_r in Ep; discriminate].
  unfold stage_invariant, passes in *; simpl.
  rewrite length_alter, (staged_alter _ _ _ _ Hx), length_drop.
  repeat split; try assumption.
  set (k := Z.of_nat (length x)) in *.
  destruct (k <? max_buffer_size env) eqn:Ek;
    [apply Z.ltb_lt in Ek | apply Z.ltb_ge in Ek].
  - replace (Z.of_nat (length x - Z.to_nat k)) with 0 by lia.
    clearbody k. mod32.
  - replace (Z.of_nat (length x - Z.to_nat (max_buffer_size env)))
      with (k - max_buffer_size env) by lia.
    clearbody k. mod32.
Qed.

Lemma progress_neighbor_stage_invariant (n : nat) (e : Z * Z) (st : Driver) :
  0 <= max_buffer_size env ->
  stage_invariant n st -> stage_invariant n (progress_neighbor env st e).
Proof.
  intros Hm Hinv. destruct e as [adj_rank i_b]. unfold progress_neighbor.
  apply (stage_invariant_view n
           (maybe_post_photon_send env adj_rank i_b
              (process_send_buffer env i_b st))).
  { unfold process_recv_buffer, test. case_ifs; reflexivity. }
  apply maybe_post_photon_send_stage_invariant; [exact Hm | ].
  revert Hinv. apply stage_invariant_view.
  unfold process_send_buffer, test. case_ifs; reflexivity.
Qed.

Lemma progress_channels_stage_invariant (n : nat) (l : list (Z * Z)) :
  0 <= max_buffer_size env ->
  forall st : Driver,
    stage_invariant n st ->
    stage_invariant n (fold_left (progress_neighbor env) l st).
Proof.
  intros Hm. induction l as [ | e l IH]; intros st Hinv; simpl;
    [exact Hinv | ].
  apply IH, progress_neighbor_stage_invariant; assumption.
Qed.

Lemma process_child_recv_stage_view (b : buf_id) (child : Z)
  (set_count : Z -> Tree -> Tree) (st : Driver) :
  (b = C1_RECV /\ set_count = set_c1_count)
  \/ (b = C2_RECV /\ set_count = set_c2_count) ->
  stage_view (process_child_recv env b child set_count st) = stage_view st.
Proof.
  intros [[-> ->] | [-> ->]]; unfold process_child_recv, test;
    case_ifs; reflexivity.
Qed.

Lemma progress_tree_stage_view (st : Driver) :
  stage_view (progress_tree env st) = stage_view st.
Proof.
  unfold progress_tree, tree_before_send.
  transitivity (stage_view
    (process_child_recv env C1_RECV (child1 env) set_c1_count st));
    [ | apply process_child_recv_stage_view; left; split; reflexivity].
  set (st1 := process_child_recv env C1_RECV (child1 env) set_c1_count st).
  transitivity (stage_view
    (process_child_recv env C2_RECV (child2 env) set_c2_count st1));
    [ | apply process_child_recv_stage_view; right; split; reflexivity].
  set (st2 := process_child_recv env C2_RECV (child2 env) set_c2_count st1).
  transitivity (stage_view (process_parent_recv env st2));
    [ | unfold process_parent_recv, test; case_ifs; reflexivity].
  set (st3 := process_parent_recv env st2).
  transitivity (stage_view (process_parent_send env st3));
    [ | unfold process_parent_send, test; case_ifs; reflexivity].
  unfold maybe_upward_send. case_ifs; reflexivity.
Qed.

Lemma work_iteration_stage_invariant (n : nat) (st st' : Driver) :
  (0 < n)%nat -> 0 <= max_buffer_size env ->
  work_iteration env st = Some st' ->
  stage_invariant n st -> stage_invariant n st'.
Proof.
  intros Hn Hm. unfold work_iteration.
  destruct (track_batch env _ st) as [st1 | ] eqn:Eb; [ | discriminate].
  intros [= <-] Hinv.
  apply (track_batch_stage_invariant n _ Hn _ _ Eb) in Hinv.
  apply (progress_channels_stage_invariant n (adjacent_procs (chans st1)) Hm)
    in Hinv.
  revert Hinv. apply stage_invariant_view.
  transitivity (stage_view (progress_tree env (progress_channels env st1)));
    [ | apply progress_tree_stage_view].
  unfold exit_test. case_ifs; reflexivity.
Qed.

Lemma work_loop_stage_invariant (n : nat) (fuel : nat) :
  (0 < n)%nat -> 0 <= max_buffer_size env ->
  forall st st',
    work_loop env fuel st = Some st' ->
    stage_invariant n st -> stage_invariant n st'.
Proof.
  intros Hn Hm.
  induction fuel as [ | fuel IH]; intros st st' Hrun Hinv;
    simpl in Hrun;
    destruct (finished st); try discriminate;
    try (injection Hrun as <-; exact Hinv).
  destruct (work_iteration env st) as [st1 | ] eqn:Ei; [ | discriminate].
  apply (IH _ _ Hrun).
  eapply work_iteration_stage_invariant; eassumption.
Qed.

Lemma setup_neighbors_stage (l : list (Z * Z)) :
  forall st : Driver,
    let st' := fold_left setup_neighbor l st in
    length (send_list (chans st'))
    = (length (send_list (chans st)) + length l)%nat
    /\ staged (send_list (chans st')) = staged (send_list (chans st))
    /\ adjacent_procs (chans st') = adjacent_procs (chans st)
    /\ n_photons_sent (diag st') = n_photons_sent (diag st)
    /\ passes (trace st') = passes (trace st).
Proof.
  induction l as [ | [adj_rank i_b] l IH]; intros st st'.
  - unfold st'; simpl. repeat split. lia.
  - unfold st'.
    change (fold_left setup_neighbor ((adj_rank, i_b) :: l) st)
      with (fold_left setup_neighbor l (setup_neighbor st (adj_rank, i_b))).
    destruct (IH (setup_neighbor st (adj_rank, i_b)))
      as (H1 & H2 & H3 & H4 & H5).
    rewrite H1, H2, H3, H4, H5. simpl.
    rewrite length_app. simpl. repeat split; try lia.
    clear. induction (send_list (chans st)) as [ | x l' IH]; simpl; lia.
Qed.

Lemma setup_stage_invariant :
  indices_below (length (get_proc_adjacency_list (mesh env)))
                (get_proc_adjacency_list (mesh env)) ->
  stage_invariant (length (get_proc_adjacency_list (mesh env)))
                  (setup env (init_driver env)).
Proof.
  intros Hall. unfold setup.
  set (st0 := post_tree_recvs env (init_driver env)).
  assert (Hv : stage_view st0 = stage_view (init_driver env))
    by (unfold st0, post_tree_recvs; case_ifs; reflexivity).
  unfold stage_view in Hv. injection Hv as Hv1 Hv2 Hv3 Hv4.
  rewrite Hv2.
  destruct (setup_neighbors_stage (get_proc_adjacency_list (mesh env)) st0)
    as (H1 & H2 & H3 & H4 & H5).
  unfold stage_invariant.
  rewrite H1, H2, H3, H4, H5, Hv1, Hv2, Hv3, Hv4. simpl.
  repeat split; assumption.
Qed.

(** X12: no photon is lost between tracking and sending.  With a
    neighbor map that is not empty and names only buffers that exist,
    the photons staged in the send lists and the photons sent add up,
    as [uint32_t], to the histories that ended in PASS; a rank that is
    not in the map stages in the list of index 0. *)
Theorem passed_photons_staged_or_sent (fuel : nat) (st : Driver) :
  get_proc_adjacency_list (mesh env) <> [] ->
  indices_below (length (get_proc_adjacency_list (mesh env)))
                (get_proc_adjacency_list (mesh env)) ->
  0 <= max_buffer_size env ->
  work_loop env fuel (setup env (init_driver env)) = Some st ->
  eq32 (staged (send_list (chans st)) + n_photons_sent (diag st))
       (passes (trace st))
  /\ length (send_list (chans st))
     = length (get_proc_adjacency_list (mesh env)).
Proof.
  intros Hne Hall Hm Hrun.
  assert (Hn : (0 < length (get_proc_adjacency_list (mesh env)))%nat)
    by (destruct (get_proc_adjacency_list (mesh env));
        [congruence | simpl; lia]).
  destruct (work_loop_stage_invariant _ fuel Hn Hm _ _ Hrun
              (setup_stage_invariant Hall)) as (Hlen & _ & Heq).
  split; assumption.
Qed.

End StagingLedger.

(** * The further properties on concrete inputs *)

Section FurtherScenarios.

Import QWorld.

Lemma pass_env_neighbors : neighbors_indexed pass_env.
Proof.
  split; [vm_compute; reflexivity | ].
  intros i Hi. exists 1, 0. split; [simpl; constructor | ].
  simpl in Hi. lia.
Qed.

Lemma resend_env_neighbors : neighbors_indexed (resend_env true).
Proof.
  split; [vm_compute; reflexivity | ].
  intros i Hi. exists 0, 0. split; [simpl; constructor | ].
  simpl in Hi. lia.
Qed.

Lemma pass_env_indices :
  indices_below (length (get_proc_adjacency_list (mesh pass_env)))
                (get_proc_adjacency_list (mesh pass_env)).
Proof.
  constructor; [simpl; split; lia | constructor].
Qed.

Lemma tracker_event_face_witness :
  pass_call = Some (PASS, pass_state)
  /\ get_bc (t_cell pass_state) (t_surface_cross pass_state) = PROCESSOR
  /\ cell (t_phtn pass_state)
     = get_next_cell (t_cell pass_state) (t_surface_cross pass_state).
Proof.
  assert (H1 : pass_call = Some (PASS, pass_state)) by (vm_compute; reflexivity).
  split; [exact H1 | ].
  exact (proj2 (tracker_event_face (Source := ListSource) 5 _ _ _ _ _ _ _
                  PASS pass_state H1)).
Defined.

Lemma tracker_photon_marks_witness :
  kill_call = Some (KILL, kill_state)
  /\ E_initial (t_phtn kill_state) = E_initial dim_photon
  /\ alive (t_phtn kill_state) = false
  /\ census_flag (t_phtn kill_state) = census_flag dim_photon
  /\ length (t_rank_abs_E kill_state) = 1%nat.
Proof.
  assert (H1 : kill_call = Some (KILL, kill_state)) by (vm_compute; reflexivity).
  split; [exact H1 | ].
  exact (tracker_photon_marks 5 _ _ _ _ _ _ _ KILL kill_state H1).
Defined.

Lemma get_next_dt_bounds_witness :
  weak_order_on [dmul (IMC_State.m_dt time_state)
                      (IMC_State.m_dt_mult time_state);
                 IMC_State.m_dt_max time_state]
  /\ dlt (dmul (IMC_State.m_dt time_state) (IMC_State.m_dt_mult time_state))
         (IMC_State.get_next_dt time_state) = false
  /\ dlt (IMC_State.m_dt_max time_state)
         (IMC_State.get_next_dt time_state) = false.
Proof.
  split; [apply Q_weak_order | ].
  destruct (get_next_dt_bounds time_state) as [H | (_ & _ & H)].
  - vm_compute in H. discriminate H.
  - exact (H (Q_weak_order _)).
Defined.

Lemma tree_topology_witness :
  0 <= rank pass_env < n_rank pass_env
  /\ n_rank pass_env < 2 ^ 30
  /\ proc_null < 0
  /\ (parent pass_env = proc_null <-> rank pass_env = 0)
  /\ (child1 pass_env <> proc_null ->
      rank (resend_env true) = child1 pass_env ->
      parent (resend_env true) = rank pass_env).
Proof.
  assert (H1 : 0 <= rank pass_env < n_rank pass_env) by (vm_compute; split; congruence).
  assert (H2 : n_rank pass_env < 2 ^ 30) by (vm_compute; reflexivity).
  assert (H3 : proc_null < 0) by (vm_compute; reflexivity).
  split; [exact H1 | ]. split; [exact H2 | ]. split; [exact H3 | ].
  pose proof (tree_topology pass_env (resend_env true) H1 H2 H3)
    as (T1 & _ & _ & _ & _ & _ & T7 & _).
  split; [exact T1 | exact T7].
Defined.

Lemma receives_balance_witness :
  neighbors_indexed pass_env
  /\ work_loop pass_env 10 (setup pass_env (init_driver pass_env))
     = Some pass_loop_exit
  /\ n_receives_posted (diag (shutdown pass_env pass_loop_exit))
     = n_receives_completed (diag (shutdown pass_env pass_loop_exit)).
Proof.
  assert (H2 : work_loop pass_env 10 (setup pass_env (init_driver pass_env))
               = Some pass_loop_exit) by (vm_compute; reflexivity).
  split; [exact pass_env_neighbors | ]. split; [exact H2 | ].
  apply (proj2 (receives_balance pass_env 10 pass_loop_exit
                  pass_env_neighbors H2)).
  left. vm_compute. reflexivity.
Defined.

Lemma sends_balance_witness :
  Z.of_nat (length (get_proc_adjacency_list (mesh (resend_env true)))) < 2 ^ 32
  /\ work_loop (resend_env true) 10
       (setup (resend_env true) (init_driver (resend_env true)))
     = Some resend_loop_exit
  /\ n_sends_posted (diag (shutdown (resend_env true) resend_loop_exit))
     = wrap32 (n_sends_completed
                 (diag (shutdown (resend_env true) resend_loop_exit))
               + (count_sent (phtn_send_buffer (chans resend_loop_exit))
                  + resends (trace resend_loop_exit))).
Proof.
  assert (H1 : Z.of_nat (length (get_proc_adjacency_list
                                   (mesh (resend_env true)))) < 2 ^ 32)
    by (vm_compute; reflexivity).
  assert (H2 : work_loop (resend_env true) 10
                 (setup (resend_env true) (init_driver (resend_env true)))
               = Some resend_loop_exit) by (vm_compute; reflexivity).
  split; [exact H1 | ]. split; [exact H2 | ].
  exact (proj1 (sends_balance (resend_env true) 10 resend_loop_exit H1 H2)).
Defined.

Lemma completed_counted_once_witness :
  neighbors_indexed (resend_env true)
  /\ work_loop (resend_env true) 10
       (setup (resend_env true) (init_driver (resend_env true)))
     = Some resend_loop_exit
  /\ eq64 (tree_count (tree resend_loop_exit) + sent_up (trace resend_loop_exit))
          (completions (trace resend_loop_exit)
           + child_total (resend_env true) (iter resend_loop_exit)).
Proof.
  assert (H2 : work_loop (resend_env true) 10
                 (setup (resend_env true) (init_driver (resend_env true)))
               = Some resend_loop_exit) by (vm_compute; reflexivity).
  split; [exact resend_env_neighbors | ]. split; [exact H2 | ].
  exact (proj1 (completed_counted_once (resend_env true) 10 resend_loop_exit
                  resend_env_neighbors H2)).
Defined.

Lemma census_one_per_event_witness :
  work_loop census_env 10 (setup census_env (init_driver census_env))
  = Some census_loop_exit
  /\ census_events (trace census_loop_exit) = 2
  /\ Z.of_nat (length (census_list (work census_loop_exit)))
     = census_events (trace census_loop_exit).
Proof.
  assert (H2 : work_loop census_env 10
                 (setup census_env (init_driver census_env))
               = Some census_loop_exit) by (vm_compute; reflexivity).
  split; [exact H2 | ]. split; [reflexivity | ].
  exact (census_one_per_event census_env 10 census_loop_exit H2).
Defined.

Lemma source_not_overdrawn_witness :
  0 <= n_local (resend_env true) < 2 ^ 64
  /\ work_loop (resend_env true) 10
       (setup (resend_env true) (init_driver (resend_env true)))
     = Some resend_loop_exit
  /\ n_local_sourced (tree resend_loop_exit) = drawn (trace resend_loop_exit)
  /\ 0 <= drawn (trace resend_loop_exit) <= n_local (resend_env true).
Proof.
  assert (H1 : 0 <= n_local (resend_env true) < 2 ^ 64)
    by (vm_compute; split; [congruence | reflexivity]).
  assert (H2 : work_loop (resend_env true) 10
                 (setup (resend_env true) (init_driver (resend_env true)))
               = Some resend_loop_exit) by (vm_compute; reflexivity).
  split; [exact H1 | ]. split; [exact H2 | ].
  exact (source_not_overdrawn (resend_env true) H1 10 resend_loop_exit H2).
Defined.

Lemma passed_photons_staged_or_sent_witness :
  get_proc_adjacency_list (mesh pass_env) <> []
  /\ indices_below (length (get_proc_adjacency_list (mesh pass_env)))
                   (get_proc_adjacency_list (mesh pass_env))
  /\ 0 <= max_buffer_size pass_env
  /\ work_loop pass_env 10 (setup pass_env (init_driver pass_env))
     = Some pass_loop_exit
  /\ eq32 (staged (send_list (chans pass_loop_exit))
           + n_photons_sent (diag pass_loop_exit))
          (passes (trace pass_loop_exit)).
Proof.
  assert (H1 : get_proc_adjacency_list (mesh pass_env) <> [])
    by (vm_compute; congruence).
  assert (H3 : 0 <= max_buffer_size pass_env) by (vm_compute; congruence).
  assert (H4 : work_loop pass_env 10 (setup pass_env (init_driver pass_env))
               = Some pass_loop_exit) by (vm_compute; reflexivity).
  split; [exact H1 | ]. split; [exact pass_env_indices | ].
  split; [exact H3 | ]. split; [exact H4 | ].
  exact (proj1 (passed_photons_staged_or_sent pass_env 10 pass_loop_exit
                  H1 pass_env_indices H3 H4)).
Defined.

Lemma root_leaves_on_full_count_witness :
  neighbors_indexed pass_env
  /\ parent pass_env = proc_null
  /\ n_global pass_env <> 0
  /\ work_loop pass_env 10 (setup pass_env (init_driver pass_env))
     = Some pass_loop_exit
  /\ tree_count (tree pass_loop_exit) = n_global pass_env
  /\ eq64 (n_global pass_env)
          (completions (trace pass_loop_exit)
           + child_total pass_env (iter pass_loop_exit)).
Proof.
  assert (H2 : parent pass_env = proc_null) by (vm_compute; reflexivity).
  assert (H3 : n_global pass_env <> 0) by (vm_compute; congruence).
  assert (H4 : work_loop pass_env 10 (setup pass_env (init_driver pass_env))
               = Some pass_loop_exit) by (vm_compute; reflexivity).
  split; [exact pass_env_neighbors | ]. split; [exact H2 | ].
  split; [exact H3 | ]. split; [exact H4 | ].
  exact (root_leaves_on_full_count pass_env 10 pass_loop_exit
           pass_env_neighbors H2 H3 H4).
Defined.

End FurtherScenarios.
